(** * PyPlume: the proximity engine of [parcels_analysis.py]

    A shallow embedding of [line_seg], [valid_point], [intersection_info]
    and of the class [ParticlePlotFeature] ([__init__], [count_near],
    [get_closest_dist]), with the properties of its specification.

    Numbers are IEEE-754 binary64 values (Python [float], numpy [float64]):
    Rocq's primitive [float], whose operations are specified bit for bit by
    [SpecFloat].  Exceptions are values of [exn]; a method of the class is
    a function from the object to a result and the object afterwards. *)

From Stdlib Require Import String.
From Stdlib Require Import ZArith List Bool Lia.
From Stdlib Require Import Uint63 Floats.
Import ListNotations.

Open Scope float_scope.

(** ** Exceptions and results *)

Inductive exn : Type :=
| ValueError (msg : string)
| IndexError
| TypeError
| LibraryError.   (* whatever an external library call raises *)

Inductive result (A : Type) : Type :=
| Ok (a : A)
| Raise (e : exn).

Arguments Ok {A} a.
Arguments Raise {A} e.

Definition rbind {A B} (r : result A) (k : A -> result B) : result B :=
  match r with
  | Ok a => k a
  | Raise e => Raise e
  end.

Declare Scope result_scope.
Delimit Scope result_scope with result.
Notation "x <- r ;; k" := (rbind r (fun x => k))
  (at level 61, r at next level, right associativity) : result_scope.

(** [xs[i]] for a non-negative index: [IndexError] out of range. *)
Definition getitem {A} (xs : list A) (i : nat) : result A :=
  match nth_error xs i with
  | Some a => Ok a
  | None => Raise IndexError
  end.

(** [xs[i] = v]: the list with position [i] replaced. *)
Fixpoint replace_at {A} (xs : list A) (i : nat) (v : A) : list A :=
  match xs, i with
  | [], _ => []
  | _ :: t, O => v :: t
  | h :: t, S j => h :: replace_at t j v
  end.

Definition setitem {A} (xs : list A) (i : nat) (v : A) : result (list A) :=
  if (i <? length xs)%nat then Ok (replace_at xs i v) else Raise IndexError.

(** ** Segments *)

Record segment : Type := mk_segment {
  x1 : float;
  y1 : float;
  x2 : float;
  y2 : float;
  dom : float * float;
  rng : float * float;
  slope : float
}.

(** [line_seg(x1, y1, x2, y2)]; [x1 - x2 != 0] is [negb (x1 - x2 =? 0)]
    (a NaN difference is different from 0). *)
Definition line_seg (x1 y1 x2 y2 : float) : segment :=
  mk_segment x1 y1 x2 y2
    (if x1 <=? x2 then (x1, x2) else (x2, x1))
    (if y1 <=? y2 then (y1, y2) else (y2, y1))
    (if negb (x1 - x2 =? 0) then (y1 - y2) / (x1 - x2) else nan).

(** [valid_point(x, y, line)]: both chained comparisons. *)
Definition valid_point (x y : float) (line : segment) : bool :=
  let in_dom := (fst (dom line) <=? x) && (x <=? snd (dom line)) in
  let in_range := (fst (rng line) <=? y) && (y <=? snd (rng line)) in
  in_dom && in_range.

(** [intersection_info(x, y, line)]: the pair (intersection x, intersection y). *)
Definition intersection_info (x y : float) (line : segment) : float * float :=
  if is_nan (slope line) then (x1 line, y)
  else if slope line =? 0 then (x, y1 line)
  else
    let norm_slope := -1 / slope line in
    let slope_d := norm_slope - slope line in
    let int_d := (slope line * - x1 line + y1 line) - (norm_slope * - x + y) in
    let x_int := int_d / slope_d in
    let y_int := norm_slope * (x_int - x) + y in
    (x_int, y_int).

(** ** The class [ParticlePlotFeature] *)

Definition labels_msg : string := "Labels must be the same length as lats/lons".
Definition ragged_msg : string :=
  "setting an array element with a sequence. The requested array has an inhomogeneous shape after 1 dimensions. The detected shape was (2,) + inhomogeneous part.".
Definition negative_msg : string := "negative dimensions are not allowed".

Section Feature.

(** [utils.haversine(lat1, lat2, lon1, lon2)] is defined in [utils.py] and
    [scipy.spatial.KDTree] in scipy, both outside [parcels_analysis.py]:
    they are parameters here.  A KD-tree call either raises or returns; a
    query returns the index of a data point. *)
Variable haversine : float -> float -> float -> float -> float.
Variable KDTree : Type.
Variable kd_build : list (float * float) -> option KDTree.
Variable kd_query : KDTree -> float -> float -> option nat.

Record ParticlePlotFeature : Type := mk_feature {
  lats : list float;
  lons : list float;
  points : list (float * float);
  kdtree : KDTree;
  labels : option (list string);
  segments : option (list (option segment));
  track_dist : float
}.

Definition library {A} (r : option A) : result A :=
  match r with
  | Some a => Ok a
  | None => Raise LibraryError
  end.

(** [np.array([lats, lons]).T]: one row [(lat, lon)] per waypoint; two
    sequences of different lengths do not make a 2-d array. *)
Definition np_points (lats lons : list float) : result (list (float * float)) :=
  if (length lats =? length lons)%nat then Ok (combine lats lons)
  else Raise (ValueError ragged_msg).

(** [np.empty(n, dtype=dict)]: [n] unset entries; a negative size raises. *)
Definition np_empty (n : Z) : result (list (option segment)) :=
  if (n <? 0)%Z then Raise (ValueError negative_msg)
  else Ok (repeat None (Z.to_nat n)).

(** The loop [for i in range(0, len(points) - 1): segments[i] = line_seg(...)]. *)
Fixpoint fill_segments (lats lons : list float) (range : list nat)
    (segs : list (option segment)) : result (list (option segment)) :=
  match range with
  | [] => Ok segs
  | i :: range' =>
      (lon_i <- getitem lons i ;;
       lat_i <- getitem lats i ;;
       lon_j <- getitem lons (i + 1) ;;
       lat_j <- getitem lats (i + 1) ;;
       segs' <- setitem segs i (Some (line_seg lon_i lat_i lon_j lat_j)) ;;
       fill_segments lats lons range' segs')%result
  end.

(** [range(0, n)] for a Python integer [n]. *)
Definition py_range (n : Z) : list nat := seq 0 (Z.to_nat n).

(** [ParticlePlotFeature.__init__]. *)
Definition init (lats lons : list float) (labels : option (list string))
    (segments : bool) (track_dist : float) : result ParticlePlotFeature :=
  (pts <- np_points lats lons ;;
   tree <- library (kd_build pts) ;;
   _ <- match labels with
        | Some ls =>
            if negb (length ls =? length lats)%nat
            then Raise (ValueError labels_msg) else Ok tt
        | None => Ok tt
        end ;;
   segs <- (if segments then
              empty <- np_empty (Z.of_nat (length lats) - 1) ;;
              filled <- fill_segments lats lons
                          (py_range (Z.of_nat (length pts) - 1)) empty ;;
              Ok (Some filled)
            else Ok None) ;;
   Ok (mk_feature lats lons pts tree labels segs track_dist))%result.

(** *** Methods: the object is threaded through every call *)

Definition method (A : Type) : Type :=
  ParticlePlotFeature -> result A * ParticlePlotFeature.

Definition ret {A} (a : A) : method A := fun self => (Ok a, self).

Definition bind {A B} (m : method A) (k : A -> method B) : method B :=
  fun self =>
    match m self with
    | (Ok a, self') => k a self'
    | (Raise e, self') => (Raise e, self')
    end.

(** Reading an attribute of [self]. *)
Definition attr {A} (f : ParticlePlotFeature -> A) : method A :=
  fun self => (Ok (f self), self).

(** A computation on local values only. *)
Definition local {A} (r : result A) : method A := fun self => (r, self).

Declare Scope method_scope.
Delimit Scope method_scope with method.
Notation "x <- m ;; k" := (bind m (fun x => k))
  (at level 61, m at next level, right associativity) : method_scope.

(** The inner loop of [count_near]:
    [for i, point in enumerate(self.points): if ... : counts[i] += 1]. *)
Fixpoint count_point (td : float) (p_point : float * float)
    (enum : list (nat * (float * float))) (counts : list float)
    : result (list float) :=
  match enum with
  | [] => Ok counts
  | (i, point) :: enum' =>
      if haversine (fst p_point) (fst point) (snd p_point) (snd point) <=? td
      then (c <- getitem counts i ;;
            counts' <- setitem counts i (c + 1) ;;
            count_point td p_point enum' counts')%result
      else count_point td p_point enum' counts
  end.

(** The outer loop, [for p_point in zip(p_lats, p_lons)]. *)
Fixpoint count_batch (td : float) (pts : list (float * float))
    (batch : list (float * float)) (counts : list float)
    : result (list float) :=
  match batch with
  | [] => Ok counts
  | p_point :: batch' =>
      (counts' <- count_point td p_point
                    (combine (seq 0 (length pts)) pts) counts ;;
       count_batch td pts batch' counts')%result
  end.

(** [ParticlePlotFeature.count_near]; [np.zeros(n)] is [n] floats 0.0. *)
Definition count_near (p_lats p_lons : list float) : method (list float) :=
  (lats_ <- attr lats ;;
   let counts := repeat 0 (length lats_) in
   pts <- attr points ;;
   td <- attr track_dist ;;
   local (count_batch td pts (combine p_lats p_lons) counts))%method.

(** The loop [for seg in seg_check] of [get_closest_dist]; an unset
    array entry cannot be subscripted. *)
Fixpoint check_segments (lat lon : float) (seg_check : list (option segment))
    (least_dist : float) : result float :=
  match seg_check with
  | [] => Ok least_dist
  | None :: _ => Raise TypeError
  | Some seg :: seg_check' =>
      let '(lon_int, lat_int) := intersection_info lon lat seg in
      if valid_point lon_int lat_int seg then
        let dist := haversine lat lat_int lon lon_int in
        check_segments lat lon seg_check'
          (if dist <? least_dist then dist else least_dist)
      else check_segments lat lon seg_check' least_dist
  end.

(** [ParticlePlotFeature.get_closest_dist]. *)
Definition get_closest_dist (lat lon : float) : method float :=
  (let least_dist := infinity in
   tree <- attr kdtree ;;
   closest_idx <- local (library (kd_query tree lat lon)) ;;
   segs <- attr segments ;;
   pts <- attr points ;;
   least_dist <-
     match segs with
     | Some segs =>
         let seg_check := [] in
         seg_check <-
           (if (Z.of_nat closest_idx <? Z.of_nat (length pts) - 1)%Z
            then local (s <- getitem segs closest_idx ;;
                        Ok (seg_check ++ [s]))%result
            else ret seg_check) ;;
         seg_check <-
           (if (Z.of_nat closest_idx >? 0)%Z
            then local (s <- getitem segs (closest_idx - 1) ;;
                        Ok (seg_check ++ [s]))%result
            else ret seg_check) ;;
         local (check_segments lat lon seg_check least_dist)
     | None => ret least_dist
     end ;;
   pnt <- local (getitem pts closest_idx) ;;
   let dist := haversine lat (fst pnt) lon (snd pnt) in
   ret (if dist <? least_dist then dist else least_dist))%method.

End Feature.

Arguments lats {KDTree} _.
Arguments lons {KDTree} _.
Arguments points {KDTree} _.
Arguments kdtree {KDTree} _.
Arguments labels {KDTree} _.
Arguments segments {KDTree} _.
Arguments track_dist {KDTree} _.
Arguments mk_feature {KDTree}.
Arguments init {KDTree}.
Arguments count_near haversine {KDTree}.
Arguments get_closest_dist haversine {KDTree}.

(** A method that leaves the object as it found it. *)
Definition preserves {KDTree A} (m : method KDTree A) : Prop :=
  forall self, snd (m self) = self.

(** ** What the specification says, in its own words *)

(** Section 4.2, [projectPoint] for a segment that is neither vertical nor
    horizontal: the intersection of the line of slope [m] through the first
    endpoint with the perpendicular through [(x, y)]. *)
Definition two_line_intersection (x y : float) (s : segment) : float * float :=
  let m := slope s in
  let m_perp := -1 / m in
  let delta_m := m_perp - m in
  let delta_intercept := (m * - x1 s + y1 s) - (m_perp * - x + y) in
  let xi := delta_intercept / delta_m in
  let yi := m_perp * (xi - x) + y in
  (xi, yi).

(** [lo] is a minimum of [a] and [b]: one of them, below both. *)
Definition minimum_of (a b lo : float) : Prop :=
  (lo = a \/ lo = b) /\ (lo <=? a) = true /\ (lo <=? b) = true.

(** [hi] is a maximum of [a] and [b]: one of them, above both. *)
Definition maximum_of (a b hi : float) : Prop :=
  (hi = a \/ hi = b) /\ (a <=? hi) = true /\ (b <=? hi) = true.

(** [r] is a minimum of the distances [cs]. *)
Definition is_minimum (r : float) (cs : list float) : Prop :=
  In r cs /\ Forall (fun c => (r <=? c) = true) cs.

(** The segment from waypoint [i] to waypoint [i + 1]. *)
Definition segment_at (lats lons : list float) (i : nat) : segment :=
  line_seg (nth i lons 0) (nth i lats 0) (nth (i + 1) lons 0) (nth (i + 1) lats 0).

(** Section 4.4 step 2: the segment ending at [idx] when [idx > 0] and the
    segment starting at [idx] when [idx < N - 1]. *)
Definition candidate_segments (lats lons : list float) (idx : nat) : list segment :=
  (if (0 <? idx)%nat then [segment_at lats lons (idx - 1)] else []) ++
  (if (idx + 1 <? length lats)%nat then [segment_at lats lons idx] else []).

(** Modelled from the spec: [utils.haversine] is not in
    [parcels_analysis.py]; section 4.1 makes the geodesic distance a
    non-negative float on finite coordinates. *)
Definition distance_contract (d : float -> float -> float -> float -> float) : Prop :=
  forall lat1 lat2 lon1 lon2,
    is_finite lat1 = true -> is_finite lat2 = true ->
    is_finite lon1 = true -> is_finite lon2 = true ->
    (0 <=? d lat1 lat2 lon1 lon2) = true.

(** Modelled from the spec: sections 4.1 and 7 make the geodesic distance
    NaN, without raising, when a coordinate is NaN; only the coordinates of
    the first point, the query, are needed here. *)
Definition nan_contract (d : float -> float -> float -> float -> float) : Prop :=
  forall lat1 lat2 lon1 lon2,
    is_nan lat1 = true \/ is_nan lon1 = true ->
    is_nan (d lat1 lat2 lon1 lon2) = true.

(** The running minimum of [get_closest_dist],
    [least_dist = dist if dist < least_dist else least_dist]. *)
Definition keep_least (least_dist dist : float) : float :=
  if dist <? least_dist then dist else least_dist.

Section Candidates.
Variable haversine : float -> float -> float -> float -> float.

(** Section 4.4 step 3: the distance to the projected point, kept when
    the projection passes the bounding-box test. *)
Definition projection_dist (lat lon : float) (s : segment) : list float :=
  let p := intersection_info lon lat s in
  if valid_point (fst p) (snd p) s then [haversine lat (snd p) lon (fst p)] else [].

Definition waypoint_dist (lats lons : list float) (lat lon : float) (idx : nat) : float :=
  haversine lat (nth idx lats 0) lon (nth idx lons 0).

(** Section 4.4 steps 3 and 4: the distances the minimum is taken over. *)
Definition candidates (lats lons : list float) (with_segments : bool)
    (lat lon : float) (idx : nat) : list float :=
  waypoint_dist lats lons lat lon idx ::
  (if with_segments
   then flat_map (projection_dist lat lon) (candidate_segments lats lons idx)
   else []).

(** Section 4.4, [countNear]: the positions of a batch within the
    threshold of a waypoint. *)
Definition near (td : float) (w p : float * float) : bool :=
  haversine (fst p) (fst w) (snd p) (snd w) <=? td.

Definition near_count (td : float) (batch : list (float * float))
    (w : float * float) : nat :=
  length (filter (near td w) batch).
End Candidates.

(** *** Section 4.2 and 4.4 on the waypoints themselves

    The operations of the specification, written on the coordinates of the
    two endpoints of a segment, to compare the code with. *)

(** The smaller and the larger of two numbers. *)
Definition lower (a b : float) : float := if b <? a then b else a.
Definition upper (a b : float) : float := if a <? b then b else a.

(** [containsProjection]: [x] within the domain interval, from the smaller
    to the larger longitude of the endpoints, and [y] within the range
    interval, from the smaller to the larger latitude, both inclusive. *)
Definition containsProjection (x y xa ya xb yb : float) : bool :=
  ((lower xa xb <=? x) && (x <=? upper xa xb)) &&
  ((lower ya yb <=? y) && (y <=? upper ya yb)).

(** [projectPoint] for the segment from [(xa, ya)] to [(xb, yb)]: vertical
    when the two longitudes are equal, horizontal when the slope
    [(ya - yb) / (xa - xb)] is exactly 0, and otherwise the intersection
    with the perpendicular through [(x, y)], by the formula of the
    section. *)
Definition projectPoint (x y xa ya xb yb : float) : float * float :=
  if xa =? xb then (xa, y)
  else
    let m := (ya - yb) / (xa - xb) in
    if m =? 0 then (x, ya)
    else
      let m_perp := -1 / m in
      let delta_m := m_perp - m in
      let delta_intercept := (m * - xa + ya) - (m_perp * - x + y) in
      let xi := delta_intercept / delta_m in
      let yi := m_perp * (xi - x) + y in
      (xi, yi).

(** Section 4.4 step 2, by index: the segment that ends at waypoint [idx]
    is segment [idx - 1], the one that starts there is segment [idx]. *)
Definition adjacent_segments (n idx : nat) : list nat :=
  (if (0 <? idx)%nat then [(idx - 1)%nat] else []) ++
  (if (idx + 1 <? n)%nat then [idx] else []).

(** No coordinate difference of two consecutive waypoints overflows so
    that the slope of their segment is lost: where the longitudes differ,
    the slope is a number. *)
Definition slopes_are_numbers (lats lons : list float) : Prop :=
  forall i, (i + 1 < length lats)%nat ->
    (nth i lons 0 =? nth (i + 1) lons 0) = false ->
    is_nan ((nth i lats 0 - nth (i + 1) lats 0)
            / (nth i lons 0 - nth (i + 1) lons 0)) = false.

Section Closest.
Variable haversine : float -> float -> float -> float -> float.

(** Section 4.4 step 3 for segment [i], from waypoint [i] to waypoint
    [i + 1]: the distance to the projected point, when the projection is
    contained. *)
Definition projected_dist (lats lons : list float) (lat lon : float) (i : nat)
    : list float :=
  let xa := nth i lons 0 in
  let ya := nth i lats 0 in
  let xb := nth (i + 1) lons 0 in
  let yb := nth (i + 1) lats 0 in
  let p := projectPoint lon lat xa ya xb yb in
  if containsProjection (fst p) (snd p) xa ya xb yb
  then [haversine lat (snd p) lon (fst p)]
  else [].

(** Section 4.4 steps 3 to 5: what [closestDistance] is the minimum of. *)
Definition closest_candidates (lats lons : list float) (with_segments : bool)
    (lat lon : float) (idx : nat) : list float :=
  haversine lat (nth idx lats 0) lon (nth idx lons 0) ::
  (if with_segments
   then flat_map (projected_dist lats lons lat lon)
          (adjacent_segments (length lats) idx)
   else []).
End Closest.

(** The float that holds the integer [n] ([counts] is a float64 array). *)
Definition float_of_nat (n : nat) : float := of_uint63 (Uint63.of_Z (Z.of_nat n)).

(** ** Stand-ins for the two parameters, to run the model on concrete tracks *)

Module Reference.

Definition all_finite (a b c d : float) : bool :=
  is_finite a && is_finite b && is_finite c && is_finite d.

(** A planar stand-in for the great-circle distance, in metres, with the
    contract of section 4.1. *)
Definition flat_distance (lat1 lat2 lon1 lon2 : float) : float :=
  if all_finite lat1 lat2 lon1 lon2 then
    let d := 111195 * sqrt ((lat2 - lat1) * (lat2 - lat1) + (lon2 - lon1) * (lon2 - lon1)) in
    if 0 <=? d then d else infinity
  else nan.

(** A stand-in for the KD-tree: the nearest waypoint by planar Euclidean
    distance on (lat, lon), as in section 4.3, by a linear scan; a tree
    holds finite points, also none at all, and answers finite queries, with
    the number of points as the answer when no point is at a finite
    distance. *)
Definition scan_tree : Type := list (float * float).

Definition finite_point (p : float * float) : bool :=
  is_finite (fst p) && is_finite (snd p).

Definition scan_build (pts : list (float * float)) : option scan_tree :=
  if forallb finite_point pts then Some pts else None.

Definition sq_dist (p q : float * float) : float :=
  (fst p - fst q) * (fst p - fst q) + (snd p - snd q) * (snd p - snd q).

Fixpoint scan_from (q : float * float) (pts : list (float * float))
    (i best : nat) (best_d : float) : nat :=
  match pts with
  | [] => best
  | p :: pts' =>
      if sq_dist p q <? best_d
      then scan_from q pts' (S i) i (sq_dist p q)
      else scan_from q pts' (S i) best best_d
  end.

Definition scan_query (t : scan_tree) (lat lon : float) : option nat :=
  if finite_point (lat, lon)
  then Some (scan_from (lat, lon) t 0 (length t) infinity)
  else None.

(** An index that answers every query, also one that is not finite, with
    its first point. *)
Definition first_query (t : scan_tree) (lat lon : float) : option nat := Some 0%nat.

(** Two waypoints one degree of longitude apart on the parallel 32.5. *)
Definition two_lats : list float := [32.5; 32.5].
Definition two_lons : list float := [-117.25; -116.25].

(** Three waypoints: a parallel, then a meridian. *)
Definition three_lats : list float := [32.5; 32.5; 33.5].
Definition three_lons : list float := [-117.25; -116.25; -116.25].

Definition three_track : ParticlePlotFeature scan_tree :=
  mk_feature three_lats three_lons
    (combine three_lats three_lons) (combine three_lats three_lons) None
    (Some [Some (line_seg (-117.25) 32.5 (-116.25) 32.5);
           Some (line_seg (-116.25) 32.5 (-116.25) 33.5)])
    500.

(** The two waypoints as a labelled track without segments. *)
Definition two_labels : list string := ["west"; "east"]%string.

Definition two_track : ParticlePlotFeature scan_tree :=
  mk_feature two_lats two_lons
    (combine two_lats two_lons) (combine two_lats two_lons) (Some two_labels)
    None 500.

(** A single waypoint, with segments requested. *)
Definition one_track : ParticlePlotFeature scan_tree :=
  mk_feature [32.5] [-117.25] [(32.5, -117.25)] [(32.5, -117.25)] None
    (Some []) 0.

(** The three waypoints without segments, and the track of no waypoint. *)
Definition three_plain : ParticlePlotFeature scan_tree :=
  mk_feature three_lats three_lons
    (combine three_lats three_lons) (combine three_lats three_lons) None
    None 500.

Definition empty_track : ParticlePlotFeature scan_tree :=
  mk_feature [] [] [] [] None None 0.

(** The single waypoint with a threshold of 200 km. *)
Definition one_wide : ParticlePlotFeature scan_tree :=
  mk_feature [32.5] [-117.25] [(32.5, -117.25)] [(32.5, -117.25)] None
    (Some []) 200000.

End Reference.

(** ** The rest of [parcels_analysis.py] and the kernels *)

(** *** numpy scalars, reductions and arrays *)

(** [np.datetime64]: a count of nanoseconds, or NaT. *)
Inductive datetime64 : Type :=
| NaT
| Time (ns : Z).

(** What the code uses of a numpy dtype: [np.isnan], [<=] and [<]. *)
Class Scalar (T : Type) : Type := {
  isnan : T -> bool;
  sle : T -> T -> bool;
  slt : T -> T -> bool
}.

#[export] Instance float64 : Scalar float :=
  {| isnan := is_nan; sle := leb; slt := ltb |}.

#[export] Instance datetime : Scalar datetime64 :=
  {| isnan := fun d => match d with NaT => true | Time _ => false end;
     sle := fun a b => match a, b with
                       | Time x, Time y => (x <=? y)%Z
                       | _, _ => false
                       end;
     slt := fun a b => match a, b with
                       | Time x, Time y => (x <? y)%Z
                       | _, _ => false
                       end |}.

(** The ufuncs behind the reductions: [minimum] and [maximum] keep a NaN,
    [fmin] and [fmax] drop it when the other operand is a number. *)
Definition np_minimum {T} `{Scalar T} (a b : T) : T :=
  if sle a b || isnan a then a else b.

Definition np_maximum {T} `{Scalar T} (a b : T) : T :=
  if sle b a || isnan a then a else b.

Definition np_fmin {T} `{Scalar T} (a b : T) : T :=
  if sle a b || isnan b then a else b.

Definition np_fmax {T} `{Scalar T} (a b : T) : T :=
  if sle b a || isnan b then a else b.

(** The message of a reduction over an empty array names its ufunc. *)
Definition zero_size_msg (ufunc : string) : string :=
  ("zero-size array to reduction operation " ++ ufunc
   ++ " which has no identity")%string.

(** [ufunc.reduce] over all elements: an empty array has no minimum. *)
Definition reduce {T} (ufunc : string) (f : T -> T -> T) (a : list T) : result T :=
  match a with
  | [] => Raise (ValueError (zero_size_msg ufunc))
  | x :: rest => Ok (fold_left f rest x)
  end.

(** [a.min()] and [a.max()] reduce with [minimum] and [maximum],
    [np.nanmin(a)] and [np.nanmax(a)] with [fmin] and [fmax]. *)
Definition ndarray_min {T} `{Scalar T} (a : list T) : result T :=
  reduce "minimum" np_minimum a.
Definition ndarray_max {T} `{Scalar T} (a : list T) : result T :=
  reduce "maximum" np_maximum a.
Definition np_nanmin {T} `{Scalar T} (a : list T) : result T :=
  reduce "fmin" np_fmin a.
Definition np_nanmax {T} `{Scalar T} (a : list T) : result T :=
  reduce "fmax" np_fmax a.

(** A 2-d array: [rows], each of [ncols] elements ([a.shape[1]]). *)
Record ndarray2 (T : Type) : Type := mk_array {
  ncols : nat;
  rows : list (list T)
}.

Arguments mk_array {T}.
Arguments ncols {T} _.
Arguments rows {T} _.

Definition rectangular {T} (a : ndarray2 T) : Prop :=
  Forall (fun r => length r = ncols a) (rows a).

(** All elements, row by row: what a reduction without axis runs over. *)
Definition ravel {T} (a : ndarray2 T) : list T := concat (rows a).

(** An integer index on an axis of [size] elements: negative indices count
    from the end, anything outside [-size, size) is an [IndexError]. *)
Definition axis_index (size : nat) (t : Z) : result nat :=
  if ((t <? - Z.of_nat size) || (Z.of_nat size <=? t))%Z then Raise IndexError
  else Ok (Z.to_nat (if (t <? 0)%Z then t + Z.of_nat size else t)).

Fixpoint take_column {T} (rs : list (list T)) (j : nat) : result (list T) :=
  match rs with
  | [] => Ok []
  | r :: rs' =>
      (x <- getitem r j ;;
       xs <- take_column rs' j ;;
       Ok (x :: xs))%result
  end.

(** [a[:, t]]. *)
Definition column {T} (a : ndarray2 T) (t : Z) : result (list T) :=
  (j <- axis_index (ncols a) t ;; take_column (rows a) j)%result.

(** [a[mask]] for a boolean array [mask] of the length of [a]. *)
Definition mask_index {T} (a : list T) (mask : list bool) : result (list T) :=
  if (length mask =? length a)%nat
  then Ok (map fst (filter snd (combine a mask)))
  else Raise IndexError.

(** What holds a sequence of numbers: [ParticlePlotFeature.__init__] stores
    [lats] and [lons] as they are given, a Python list or a numpy array. *)
Inductive container : Type :=
| PyList
| NdArray.

(** [xs[mask]] for a boolean array [mask]: boolean indexing when [xs] is a
    numpy array; a Python list takes no array as index and raises
    [TypeError]. *)
Definition bool_index {T} (c : container) (xs : list T) (mask : list bool)
    : result (list T) :=
  match c with
  | NdArray => mask_index xs mask
  | PyList => Raise TypeError
  end.

(** *** Objects with state *)

Definition stateful (S A : Type) : Type := S -> result A * S.

Definition sret {S A} (a : A) : stateful S A := fun s => (Ok a, s).

Definition sbind {S A B} (m : stateful S A) (k : A -> stateful S B) : stateful S B :=
  fun s =>
    match m s with
    | (Ok a, s') => k a s'
    | (Raise e, s') => (Raise e, s')
    end.

Definition gets {S A} (f : S -> A) : stateful S A := fun s => (Ok (f s), s).

Definition modify {S} (f : S -> S) : stateful S unit := fun s => (Ok tt, f s).

Definition lift {S A} (r : result A) : stateful S A := fun s => (r, s).

Declare Scope stateful_scope.
Delimit Scope stateful_scope with stateful.
Notation "x <- m ;; k" := (sbind m (fun x => k))
  (at level 61, m at next level, right associativity) : stateful_scope.

(** *** What is drawn: the artists an [Axes] has collected *)

Inductive artist : Type :=
| Scatter (x y : list float) (c : option string) (s : option Z)
          (edgecolor : option string)
| Line (x y : list float).

Definition Axes : Type := list artist.

Definition scatter_msg : string := "x and y must be the same size".
Definition plot_msg : string := "x and y must have same first dimension".

(** [ax.scatter(x, y, c=, s=, edgecolor=)]. *)
Definition ax_scatter (x y : list float) (c : option string) (s : option Z)
    (edgecolor : option string) : stateful Axes unit :=
  if (length x =? length y)%nat
  then modify (fun ax => ax ++ [Scatter x y c s edgecolor])
  else lift (Raise (ValueError scatter_msg)).

(** [ax.plot(x, y)]. *)
Definition ax_plot (x y : list float) : stateful Axes unit :=
  if (length x =? length y)%nat
  then modify (fun ax => ax ++ [Line x y])
  else lift (Raise (ValueError plot_msg)).

(** *** [ParticlePlotFeature.get_sd_stations] *)

Definition station_names : list string :=
  ["Coronado (North Island)";
   "Silver Strand";
   "Silver Strand Beach";
   "Carnation Ave.";
   "Imperial Beach Pier";
   "Cortez Ave.";
   "End of Seacoast Dr.";
   "3/4 mi. N. of TJ River Mouth";
   "Tijuana River Mouth";
   "Monument Rd.";
   "Board Fence";
   "Mexico"]%string.

Section Stations.
Variable KDTree : Type.
Variable kd_build : list (float * float) -> option KDTree.

(** [scipy.io.loadmat(path)] followed by [["ywq"].flatten()] and
    [["xwq"].flatten()]: the latitudes and the longitudes of the file, or
    an exception; [utils.MATLAB_DIR / "wq_stposition.mat"] is the default
    path.  Both come from outside [parcels_analysis.py]. *)
Variable loadmat : string -> result (list float * list float).
Variable default_path : string.

Definition get_sd_stations (path : option string)
    : result (ParticlePlotFeature KDTree) :=
  let path := match path with
              | None => default_path
              | Some p => p
              end in
  (station_mat <- loadmat path ;;
   let station_lats := fst station_mat in
   let station_lons := snd station_mat in
   init kd_build station_lats station_lons (Some station_names) false 500)%result.

End Stations.

Arguments get_sd_stations {KDTree}.

(** *** The class [ParticleResult] *)

Module Result.

Definition time_msg : string := "Time out of bounds".
Definition lat_msg : string := "Latitude out of bounds".
Definition lon_msg : string := "Longitude out of bounds".

(** One test of [add_grid]: [np.nanmin(values) < coords.min() or
    np.nanmax(values) > coords.max()], the second half evaluated only
    when the first is false. *)
Definition check_bounds {T} `{Scalar T} (msg : string) (values coords : list T)
    : result unit :=
  (lo <- np_nanmin values ;;
   glo <- ndarray_min coords ;;
   if slt lo glo then Raise (ValueError msg)
   else
     hi <- np_nanmax values ;;
     ghi <- ndarray_max coords ;;
     if slt ghi hi then Raise (ValueError msg) else Ok tt)%result.

Section WithParameters.
Variable haversine : float -> float -> float -> float -> float.
Variable KDTree : Type.

(** [HFRGrid] and its method [get_coords], which returns the times, the
    latitudes and the longitudes of the grid, are defined in
    [parcels_utils.py]; the dataset is an [xarray.Dataset]. *)
Variable HFRGrid : Type.
Variable get_coords : HFRGrid -> list datetime64 * list float * list float.
Variable Dataset : Type.

Definition feature_lats (f : ParticlePlotFeature KDTree) : list float := lats f.
Definition feature_lons (f : ParticlePlotFeature KDTree) : list float := lons f.
Definition feature_segments (f : ParticlePlotFeature KDTree)
  : option (list (option segment)) := segments f.

Record ParticleResult : Type := mk_result {
  path : option string;
  xrds : Dataset;
  lats : ndarray2 float;
  lons : ndarray2 float;
  traj : ndarray2 float;
  times : ndarray2 datetime64;
  lifetimes : ndarray2 float;
  spawntimes : ndarray2 float;
  grid : option HFRGrid;
  plot_features : list (ParticlePlotFeature KDTree * bool)
}.

(** [self.grid = grid]. *)
Definition set_grid (g : HFRGrid) (self : ParticleResult) : ParticleResult :=
  mk_result (path self) (xrds self) (lats self) (lons self) (traj self)
    (times self) (lifetimes self) (spawntimes self) (Some g) (plot_features self).

(** [self.plot_features.append(item)]. *)
Definition append_feature (item : ParticlePlotFeature KDTree * bool)
    (self : ParticleResult) : ParticleResult :=
  mk_result (path self) (xrds self) (lats self) (lons self) (traj self)
    (times self) (lifetimes self) (spawntimes self) (grid self)
    (plot_features self ++ [item]).

(** [ParticleResult.add_grid]. *)
Definition add_grid (grid : HFRGrid) : stateful ParticleResult unit :=
  (_ <- modify (set_grid grid) ;;
   let '(gtimes, glats, glons) := get_coords grid in
   times_ <- gets times ;;
   _ <- lift (check_bounds time_msg (ravel times_) gtimes) ;;
   lats_ <- gets lats ;;
   _ <- lift (check_bounds lat_msg (ravel lats_) glats) ;;
   lons_ <- gets lons ;;
   lift (check_bounds lon_msg (ravel lons_) glons))%stateful.

(** [ParticleResult.add_plot_feature]. *)
Definition add_plot_feature (feature : ParticlePlotFeature KDTree)
    (station : bool) : stateful ParticleResult unit :=
  modify (append_feature (feature, station)).

(** [ParticleResult.plot_feature]: [self] and [feature] are read, [ax] is
    drawn on and is what the method returns.  The record of a feature holds
    the elements of [feature.lats] and [feature.lons]; [lats_given] and
    [lons_given] say what the two attributes are, as the station branch
    indexes them with boolean arrays. *)
Definition plot_feature (t : Z) (feature : ParticlePlotFeature KDTree)
    (lats_given lons_given : container)
    (station : bool) (self : ParticleResult) : stateful Axes unit :=
  (if station then
     curr_lats <- lift (column (lats self) t) ;;
     curr_lons <- lift (column (lons self) t) ;;
     let '(counts, feature) := count_near haversine curr_lats curr_lons feature in
     counts <- lift counts ;;
     x0 <- lift (bool_index lons_given (feature_lons feature)
                   (map (fun c => c =? 0) counts)) ;;
     y0 <- lift (bool_index lats_given (feature_lats feature)
                   (map (fun c => c =? 0) counts)) ;;
     _ <- ax_scatter x0 y0 (Some "b"%string) (Some 60%Z) (Some "k"%string) ;;
     x1 <- lift (bool_index lons_given (feature_lons feature)
                   (map (fun c => 0 <? c) counts)) ;;
     y1 <- lift (bool_index lats_given (feature_lats feature)
                   (map (fun c => 0 <? c) counts)) ;;
     ax_scatter x1 y1 (Some "r"%string) (Some 60%Z) (Some "k"%string)
   else
     _ <- ax_scatter (feature_lons feature) (feature_lats feature) None None None ;;
     match feature_segments feature with
     | Some _ => ax_plot (feature_lons feature) (feature_lats feature)
     | None => sret tt
     end)%stateful.

(** [ParticleResult.get_time]. *)
Definition get_time (t : Z) : stateful ParticleResult datetime64 :=
  (times_ <- gets times ;;
   curr_time <- lift (column times_ t) ;;
   non_nat <- lift (mask_index curr_time (map (fun v => negb (isnan v)) curr_time)) ;;
   if (length non_nat =? 0)%nat then sret NaT
   else lift (getitem non_nat 0))%stateful.

End WithParameters.

Arguments path {KDTree HFRGrid Dataset} _.
Arguments xrds {KDTree HFRGrid Dataset} _.
Arguments lats {KDTree HFRGrid Dataset} _.
Arguments lons {KDTree HFRGrid Dataset} _.
Arguments traj {KDTree HFRGrid Dataset} _.
Arguments times {KDTree HFRGrid Dataset} _.
Arguments lifetimes {KDTree HFRGrid Dataset} _.
Arguments spawntimes {KDTree HFRGrid Dataset} _.
Arguments grid {KDTree HFRGrid Dataset} _.
Arguments plot_features {KDTree HFRGrid Dataset} _.
Arguments mk_result {KDTree HFRGrid Dataset}.
Arguments add_grid {KDTree HFRGrid} get_coords {Dataset}.
Arguments add_plot_feature {KDTree HFRGrid Dataset}.
Arguments plot_feature haversine {KDTree HFRGrid Dataset}.
Arguments get_time {KDTree HFRGrid Dataset}.

End Result.

(** *** [parcels_kernels.py] *)

Module Kernels.

(** What the scheduler does with a particle next; [particle.delete()]
    asks for its removal. *)
Inductive status : Type :=
| Evaluate
| Delete.

(** A [ThreddsParticle]: the position, time and step of a [JITParticle]
    and the three variables the class adds. *)
Record ThreddsParticle : Type := mk_particle {
  lon : float;
  lat : float;
  depth : float;
  time : float;
  dt : float;
  lifetime : float;
  spawntime : float;
  oob : Z;
  state : status
}.

Definition set_oob (v : Z) (p : ThreddsParticle) : ThreddsParticle :=
  mk_particle (lon p) (lat p) (depth p) (time p) (dt p) (lifetime p)
    (spawntime p) v (state p).

(** [particle.delete()]. *)
Definition delete (p : ThreddsParticle) : ThreddsParticle :=
  mk_particle (lon p) (lat p) (depth p) (time p) (dt p) (lifetime p)
    (spawntime p) (oob p) Delete.

(** [1e-14] as Python reads it: the nearest binary64 value. *)
Definition OOB_THRESH : float := 0x1.6849b86a12b9bp-47.

Definition LIFETIME : float := 259200.

Section WithField.

(** [fieldset.UV[time, depth, lat, lon]]: the velocity at a point, or the
    error the sampling raises. *)
Variable UV : float -> float -> float -> float -> result (float * float).

Definition TestOOB (particle : ThreddsParticle) (time : float)
    : result ThreddsParticle :=
  (uv <- UV time (depth particle) (lat particle) (lon particle) ;;
   let '(u, v) := uv in
   if (abs u <? OOB_THRESH) && (abs v <? OOB_THRESH)
   then Ok (set_oob 1 particle)
   else Ok (set_oob 0 particle))%result.

Definition DeleteOOB (particle : ThreddsParticle) (time : float)
    : result ThreddsParticle :=
  (uv <- UV time (depth particle) (lat particle) (lon particle) ;;
   let '(u, v) := uv in
   if (abs u <? OOB_THRESH) && (abs v <? OOB_THRESH)
   then Ok (delete particle)
   else Ok particle)%result.

End WithField.

Definition DeleteAfter3Days (particle : ThreddsParticle) (time : float)
    : ThreddsParticle :=
  if LIFETIME <? lifetime particle then delete particle else particle.

Definition DeleteParticle (particle : ThreddsParticle) (time : float)
    : ThreddsParticle :=
  delete particle.

End Kernels.

(** *** Orders on numpy scalars, and the samples of the examples *)

(** The comparisons of a dtype order its numbers; NaN compares with
    nothing. *)
Class ScalarOrder (T : Type) `{Scalar T} : Prop := {
  sle_refl : forall a, isnan a = false -> sle a a = true;
  sle_trans : forall a b c, sle a b = true -> sle b c = true -> sle a c = true;
  sle_total : forall a b, isnan a = false -> isnan b = false ->
                          sle a b = false -> sle b a = true;
  sle_number : forall a b, sle a b = true -> isnan a = false /\ isnan b = false;
  slt_total : forall a b, isnan a = false -> isnan b = false ->
                          slt a b = false -> sle b a = true;
  slt_sle : forall a b, sle b a = true -> slt a b = false;
  slt_number : forall a b, slt a b = true -> isnan a = false /\ isnan b = false
}.

(** Every number among [values] lies between two of the [coords]. *)
Definition covered {T} `{Scalar T} (coords values : list T) : Prop :=
  forall v, In v values -> isnan v = false ->
    (exists g, In g coords /\ sle g v = true) /\
    (exists g, In g coords /\ sle v g = true).

Module Samples.

(** A grid that is its coordinates, and a dataset that holds nothing. *)
Definition coords : Type := list datetime64 * list float * list float.

Definition hour : Z := 3600000000000.

(** Two particles at three times; the first is deleted before the last
    time, the second released after the first time. *)
Definition two_particles
  : Result.ParticleResult Reference.scan_tree coords unit :=
  Result.mk_result None tt
    (mk_array 3 [[32.5; 32.5; nan]; [nan; 32.5; 33.5]])
    (mk_array 3 [[-117.25; -116.75; nan]; [nan; -116.25; -116.25]])
    (mk_array 3 [[0; 0; 0]; [1; 1; 1]])
    (mk_array 3 [[Time 0; Time hour; NaT]; [NaT; Time hour; Time (2 * hour)]])
    (mk_array 3 [[0; 3600; nan]; [nan; 0; 3600]])
    (mk_array 3 [[0; 0; 0]; [3600; 3600; 3600]])
    None [].

(** A result of no particle at three times. *)
Definition no_particles
  : Result.ParticleResult Reference.scan_tree coords unit :=
  Result.mk_result None tt
    (mk_array 3 []) (mk_array 3 []) (mk_array 3 []) (mk_array 3 [])
    (mk_array 3 []) (mk_array 3 []) None [].

(** A grid around the particles, and one that ends south of them. *)
Definition wide_grid : coords :=
  ([Time 0; Time hour; Time (2 * hour)], [32; 33; 34], [-118; -117; -116]).

Definition south_grid : coords :=
  ([Time 0; Time hour; Time (2 * hour)], [31; 32; 33], [-118; -117; -116]).

(** A particle on the sea and the velocity fields of the examples. *)
Definition drifter : Kernels.ThreddsParticle :=
  Kernels.mk_particle (-117.25) 32.5 0 0 300 0 0 0 Kernels.Evaluate.

Definition still_water (time depth lat lon : float) : result (float * float) :=
  Ok (0, -0).

Definition current (time depth lat lon : float) : result (float * float) :=
  Ok (0.125, -0.25).

Definition station_file (path : string) : result (list float * list float) :=
  Ok (repeat 32.5 12, repeat (-117.25) 12).

Definition stations : ParticlePlotFeature Reference.scan_tree :=
  mk_feature (repeat 32.5 12) (repeat (-117.25) 12)
    (repeat (32.5, -117.25) 12) (repeat (32.5, -117.25) 12)
    (Some station_names) None 500.

End Samples.

(** ** Classes of binary64 values, on their [spec_float] image *)

Definition sf_nan (x : spec_float) : bool :=
  match x with S754_nan => true | _ => false end.

Definition sf_finite (x : spec_float) : bool :=
  match x with S754_zero _ | S754_finite _ _ _ => true | _ => false end.

Definition sf_zero (x : spec_float) : bool :=
  match x with S754_zero _ => true | _ => false end.

(** The mantissa of the binary64 value of a positive integer below
    [2^prec]: the integer shifted left to [prec] digits. *)
Definition int_mantissa (p : positive) : positive :=
  fst (shl_align p 0 (Zpos (digits2_pos p) - prec)%Z).

(** * Properties *)

(** ** The order of binary64 values *)

Module F64.

Ltac sf_cases x := let m := fresh "m" in let e := fresh "e" in
  destruct x as [[]|[]| |[] m e].

Ltac cmp_cases := 
  repeat match goal with
  | |- context [Z.compare ?a ?b] => destruct (Z.compare_spec a b)
  | |- context [Pos.compare_cont Eq ?a ?b] => fold (Pos.compare a b)
  | |- context [Pos.compare ?a ?b] => destruct (Pos.compare_spec a b)
  end.

Lemma SFcompare_refl x : sf_nan x = false -> SFcompare x x = Some Eq.
Proof.
  sf_cases x; simpl; try reflexivity; try discriminate; intros _;
    rewrite Z.compare_refl, Pos.compare_cont_refl; reflexivity.
Qed.

Lemma SFleb_trans x y z :
  SFleb x y = true -> SFleb y z = true -> SFleb x z = true.
Proof.
  unfold SFleb.
  sf_cases x; sf_cases y; sf_cases z;
    simpl; try reflexivity; try discriminate;
    cmp_cases; simpl; try reflexivity; try discriminate; lia.
Qed.

Lemma SFltb_leb x y : SFltb x y = true -> SFleb x y = true.
Proof.
  unfold SFltb, SFleb. destruct (SFcompare x y) as [[]|]; congruence.
Qed.

Lemma SFleb_total x y :
  sf_nan x = false -> sf_nan y = false -> SFltb x y = false -> SFleb y x = true.
Proof.
  unfold SFltb, SFleb.
  sf_cases x; sf_cases y; simpl; try reflexivity; try discriminate; intros _ _;
    cmp_cases; simpl; try reflexivity; try discriminate; lia.
Qed.

Lemma SFleb_not_nan x y : SFleb x y = true -> sf_nan x = false /\ sf_nan y = false.
Proof. unfold SFleb. sf_cases x; sf_cases y; simpl; auto; discriminate. Qed.

Lemma SFleb_between x a b :
  SFleb a x = true -> SFleb x b = true ->
  sf_finite a = true -> sf_finite b = true -> sf_finite x = true.
Proof.
  unfold SFleb. sf_cases x; sf_cases a; sf_cases b; simpl; auto; discriminate.
Qed.

Lemma Prim2SF_infinity : Prim2SF infinity = S754_infinity false.
Proof. reflexivity. Qed.

Lemma is_nan_spec x : is_nan x = sf_nan (Prim2SF x).
Proof.
  unfold is_nan. rewrite eqb_spec. unfold SFeqb.
  destruct (sf_nan (Prim2SF x)) eqn:E.
  - destruct (Prim2SF x); try discriminate. reflexivity.
  - rewrite SFcompare_refl by exact E. reflexivity.
Qed.

Lemma is_finite_spec x : is_finite x = sf_finite (Prim2SF x).
Proof.
  unfold is_finite, is_infinity. rewrite is_nan_spec, eqb_spec, abs_spec.
  rewrite Prim2SF_infinity. unfold SFeqb.
  sf_cases (Prim2SF x); reflexivity.
Qed.

Lemma leb_trans x y z : (x <=? y) = true -> (y <=? z) = true -> (x <=? z) = true.
Proof. rewrite !leb_spec. apply SFleb_trans. Qed.

Lemma ltb_leb x y : (x <? y) = true -> (x <=? y) = true.
Proof. rewrite ltb_spec, leb_spec. apply SFltb_leb. Qed.

Lemma leb_total x y :
  is_nan x = false -> is_nan y = false -> (x <? y) = false -> (y <=? x) = true.
Proof. rewrite !is_nan_spec, ltb_spec, leb_spec. apply SFleb_total. Qed.

Lemma leb_refl x : is_nan x = false -> (x <=? x) = true.
Proof.
  rewrite is_nan_spec, leb_spec. intros H. unfold SFleb.
  rewrite SFcompare_refl by exact H. reflexivity.
Qed.

Lemma leb_not_nan x y : (x <=? y) = true -> is_nan x = false /\ is_nan y = false.
Proof. rewrite leb_spec, !is_nan_spec. apply SFleb_not_nan. Qed.

Lemma leb_infinity x : is_nan x = false -> (x <=? infinity) = true.
Proof.
  rewrite is_nan_spec, leb_spec, Prim2SF_infinity. unfold SFleb.
  sf_cases (Prim2SF x); simpl; auto.
Qed.

Lemma not_ltb_infinity x :
  is_nan x = false -> (x <? infinity) = false -> x = infinity.
Proof.
  rewrite is_nan_spec, ltb_spec, Prim2SF_infinity. intros Hn Hl.
  apply Prim2SF_inj. rewrite Prim2SF_infinity. revert Hn Hl. unfold SFltb.
  sf_cases (Prim2SF x); simpl; auto; discriminate.
Qed.

Lemma ltb_nan_l x y : is_nan x = true -> (x <? y) = false.
Proof.
  rewrite is_nan_spec, ltb_spec. unfold SFltb.
  destruct (Prim2SF x); try discriminate. reflexivity.
Qed.

Lemma leb_nan_l x y : is_nan x = true -> (x <=? y) = false.
Proof.
  rewrite is_nan_spec, leb_spec. unfold SFleb.
  destruct (Prim2SF x); try discriminate. reflexivity.
Qed.

Lemma leb_between x a b :
  (a <=? x) = true -> (x <=? b) = true ->
  is_finite a = true -> is_finite b = true -> is_finite x = true.
Proof. rewrite !leb_spec, !is_finite_spec. apply SFleb_between. Qed.

Lemma finite_not_nan x : is_finite x = true -> is_nan x = false.
Proof. rewrite is_finite_spec, is_nan_spec. sf_cases (Prim2SF x); auto. Qed.

Lemma SFleb_false_ge x y :
  sf_nan x = false -> sf_nan y = false -> SFleb x y = false -> SFleb y x = true.
Proof.
  unfold SFleb.
  sf_cases x; sf_cases y; simpl; try reflexivity; try discriminate; intros _ _;
    cmp_cases; simpl; try reflexivity; try discriminate; lia.
Qed.

Lemma leb_false_ge x y :
  is_nan x = false -> is_nan y = false -> (x <=? y) = false -> (y <=? x) = true.
Proof. rewrite !is_nan_spec, !leb_spec. apply SFleb_false_ge. Qed.

Lemma eqb_not_nan x y : (x =? y) = true -> is_nan x = false.
Proof.
  rewrite eqb_spec, is_nan_spec. unfold SFeqb.
  destruct (Prim2SF x); try reflexivity. discriminate.
Qed.

Lemma is_nan_finite x : is_nan x = true -> is_finite x = false.
Proof. unfold is_finite. intros ->. reflexivity. Qed.

Lemma infinity_leb x : (infinity <=? x) = true -> x = infinity.
Proof.
  rewrite leb_spec, Prim2SF_infinity. intros H.
  apply Prim2SF_inj. rewrite Prim2SF_infinity. revert H. unfold SFleb.
  sf_cases (Prim2SF x); simpl; auto; discriminate.
Qed.

End F64.


(** ** Rounding to binary64 *)

Module Rounding.
Local Open Scope Z_scope.

Lemma iter_pos_comm {A} (f : A -> A) n x : iter_pos f n (f x) = f (iter_pos f n x).
Proof.
  revert x. induction n as [n IH|n IH|]; intros x; simpl.
  - rewrite !IH. reflexivity.
  - rewrite !IH. reflexivity.
  - reflexivity.
Qed.

Lemma iter_pos_iter {A} (f : A -> A) n x : iter_pos f n x = Pos.iter f x n.
Proof.
  revert x. induction n as [n IH|n IH|]; intros x; simpl.
  - rewrite !IH, !Pos.iter_swap. reflexivity.
  - rewrite !IH. reflexivity.
  - reflexivity.
Qed.

Lemma iter_xO_Z m d : Zpos (Pos.iter xO m d) = Zpos m * 2 ^ Zpos d.
Proof.
  rewrite (Pos.iter_swap_gen _ _ Zpos xO (Z.mul 2)) by reflexivity.
  change (Pos.iter (Z.mul 2) (Zpos m) d) with (Z.shiftl (Zpos m) (Zpos d)).
  apply Z.shiftl_mul_pow2. lia.
Qed.

Lemma digits_iter_xO m d :
  digits2_pos (Pos.iter xO m d) = (digits2_pos m + d)%positive.
Proof.
  rewrite (Pos.iter_swap_gen _ _ digits2_pos xO Pos.succ) by reflexivity.
  induction d using Pos.peano_ind.
  - simpl. lia.
  - rewrite Pos.iter_succ, IHd. lia.
Qed.

Lemma digits2_pos_bounds m :
  2 ^ (Zpos (digits2_pos m) - 1) <= Zpos m < 2 ^ Zpos (digits2_pos m).
Proof.
  induction m as [m IH|m IH|]; simpl digits2_pos.
  - rewrite Pos2Z.inj_succ, Z.pow_succ_r by lia.
    replace (Z.succ (Zpos (digits2_pos m)) - 1) with (Z.succ (Zpos (digits2_pos m) - 1)) by lia.
    rewrite Z.pow_succ_r by lia. lia.
  - rewrite Pos2Z.inj_succ, Z.pow_succ_r by lia.
    replace (Z.succ (Zpos (digits2_pos m)) - 1) with (Z.succ (Zpos (digits2_pos m) - 1)) by lia.
    rewrite Z.pow_succ_r by lia. lia.
  - simpl. lia.
Qed.

Lemma shr_1_m mrs : 0 <= shr_m mrs -> shr_m (shr_1 mrs) = shr_m mrs / 2.
Proof.
  destruct mrs as [m r s]. cbv [shr_m shr_1]. intros Hm.
  destruct m as [|[p|p|]|p]; try lia; try reflexivity.
  - apply Z.div_unique with (r := 1); lia.
  - apply Z.div_unique with (r := 0); lia.
Qed.

Lemma shr_iter_m p mrs :
  0 <= shr_m mrs -> shr_m (iter_pos shr_1 p mrs) = shr_m mrs / 2 ^ Zpos p.
Proof.
  rewrite iter_pos_iter. revert mrs.
  induction p using Pos.peano_ind; intros mrs Hm.
  - simpl. rewrite shr_1_m by exact Hm. reflexivity.
  - rewrite Pos.iter_succ, shr_1_m.
    + rewrite IHp by exact Hm. rewrite Pos2Z.inj_succ, Z.pow_succ_r by lia.
      rewrite Z.div_div by lia. f_equal. lia.
    + rewrite IHp by exact Hm. apply Z.div_pos; lia.
Qed.

Lemma shr_record_of_loc_m m l : shr_m (shr_record_of_loc m l) = m.
Proof. destruct l as [|[]]; reflexivity. Qed.

(** Shifting right down to the format's precision keeps a positive
    mantissa positive, and the exponent above [emin]. *)
Lemma shr_fexp_pos m e l :
  0 < m -> emin <= e ->
  0 < shr_m (fst (shr_fexp prec emax m e l)) /\ emin <= snd (shr_fexp prec emax m e l).
Proof.
  intros Hm He. unfold shr_fexp, shr.
  destruct m as [|p|p]; try lia. simpl Zdigits2.
  pose proof (digits2_pos_bounds p) as Hd.
  set (d := Zpos (digits2_pos p)) in *.
  destruct (fexp prec emax (d + e) - e) as [|n|n] eqn:En; simpl fst; simpl snd;
    rewrite ?shr_record_of_loc_m; try (split; lia).
  unfold fexp in En. change (SpecFloat.emin prec emax) with (-1074) in *.
  change prec with 53 in *.
  assert (Hn : Zpos n = d - 53) by lia.
  rewrite shr_iter_m by (rewrite shr_record_of_loc_m; lia).
  rewrite shr_record_of_loc_m. split; [|lia].
  apply Z.div_str_pos. split; [lia|].
  apply Z.le_trans with (2 ^ (d - 1)); [|lia].
  apply Z.pow_le_mono_r; lia.
Qed.

Lemma round_nearest_even_pos m l : 0 < m -> 0 < round_nearest_even m l.
Proof.
  intros Hm. destruct l as [|[]]; simpl; try lia. destruct (Z.even m); lia.
Qed.

Lemma binary_round_aux_nonzero s m e l :
  0 < m -> emin <= e -> sf_zero (binary_round_aux prec emax s m e l) = false.
Proof.
  intros Hm He. unfold binary_round_aux.
  pose proof (shr_fexp_pos m e l Hm He) as [H1 H2].
  destruct (shr_fexp prec emax m e l) as [mrs' e']. simpl in H1, H2.
  pose proof (shr_fexp_pos _ e' loc_Exact
                (round_nearest_even_pos _ (loc_of_shr_record mrs') H1) H2) as [H3 _].
  destruct (shr_fexp prec emax _ e' loc_Exact) as [mrs'' e'']. simpl in H3.
  destruct (shr_m mrs''); try lia.
  destruct (e'' <=? emax - prec); reflexivity.
Qed.

Lemma binary_round_nonzero s m e :
  emin <= e -> sf_zero (binary_round prec emax s m e) = false.
Proof.
  intros He. unfold binary_round, shl_align.
  set (e' := fexp prec emax (Zpos (digits2_pos m) + e)).
  assert (He' : emin <= e') by (unfold e', fexp; lia).
  destruct (e' - e); apply binary_round_aux_nonzero; lia.
Qed.

Lemma binary_normalize_zero m e sz :
  emin <= e -> sf_zero (binary_normalize prec emax m e sz) = (m =? 0).
Proof.
  intros He. destruct m; simpl; auto using binary_round_nonzero.
Qed.

Lemma bounded_canonical m e :
  bounded prec emax m e = true ->
  e = fexp prec emax (Zpos (digits2_pos m) + e) /\ emin <= e.
Proof.
  unfold bounded, canonical_mantissa. intros H.
  apply andb_true_iff in H as [H _]. apply Z.eqb_eq in H.
  split; [lia|]. rewrite <- H. unfold fexp. lia.
Qed.

Lemma shl_align_same m e : shl_align m e e = (m, e).
Proof. unfold shl_align. rewrite Z.sub_diag. reflexivity. Qed.

Lemma shl_align_lt m e e' :
  e' < e -> exists d, Zpos d = e - e' /\ shl_align m e e' = (Pos.iter xO m d, e').
Proof.
  intros H. unfold shl_align. destruct (e' - e) as [|d|d] eqn:E; try lia.
  exists d. split; [lia|reflexivity].
Qed.

Lemma SFeqb_zero r : SFeqb r (S754_zero false) = sf_zero r.
Proof. destruct r as [[]|[]| |[] m e]; reflexivity. Qed.

Lemma SFeqb_finite sx mx ex sy my ey :
  SFeqb (S754_finite sx mx ex) (S754_finite sy my ey) = true <->
  sx = sy /\ mx = my /\ ex = ey.
Proof.
  unfold SFeqb, SFcompare. fold (Pos.compare mx my).
  destruct sx, sy; destruct (Z.compare_spec ex ey); destruct (Pos.compare_spec mx my);
    simpl; split; try discriminate; try (intros (? & ? & ?)); try (intros _);
    repeat split; try congruence; try lia.
Qed.

(** The difference of two finite binary64 numbers is a zero exactly when
    they are equal (no underflow to zero in subtraction). *)
Lemma SFsub_zero_iff x y :
  valid_binary x = true -> valid_binary y = true ->
  sf_finite x = true -> sf_finite y = true ->
  sf_zero (SFsub prec emax x y) = SFeqb x y.
Proof.
  intros Vx Vy Fx Fy.
  destruct x as [sx|sx| |sx mx ex]; try discriminate;
    destruct y as [sy|sy| |sy my ey]; try discriminate.
  - destruct sx, sy; reflexivity.
  - destruct sx, sy; reflexivity.
  - destruct sx, sy; reflexivity.
  - simpl in Vx, Vy.
    apply bounded_canonical in Vx as [Cx Ex], Vy as [Cy Ey].
    unfold SFsub. rewrite binary_normalize_zero by lia.
    destruct (SFeqb (S754_finite sx mx ex) (S754_finite sy my ey)) eqn:Eq.
    + apply SFeqb_finite in Eq as (-> & -> & ->).
      rewrite Z.min_id, shl_align_same. simpl fst. apply Z.eqb_eq. lia.
    + apply Z.eqb_neq. intros HD.
      assert (Hne : ~ (sx = sy /\ mx = my /\ ex = ey)).
      { intros H. apply SFeqb_finite in H. congruence. }
      apply Hne; clear Hne Eq.
      destruct (Z.lt_trichotomy ex ey) as [Hlt|[Heq|Hgt]].
      * exfalso. rewrite Z.min_l in HD by lia.
        rewrite shl_align_same in HD.
        destruct (shl_align_lt my ey ex Hlt) as (d & Hd & Hs).
        rewrite Hs in HD. simpl fst in HD.
        assert (mx = Pos.iter xO my d) by (destruct sx, sy; cbv [cond_Zopp] in HD; lia).
        subst mx. rewrite digits_iter_xO in Cx.
        replace (Zpos (digits2_pos my + d) + ex) with (Zpos (digits2_pos my) + ey) in Cx by lia.
        lia.
      * subst ey. rewrite Z.min_id, !shl_align_same in HD. simpl fst in HD.
        destruct sx, sy; cbv [cond_Zopp] in HD; repeat split; try lia; try congruence.
      * exfalso. rewrite Z.min_r in HD by lia.
        rewrite shl_align_same in HD.
        destruct (shl_align_lt mx ex ey) as (d & Hd & Hs); [lia|].
        rewrite Hs in HD. simpl fst in HD.
        assert (my = Pos.iter xO mx d) by (destruct sx, sy; cbv [cond_Zopp] in HD; lia).
        subst my. rewrite digits_iter_xO in Cy.
        replace (Zpos (digits2_pos mx + d) + ey) with (Zpos (digits2_pos mx) + ex) in Cy by lia.
        lia.
Qed.

Lemma shr_1_double z : 0 < z ->
  shr_1 (Build_shr_record (2 * z) false false) = Build_shr_record z false false.
Proof. destruct z; try lia. reflexivity. Qed.

Lemma shr_iter_exact n z : 0 < z ->
  iter_pos shr_1 n (Build_shr_record (z * 2 ^ Zpos n) false false)
  = Build_shr_record z false false.
Proof.
  rewrite iter_pos_iter. revert z.
  induction n using Pos.peano_ind; intros z Hz.
  - replace (z * 2 ^ 1) with (2 * z) by lia.
    change (Pos.iter shr_1 ?x 1) with (shr_1 x). apply shr_1_double, Hz.
  - rewrite Pos.iter_succ_r, Pos2Z.inj_succ, Z.pow_succ_r by lia.
    replace (z * (2 * 2 ^ Zpos n)) with (2 * (z * 2 ^ Zpos n)) by lia.
    rewrite shr_1_double by lia. apply IHn, Hz.
Qed.

(** A mantissa of exactly [prec] digits followed by [k] zero bits rounds
    to itself. *)
Lemma binary_round_aux_exact s z k e :
  Zpos (digits2_pos z) = prec -> 0 <= k -> emin <= e + k <= emax - prec ->
  binary_round_aux prec emax s (Zpos z * 2 ^ k) e loc_Exact = S754_finite s z (e + k).
Proof.
  intros Hd Hk He.
  assert (Hsecond : forall e', emin <= e' ->
            shr_fexp prec emax (Zpos z) e' loc_Exact
            = (Build_shr_record (Zpos z) false false, e')).
  { intros e' He'. unfold shr_fexp. simpl Zdigits2. rewrite Hd.
    replace (fexp prec emax (prec + e') - e') with 0 by (unfold fexp; lia).
    reflexivity. }
  unfold binary_round_aux.
  assert (Hfirst : shr_fexp prec emax (Zpos z * 2 ^ k) e loc_Exact
                   = (Build_shr_record (Zpos z) false false, e + k)).
  { destruct k as [|k|k]; try lia.
    - rewrite Z.mul_1_r, Z.add_0_r. apply Hsecond. lia.
    - unfold shr_fexp. rewrite <- iter_xO_Z. simpl Zdigits2.
      rewrite digits_iter_xO, Pos2Z.inj_add, Hd.
      replace (fexp prec emax (prec + Zpos k + e) - e) with (Zpos k)
        by (unfold fexp; lia).
      unfold shr. simpl shr_record_of_loc. rewrite iter_xO_Z.
      rewrite shr_iter_exact by lia. reflexivity. }
  rewrite Hfirst. simpl shr_m. simpl loc_of_shr_record.
  simpl round_nearest_even. rewrite Hsecond by lia. simpl shr_m.
  replace (e + k <=? emax - prec) with true by (symmetry; apply Z.leb_le; lia).
  reflexivity.
Qed.

Lemma shl_align_value m e e' :
  e' <= e -> Zpos (fst (shl_align m e e')) = Zpos m * 2 ^ (e - e').
Proof.
  intros H. destruct (Z.eq_dec e e') as [->|Hne].
  - rewrite shl_align_same, Z.sub_diag. simpl. lia.
  - destruct (shl_align_lt m e e') as (d & Hd & ->); [lia|].
    simpl fst. rewrite iter_xO_Z, Hd. reflexivity.
Qed.

Lemma int_mantissa_value p :
  Zpos (digits2_pos p) <= prec ->
  Zpos (int_mantissa p) = Zpos p * 2 ^ (prec - Zpos (digits2_pos p)).
Proof.
  intros H. unfold int_mantissa. rewrite shl_align_value by lia.
  f_equal. f_equal. lia.
Qed.

Lemma int_mantissa_digits p :
  Zpos (digits2_pos p) <= prec -> Zpos (digits2_pos (int_mantissa p)) = prec.
Proof.
  intros H. unfold int_mantissa.
  destruct (Z.eq_dec (Zpos (digits2_pos p)) prec) as [E|E].
  - rewrite E, Z.sub_diag, shl_align_same. exact E.
  - destruct (shl_align_lt p 0 (Zpos (digits2_pos p) - prec)) as (d & Hd & ->); [lia|].
    simpl fst. rewrite digits_iter_xO. lia.
Qed.

Lemma binary_round_int p :
  Zpos (digits2_pos p) <= prec ->
  binary_round prec emax false p 0
  = S754_finite false (int_mantissa p) (Zpos (digits2_pos p) - prec).
Proof.
  intros H. unfold binary_round.
  pose proof (Pos2Z.is_pos (digits2_pos p)) as Hpos.
  replace (fexp prec emax (Zpos (digits2_pos p) + 0))
    with (Zpos (digits2_pos p) - prec)
    by (unfold fexp; change (SpecFloat.emin prec emax) with (-1074);
        change prec with 53 in *; lia).
  assert (Hs : shl_align p 0 (Zpos (digits2_pos p) - prec)
               = (int_mantissa p, Zpos (digits2_pos p) - prec)).
  { unfold int_mantissa.
    destruct (Z.eq_dec (Zpos (digits2_pos p)) prec) as [E|E].
    - rewrite E, Z.sub_diag, shl_align_same. reflexivity.
    - destruct (shl_align_lt p 0 (Zpos (digits2_pos p) - prec)) as (d & Hd & ->); [lia|].
      reflexivity. }
  rewrite Hs.
  pose proof (binary_round_aux_exact false (int_mantissa p) 0
                (Zpos (digits2_pos p) - prec)) as Hx.
  rewrite Z.mul_1_r, Z.add_0_r in Hx. apply Hx.
  - apply int_mantissa_digits, H.
  - lia.
  - change (SpecFloat.emin prec emax) with (-1074). change prec with 53 in *.
    change emax with 1024. lia.
Qed.

Lemma digits2_pos_le p n : Zpos p < 2 ^ n -> 0 <= n -> Zpos (digits2_pos p) <= n.
Proof.
  intros Hp Hn. pose proof (digits2_pos_bounds p) as [Hlo _].
  destruct (Z.le_gt_cases (Zpos (digits2_pos p)) n) as [|Hgt]; [assumption|].
  assert (2 ^ n <= 2 ^ (Zpos (digits2_pos p) - 1)) by (apply Z.pow_le_mono_r; lia).
  lia.
Qed.

Ltac fl :=
  unfold fexp; change (SpecFloat.emin prec emax) with (-1074) in *;
  change prec with 53 in *; change emax with 1024 in *; lia.

(** Adding one to an integer below [2^prec - 1] is exact. *)
Lemma SFadd_int_one k :
  0 <= k -> k + 1 < 2 ^ prec ->
  SFadd prec emax (binary_normalize prec emax k 0 false)
                  (binary_normalize prec emax 1 0 false)
  = binary_normalize prec emax (k + 1) 0 false.
Proof.
  intros Hk Hlt. destruct k as [|p|p]; try lia.
  - reflexivity.
  - assert (Hq : Z.pos p + 1 = Zpos (p + 1)) by lia. rewrite Hq in *.
    assert (Hdp : Zpos (digits2_pos p) <= prec) by (apply digits2_pos_le; fl).
    assert (Hdq : Zpos (digits2_pos (p + 1)) <= prec) by (apply digits2_pos_le; fl).
    pose proof (Pos2Z.is_pos (digits2_pos p)) as Hp0.
    pose proof (Pos2Z.is_pos (digits2_pos (p + 1))) as Hq0.
    change (binary_normalize prec emax 1 0 false)
      with (S754_finite false 4503599627370496 (-52)).
    unfold binary_normalize. rewrite !binary_round_int by assumption.
    unfold SFadd.
    rewrite Z.min_r by fl. rewrite shl_align_same. cbn [fst].
    unfold cond_Zopp. rewrite shl_align_value by fl.
    rewrite int_mantissa_value by assumption.
    remember (Zpos (digits2_pos p)) as dp.
    remember (Zpos (digits2_pos (p + 1))) as dq.
    assert (Hsum : Zpos p * 2 ^ (prec - dp) * 2 ^ (dp - prec - -52) + 4503599627370496
                   = Zpos (Pos.iter xO (p + 1)%positive 52)).
    { rewrite iter_xO_Z, <- Z.mul_assoc, <- Z.pow_add_r by fl.
      replace (prec - dp + (dp - prec - -52)) with 52 by lia.
      change (2 ^ 52) with 4503599627370496. lia. }
    rewrite Hsum. unfold binary_normalize, binary_round.
    rewrite digits_iter_xO.
    replace (fexp prec emax (Zpos (digits2_pos (p + 1) + 52) + -52)) with (dq - prec)
      by fl.
    assert (Hal : shl_align (Pos.iter xO (p + 1)%positive 52) (-52) (dq - prec)
                  = (Pos.iter xO (p + 1)%positive 52, -52)).
    { unfold shl_align. destruct (dq - prec - -52) eqn:E; try reflexivity. fl. }
    rewrite Hal.
    pose proof (binary_round_aux_exact false (int_mantissa (p + 1)) (dq - 1) (-52)) as Hx.
    rewrite int_mantissa_value in Hx by (rewrite <- Heqdq; assumption).
    rewrite <- Heqdq in Hx.
    replace (Zpos (p + 1) * 2 ^ (prec - dq) * 2 ^ (dq - 1))
      with (Zpos (Pos.iter xO (p + 1)%positive 52)) in Hx.
    2:{ rewrite iter_xO_Z, <- Z.mul_assoc, <- Z.pow_add_r by fl.
        f_equal. f_equal. fl. }
    rewrite Hx.
    + f_equal. fl.
    + apply (int_mantissa_digits (p + 1)). rewrite <- Heqdq. assumption.
    + lia.
    + fl.
Qed.
Lemma digits2_pos_mono p q :
  Zpos p <= Zpos q -> Zpos (digits2_pos p) <= Zpos (digits2_pos q).
Proof.
  intros H. apply digits2_pos_le; [|lia].
  pose proof (digits2_pos_bounds q). lia.
Qed.

(** Integers below [2^prec] keep their order. *)
Lemma SFleb_int a b :
  0 <= a <= b -> b < 2 ^ prec ->
  SFleb (binary_normalize prec emax a 0 false)
        (binary_normalize prec emax b 0 false) = true.
Proof.
  intros [Ha Hab] Hb.
  destruct a as [|p|p]; try lia; destruct b as [|q|q]; try lia; try reflexivity.
  - unfold binary_normalize.
    rewrite binary_round_int by (apply digits2_pos_le; fl). reflexivity.
  - assert (Hdq : Zpos (digits2_pos q) <= prec) by (apply digits2_pos_le; fl).
    pose proof (digits2_pos_mono p q Hab) as Hd.
    assert (Hdp : Zpos (digits2_pos p) <= prec) by lia.
    unfold binary_normalize. rewrite !binary_round_int by assumption.
    unfold SFleb, SFcompare.
    destruct (Z.compare_spec (Zpos (digits2_pos p) - prec) (Zpos (digits2_pos q) - prec))
      as [E|E|E]; try reflexivity; try lia.
    fold (Pos.compare (int_mantissa p) (int_mantissa q)).
    destruct (Pos.compare_spec (int_mantissa p) (int_mantissa q)) as [F|F|F];
      try reflexivity.
    exfalso. apply Pos2Z.pos_lt_pos in F.
    rewrite !int_mantissa_value in F by assumption.
    replace (Zpos (digits2_pos p)) with (Zpos (digits2_pos q)) in F by lia.
    apply Z.mul_lt_mono_pos_r in F; [lia|].
    apply Z.pow_pos_nonneg; lia.
Qed.
End Rounding.

(** ** Subtraction and counting in binary64 *)

Lemma sub_eqb_zero x y :
  is_finite x = true -> is_finite y = true -> (x - y =? 0) = (x =? y).
Proof.
  intros Fx Fy. rewrite !eqb_spec, sub_spec.
  change (Prim2SF 0) with (S754_zero false). rewrite Rounding.SFeqb_zero.
  rewrite F64.is_finite_spec in Fx, Fy.
  apply Rounding.SFsub_zero_iff; auto using Prim2SF_valid.
Qed.

Lemma float_of_nat_succ n :
  (Z.of_nat n + 1 < 2 ^ 53)%Z -> float_of_nat n + 1 = float_of_nat (S n).
Proof.
  intros Hlt. apply Prim2SF_inj. unfold float_of_nat.
  rewrite add_spec, !of_uint63_spec, !Uint63.of_Z_spec.
  assert (Hwb : (2 ^ 53 < wB)%Z) by reflexivity.
  rewrite !Z.mod_small by lia.
  change (Prim2SF 1) with (binary_normalize prec emax 1 0 false).
  rewrite Nat2Z.inj_succ. apply Rounding.SFadd_int_one; [lia | exact Hlt].
Qed.

Lemma float_of_nat_le a b :
  (a <= b)%nat -> (Z.of_nat b < 2 ^ 53)%Z ->
  (float_of_nat a <=? float_of_nat b) = true.
Proof.
  intros Hab Hb. unfold float_of_nat.
  rewrite leb_spec, !of_uint63_spec, !Uint63.of_Z_spec.
  assert (Hwb : (2 ^ 53 < wB)%Z) by reflexivity.
  rewrite !Z.mod_small by lia.
  apply Rounding.SFleb_int; [lia | exact Hb].
Qed.

(** ** Segments: [line_seg], [valid_point], [intersection_info] *)

Lemma line_seg_dom a b c d :
  is_finite a = true -> is_finite c = true ->
  minimum_of a c (fst (dom (line_seg a b c d))) /\
  maximum_of a c (snd (dom (line_seg a b c d))).
Proof.
  intros Fa Fc. apply F64.finite_not_nan in Fa, Fc.
  unfold minimum_of, maximum_of, line_seg. cbn [dom].
  destruct (a <=? c) eqn:E; cbn [fst snd].
  - repeat split; auto using F64.leb_refl.
  - pose proof (F64.leb_false_ge a c Fa Fc E).
    repeat split; auto using F64.leb_refl.
Qed.

Lemma line_seg_rng a b c d :
  is_finite b = true -> is_finite d = true ->
  minimum_of b d (fst (rng (line_seg a b c d))) /\
  maximum_of b d (snd (rng (line_seg a b c d))).
Proof.
  intros Fb Fd. apply F64.finite_not_nan in Fb, Fd.
  unfold minimum_of, maximum_of, line_seg. cbn [rng].
  destruct (b <=? d) eqn:E; cbn [fst snd].
  - repeat split; auto using F64.leb_refl.
  - pose proof (F64.leb_false_ge b d Fb Fd E).
    repeat split; auto using F64.leb_refl.
Qed.

(** The slope test of [line_seg] is a test of the longitudes. *)
Lemma line_seg_slope a b c d :
  is_finite a = true -> is_finite c = true ->
  slope (line_seg a b c d) = if a =? c then nan else (b - d) / (a - c).
Proof.
  intros Fa Fc. unfold line_seg. cbn [slope].
  rewrite sub_eqb_zero by assumption. destruct (a =? c); reflexivity.
Qed.

Lemma line_seg_endpoints_finite a b c d :
  is_finite a = true -> is_finite b = true ->
  is_finite c = true -> is_finite d = true ->
  let s := line_seg a b c d in
  is_finite (fst (dom s)) = true /\ is_finite (snd (dom s)) = true /\
  is_finite (fst (rng s)) = true /\ is_finite (snd (rng s)) = true.
Proof.
  intros Fa Fb Fc Fd. unfold line_seg. cbn [dom rng].
  destruct (a <=? c), (b <=? d); cbn [fst snd]; auto.
Qed.

(** A point that passes the bounding-box test of a segment between finite
    endpoints is finite. *)
Lemma valid_point_finite x y a b c d :
  is_finite a = true -> is_finite b = true ->
  is_finite c = true -> is_finite d = true ->
  valid_point x y (line_seg a b c d) = true ->
  is_finite x = true /\ is_finite y = true.
Proof.
  intros Fa Fb Fc Fd.
  destruct (line_seg_endpoints_finite a b c d Fa Fb Fc Fd) as (D0 & D1 & R0 & R1).
  unfold valid_point. rewrite !andb_true_iff. intros [[H1 H2] [H3 H4]].
  split; eapply F64.leb_between; eassumption.
Qed.

Lemma intersection_info_vertical x y s :
  is_nan (slope s) = true -> intersection_info x y s = (x1 s, y).
Proof. unfold intersection_info. intros ->. reflexivity. Qed.

Lemma intersection_info_horizontal x y s :
  (slope s =? 0) = true -> intersection_info x y s = (x, y1 s).
Proof.
  intros H. unfold intersection_info.
  rewrite (F64.eqb_not_nan _ _ H), H. reflexivity.
Qed.

Lemma intersection_info_general x y s :
  is_nan (slope s) = false -> (slope s =? 0) = false ->
  intersection_info x y s = two_line_intersection x y s.
Proof. unfold intersection_info. intros -> ->. reflexivity. Qed.

(** ** Indexing *)

Lemma getitem_nth {A} (xs : list A) i d :
  (i < length xs)%nat -> getitem xs i = Ok (nth i xs d).
Proof.
  intros H. unfold getitem.
  rewrite (nth_error_nth' xs d H). reflexivity.
Qed.

Lemma getitem_Ok {A} (xs : list A) i a :
  getitem xs i = Ok a <-> nth_error xs i = Some a.
Proof.
  unfold getitem. destruct (nth_error xs i); split; congruence.
Qed.

Lemma length_replace_at {A} (xs : list A) i v :
  length (replace_at xs i v) = length xs.
Proof.
  revert i. induction xs as [|h t IH]; intros [|j]; simpl; auto.
Qed.

Lemma nth_error_replace_at_eq {A} (xs : list A) i v :
  (i < length xs)%nat -> nth_error (replace_at xs i v) i = Some v.
Proof.
  revert i. induction xs as [|h t IH]; intros [|j] H; simpl in *; try lia; auto.
  apply IH. lia.
Qed.

Lemma nth_error_replace_at_neq {A} (xs : list A) i j v :
  i <> j -> nth_error (replace_at xs i v) j = nth_error xs j.
Proof.
  revert i j. induction xs as [|h t IH]; intros [|i] [|j] H; simpl; auto; try congruence.
Qed.

Lemma setitem_Ok {A} (xs : list A) i v :
  (i < length xs)%nat -> setitem xs i v = Ok (replace_at xs i v).
Proof.
  intros H. unfold setitem. apply Nat.ltb_lt in H. rewrite H. reflexivity.
Qed.

(** ** Construction *)

Section Construction.
Variable KDTree : Type.
Variable kd_build : list (float * float) -> option KDTree.

(** The filling loop sets entries [k .. k + m - 1] and nothing else. *)
Lemma fill_segments_spec lats lons :
  length lats = length lons ->
  forall m k segs,
    (k + m + 1 <= length lats)%nat -> (k + m <= length segs)%nat ->
    exists segs',
      fill_segments lats lons (seq k m) segs = Ok segs' /\
      length segs' = length segs /\
      (forall i, (k <= i < k + m)%nat ->
                 nth_error segs' i = Some (Some (segment_at lats lons i))) /\
      (forall i, ~ (k <= i < k + m)%nat -> nth_error segs' i = nth_error segs i).
Proof.
  intros Hlen m. induction m as [|m IH]; intros k segs Hk Hs.
  - exists segs. simpl. repeat split; auto. intros i Hi. lia.
  - simpl.
    rewrite (getitem_nth lons k 0), (getitem_nth lats k 0),
      (getitem_nth lons (k + 1) 0), (getitem_nth lats (k + 1) 0) by lia.
    simpl. rewrite setitem_Ok by lia. simpl.
    destruct (IH (S k) (replace_at segs k (Some (segment_at lats lons k))))
      as (segs' & Hrun & Hl & Hin & Hout).
    + lia.
    + rewrite length_replace_at. lia.
    + exists segs'. split; [exact Hrun|]. rewrite length_replace_at in Hl.
      split; [exact Hl|]. split.
      * intros i Hi. destruct (Nat.eq_dec i k) as [->|Hne].
        -- rewrite Hout by lia. apply nth_error_replace_at_eq. lia.
        -- apply Hin. lia.
      * intros i Hi. rewrite Hout by lia.
        apply nth_error_replace_at_neq. lia.
Qed.

(** What a successful [__init__] has stored. *)
Lemma init_Ok wlats wlons wlabels segs td self :
  init kd_build wlats wlons wlabels segs td = Ok self ->
  length wlats = length wlons /\
  lats self = wlats /\ lons self = wlons /\
  points self = combine wlats wlons /\
  kd_build (combine wlats wlons) = Some (kdtree self) /\
  labels self = wlabels /\ track_dist self = td /\
  (forall ls, wlabels = Some ls -> length ls = length wlats) /\
  (segs = false -> segments self = None) /\
  (segs = true ->
   (1 <= length wlats)%nat /\
   exists l, segments self = Some l /\ length l = (length wlats - 1)%nat /\
     forall i, (i + 1 < length wlats)%nat ->
               nth_error l i = Some (Some (segment_at wlats wlons i))).
Proof.
  unfold init, np_points.
  destruct (length wlats =? length wlons)%nat eqn:Hlen; [|discriminate].
  apply Nat.eqb_eq in Hlen. cbn [rbind].
  destruct (kd_build (combine wlats wlons)) as [tree|] eqn:Hb; [|discriminate].
  cbn [library rbind].
  assert (Hlab : forall ls, wlabels = Some ls ->
            negb (length ls =? length wlats)%nat = false -> length ls = length wlats).
  { intros ls _ H. apply negb_false_iff, Nat.eqb_eq in H. exact H. }
  destruct wlabels as [ls|].
  - destruct (negb (length ls =? length wlats)%nat) eqn:Hl; [discriminate|].
    cbn [rbind]. specialize (Hlab ls eq_refl Hl).
    destruct segs.
    + unfold np_empty.
      destruct (Z.of_nat (length wlats) - 1 <? 0)%Z eqn:Hn; [discriminate|].
      apply Z.ltb_ge in Hn. cbn [rbind]. unfold py_range.
      rewrite length_combine, <- Hlen, Nat.min_id.
      replace (Z.to_nat (Z.of_nat (length wlats) - 1)) with (length wlats - 1)%nat by lia.
      destruct (fill_segments_spec wlats wlons Hlen (length wlats - 1) 0
                  (repeat None (length wlats - 1)))
        as (l & Hrun & Hl' & Hin & _); [lia|rewrite repeat_length; lia|].
      rewrite Hrun. cbn [rbind]. intros [= <-]. cbn.
      repeat split; auto; try discriminate; try lia.
      * intros ls' [= <-]. exact Hlab.
      * exists l. rewrite repeat_length in Hl'. repeat split; auto.
        intros i Hi. apply Hin. lia.
    + cbn [rbind]. intros [= <-]. cbn.
      repeat split; auto; try discriminate.
      intros ls' [= <-]. exact Hlab.
  - cbn [rbind]. destruct segs.
    + unfold np_empty.
      destruct (Z.of_nat (length wlats) - 1 <? 0)%Z eqn:Hn; [discriminate|].
      apply Z.ltb_ge in Hn. cbn [rbind]. unfold py_range.
      rewrite length_combine, <- Hlen, Nat.min_id.
      replace (Z.to_nat (Z.of_nat (length wlats) - 1)) with (length wlats - 1)%nat by lia.
      destruct (fill_segments_spec wlats wlons Hlen (length wlats - 1) 0
                  (repeat None (length wlats - 1)))
        as (l & Hrun & Hl' & Hin & _); [lia|rewrite repeat_length; lia|].
      rewrite Hrun. cbn [rbind]. intros [= <-]. cbn.
      repeat split; auto; try discriminate; try lia.
      exists l. rewrite repeat_length in Hl'. repeat split; auto.
      intros i Hi. apply Hin. lia.
    + cbn [rbind]. intros [= <-]. cbn.
      repeat split; auto; discriminate.
Qed.

End Construction.

(** ** Claims about segments and construction *)


(** C6.  For finite endpoints [line_seg] stores as domain a minimum and a
    maximum of the two longitudes, as range a minimum and a maximum of the
    two latitudes, and as slope [(y1 - y2) / (x1 - x2)] when the longitudes
    differ and NaN, the sentinel of a vertical segment, when they are equal.
    A track built with segments has exactly [N - 1] of them, the [i]-th
    from waypoint [i] to waypoint [i + 1]; a track built without has none. *)
Theorem segments_built :
  (forall a b c d : float,
      is_finite a = true -> is_finite b = true ->
      is_finite c = true -> is_finite d = true ->
      let s := line_seg a b c d in
      minimum_of a c (fst (dom s)) /\ maximum_of a c (snd (dom s)) /\
      minimum_of b d (fst (rng s)) /\ maximum_of b d (snd (rng s)) /\
      ((a =? c) = false -> slope s = (b - d) / (a - c)) /\
      ((a =? c) = true -> is_nan (slope s) = true)) /\
  (forall (KDTree : Type) (kd_build : list (float * float) -> option KDTree)
          wlats wlons wlabels td self,
      init kd_build wlats wlons wlabels true td = Ok self ->
      exists l, segments self = Some l /\
                length l = (length wlats - 1)%nat /\
                forall i, (i + 1 < length wlats)%nat ->
                  nth_error l i =
                  Some (Some (line_seg (nth i wlons 0) (nth i wlats 0)
                                       (nth (i + 1) wlons 0) (nth (i + 1) wlats 0)))) /\
  (forall (KDTree : Type) (kd_build : list (float * float) -> option KDTree)
          wlats wlons wlabels td self,
      init kd_build wlats wlons wlabels false td = Ok self ->
      segments self = None).
Proof.
  split; [|split].
  - intros a b c d Fa Fb Fc Fd s.
    destruct (line_seg_dom a b c d Fa Fc) as [D0 D1].
    destruct (line_seg_rng a b c d Fb Fd) as [R0 R1].
    repeat split; try apply D0; try apply D1; try apply R0; try apply R1.
    + intros E. unfold s. rewrite line_seg_slope, E by assumption. reflexivity.
    + intros E. unfold s. rewrite line_seg_slope, E by assumption. reflexivity.
  - intros KDTree kd_build wlats wlons wlabels td self H.
    apply init_Ok in H. destruct H as (_ & _ & _ & _ & _ & _ & _ & _ & _ & H).
    destruct (H eq_refl) as (_ & l & Hs & Hl & Hi). exists l. auto.
  - intros KDTree kd_build wlats wlons wlabels td self H.
    apply init_Ok in H. destruct H as (_ & _ & _ & _ & _ & _ & _ & _ & H & _).
    auto.
Qed.

Lemma segments_built_witness :
  (let s := line_seg (-117.25) 32.5 (-116.25) 33.5 in
   minimum_of (-117.25) (-116.25) (fst (dom s)) /\
   maximum_of (-117.25) (-116.25) (snd (dom s)) /\
   minimum_of 32.5 33.5 (fst (rng s)) /\ maximum_of 32.5 33.5 (snd (rng s)) /\
   ((-117.25 =? -116.25) = false -> slope s = (32.5 - 33.5) / (-117.25 - -116.25)) /\
   ((-117.25 =? -116.25) = true -> is_nan (slope s) = true)) /\
  (exists l, segments Reference.three_track = Some l /\
             length l = (length Reference.three_lats - 1)%nat /\
             forall i, (i + 1 < length Reference.three_lats)%nat ->
               nth_error l i =
               Some (Some (line_seg (nth i Reference.three_lons 0)
                                    (nth i Reference.three_lats 0)
                                    (nth (i + 1) Reference.three_lons 0)
                                    (nth (i + 1) Reference.three_lats 0)))) /\
  segments Reference.two_track = None.
Proof.
  split; [|split].
  - apply (proj1 segments_built); reflexivity.
  - apply (proj1 (proj2 segments_built) _ Reference.scan_build
             Reference.three_lats Reference.three_lons None 500).
    reflexivity.
  - apply (proj2 (proj2 segments_built) _ Reference.scan_build
             Reference.two_lats Reference.two_lons (Some Reference.two_labels) 500).
    reflexivity.
Defined.

(** C7.  A labels sequence whose length differs from the number of
    waypoints makes [__init__] raise; with no labels, or as many labels as
    waypoints, [__init__] does not raise the labels error. *)
Theorem init_labels_length :
  (forall (KDTree : Type) (kd_build : list (float * float) -> option KDTree)
          wlats wlons ls segs td,
      length ls <> length wlats ->
      exists e, init kd_build wlats wlons (Some ls) segs td = Raise e) /\
  (forall (KDTree : Type) (kd_build : list (float * float) -> option KDTree)
          wlats wlons wlabels segs td,
      (forall ls, wlabels = Some ls -> length ls = length wlats) ->
      init kd_build wlats wlons wlabels segs td <> Raise (ValueError labels_msg)).
Proof.
  split.
  - intros KDTree kd_build wlats wlons ls segs td Hne.
    destruct (init kd_build wlats wlons (Some ls) segs td) as [self|e] eqn:E.
    + apply init_Ok in E. destruct E as (_ & _ & _ & _ & _ & _ & _ & Hl & _).
      specialize (Hl ls eq_refl). contradiction.
    + exists e. reflexivity.
  - intros KDTree kd_build wlats wlons wlabels segs td Hl.
    unfold init, np_points.
    destruct (length wlats =? length wlons)%nat eqn:Hlen; [|discriminate].
    apply Nat.eqb_eq in Hlen. cbn [rbind].
    destruct (kd_build (combine wlats wlons)) as [tree|]; [|discriminate].
    cbn [library rbind].
    assert (Hchk : match wlabels with
                   | Some ls => if negb (length ls =? length wlats)%nat
                                then Raise (ValueError labels_msg) else Ok tt
                   | None => Ok tt
                   end = Ok tt).
    { destruct wlabels as [ls|]; [|reflexivity].
      rewrite (Hl ls eq_refl), Nat.eqb_refl. reflexivity. }
    rewrite Hchk. cbn [rbind].
    destruct segs; [|discriminate].
    unfold np_empty.
    destruct (Z.of_nat (length wlats) - 1 <? 0)%Z eqn:Hn; [discriminate|].
    apply Z.ltb_ge in Hn. cbn [rbind]. unfold py_range.
    rewrite length_combine, <- Hlen, Nat.min_id.
    replace (Z.to_nat (Z.of_nat (length wlats) - 1)) with (length wlats - 1)%nat by lia.
    destruct (fill_segments_spec wlats wlons Hlen (length wlats - 1) 0
                (repeat None (length wlats - 1)))
      as (l & Hrun & _); [lia|rewrite repeat_length; lia|].
    rewrite Hrun. discriminate.
Qed.

Lemma init_labels_length_witness :
  (exists e, init Reference.scan_build Reference.three_lats Reference.three_lons
               (Some Reference.two_labels) true 500 = Raise e) /\
  init Reference.scan_build Reference.two_lats Reference.two_lons
    (Some Reference.two_labels) false 500 <> Raise (ValueError labels_msg).
Proof.
  split.
  - apply (proj1 init_labels_length). simpl. lia.
  - apply (proj2 init_labels_length). intros ls [= <-]. reflexivity.
Defined.

(** C4, as the code has it.  [__init__] has no check of its own for an
    empty waypoint sequence: construction from zero waypoints raises
    exactly when the KD-tree constructor refuses the empty point set, when
    a non-empty labels sequence is given, or when segments are requested
    (an array of size -1). *)
Theorem init_empty_raises_iff :
  forall (KDTree : Type) (kd_build : list (float * float) -> option KDTree)
         (wlabels : option (list string)) (segs : bool) (td : float),
    (exists e, init kd_build [] [] wlabels segs td = Raise e) <->
    (kd_build [] = None \/
     (exists ls, wlabels = Some ls /\ ls <> []) \/
     segs = true).
Proof.
  intros KDTree kd_build wlabels segs td. unfold init. cbn.
  destruct (kd_build []) as [tree|]; cbn.
  - destruct wlabels as [[|l ls]|]; cbn.
    + destruct segs; cbn; split.
      * auto.
      * intros _. eexists. reflexivity.
      * intros [e He]. discriminate.
      * intros [H|[(ls & [= <-] & H)|H]]; congruence.
    + split.
      * intros _. right. left. exists (l :: ls). split; congruence.
      * intros _. eexists. reflexivity.
    + destruct segs; cbn; split.
      * auto.
      * intros _. eexists. reflexivity.
      * intros [e He]. discriminate.
      * intros [H|[(ls & H & _)|H]]; congruence.
  - split; [auto|]. intros _. eexists. reflexivity.
Qed.

(** C4, as stated, fails: with an index that accepts the empty point set,
    no labels and no segments, the empty track is constructed. *)
Lemma init_empty_accepted :
  init Reference.scan_build [] [] None false 0
  = Ok (mk_feature [] [] [] ([] : Reference.scan_tree) None None 0).
Proof. reflexivity. Qed.

(** ** The running minimum *)

Lemma keep_least_not_nan least d :
  is_nan least = false -> is_nan (keep_least least d) = false.
Proof.
  intros Hl. unfold keep_least. destruct (d <? least) eqn:E; [|exact Hl].
  apply F64.ltb_leb, F64.leb_not_nan in E. apply E.
Qed.

Lemma keep_least_nan least d : is_nan d = true -> keep_least least d = least.
Proof. intros H. unfold keep_least. rewrite F64.ltb_nan_l by exact H. reflexivity. Qed.

Lemma keep_least_le least d :
  is_nan least = false -> is_nan d = false ->
  (keep_least least d <=? least) = true /\ (keep_least least d <=? d) = true.
Proof.
  intros Hl Hd. unfold keep_least. destruct (d <? least) eqn:E.
  - split; [apply F64.ltb_leb, E | apply F64.leb_refl, Hd].
  - split; [apply F64.leb_refl, Hl | apply F64.leb_total; assumption].
Qed.

(** Over distances that are numbers, the running minimum ends on the
    start value or on one of the distances, below all of them. *)
Lemma running_min_spec ds :
  Forall (fun d => is_nan d = false) ds ->
  forall least, is_nan least = false ->
    let r := fold_left keep_least ds least in
    (r = least \/ In r ds) /\ (r <=? least) = true /\
    Forall (fun d => (r <=? d) = true) ds.
Proof.
  induction 1 as [|d ds Hd Hds IH]; intros least Hl; cbn.
  - repeat split; auto using F64.leb_refl.
  - destruct (IH (keep_least least d) (keep_least_not_nan least d Hl))
      as (Hin & Hle & Hall).
    destruct (keep_least_le least d Hl Hd) as [Hk1 Hk2].
    repeat split.
    + destruct Hin as [Hr|Hr]; [|auto].
      rewrite Hr. unfold keep_least. destruct (d <? least); auto.
    + eapply F64.leb_trans; eassumption.
    + constructor; [eapply F64.leb_trans; eassumption|exact Hall].
Qed.

(** A running minimum is never NaN, whatever the distances are. *)
Lemma running_min_not_nan ds least :
  is_nan least = false -> is_nan (fold_left keep_least ds least) = false.
Proof.
  revert least. induction ds as [|d ds IH]; intros least Hl; cbn; auto.
  apply IH, keep_least_not_nan, Hl.
Qed.

Lemma running_min_all_nan ds least :
  Forall (fun d => is_nan d = true) ds -> fold_left keep_least ds least = least.
Proof.
  intros H. revert least. induction H as [|d ds Hd _ IH]; intros least; cbn; auto.
  rewrite keep_least_nan by exact Hd. apply IH.
Qed.

(** ** Queries *)

Section Queries.
Variable haversine : float -> float -> float -> float -> float.
Variable KDTree : Type.
Variable kd_build : list (float * float) -> option KDTree.
Variable kd_query : KDTree -> float -> float -> option nat.

Lemma check_segments_run lat lon segs least :
  check_segments haversine lat lon (map Some segs) least
  = Ok (fold_left keep_least (flat_map (projection_dist haversine lat lon) segs) least).
Proof.
  revert least. induction segs as [|s segs IH]; intros least; cbn [map check_segments].
  - reflexivity.
  - cbn [flat_map]. rewrite fold_left_app, <- IH. unfold projection_dist.
    destruct (intersection_info lon lat s) as [lon_int lat_int]. cbn [fst snd].
    destruct (valid_point lon_int lat_int s); reflexivity.
Qed.

Lemma nth_error_points wlats wlons idx :
  length wlats = length wlons -> (idx < length wlats)%nat ->
  nth_error (combine wlats wlons) idx = Some (nth idx wlats 0, nth idx wlons 0).
Proof.
  intros Hlen Hidx.
  rewrite (nth_error_nth' _ (0, 0)) by (rewrite length_combine; lia).
  rewrite combine_nth by exact Hlen. reflexivity.
Qed.

(** The segments [get_closest_dist] checks, in its order: the one that
    starts at the nearest waypoint, then the one that ends there. *)
Lemma rev_candidate_segments wlats wlons idx :
  rev (candidate_segments wlats wlons idx)
  = (if (idx + 1 <? length wlats)%nat then [segment_at wlats wlons idx] else []) ++
    (if (0 <? idx)%nat then [segment_at wlats wlons (idx - 1)] else []).
Proof.
  unfold candidate_segments.
  destruct (0 <? idx)%nat, (idx + 1 <? length wlats)%nat; reflexivity.
Qed.

(** What [get_closest_dist] computes on a constructed track when the
    lookup answers with the index of a waypoint. *)
Lemma get_closest_dist_run wlats wlons wlabels segs td self lat lon idx :
  init kd_build wlats wlons wlabels segs td = Ok self ->
  kd_query (kdtree self) lat lon = Some idx -> (idx < length wlats)%nat ->
  get_closest_dist haversine kd_query lat lon self
  = (Ok (keep_least
           (fold_left keep_least
              (if segs
               then flat_map (projection_dist haversine lat lon)
                      (rev (candidate_segments wlats wlons idx))
               else []) infinity)
           (waypoint_dist haversine wlats wlons lat lon idx)), self).
Proof.
  intros Hinit Hq Hidx. apply init_Ok in Hinit.
  destruct Hinit as (Hlen & Hla & Hlo & Hpts & _ & _ & _ & _ & Hoff & Hon).
  pose proof (nth_error_points wlats wlons idx Hlen Hidx) as Hpnt.
  unfold get_closest_dist, bind, attr, local, ret. rewrite Hq. cbn [library].
  rewrite Hpts, length_combine, <- Hlen, Nat.min_id.
  unfold getitem at 3. rewrite Hpnt. cbn [fst snd].
  destruct segs.
  - destruct (Hon eq_refl) as (HN & l & Hs & Hl & Hi). rewrite Hs.
    rewrite rev_candidate_segments.
    assert (G1 : (Z.of_nat idx <? Z.of_nat (length wlats) - 1)%Z
                 = (idx + 1 <? length wlats)%nat).
    { destruct (Nat.ltb_spec (idx + 1) (length wlats));
        [apply Z.ltb_lt|apply Z.ltb_ge]; lia. }
    assert (G2 : (Z.of_nat idx >? 0)%Z = (0 <? idx)%nat).
    { rewrite Z.gtb_ltb. destruct (Nat.ltb_spec 0 idx);
        [apply Z.ltb_lt|apply Z.ltb_ge]; lia. }
    rewrite G1, G2.
    destruct (Nat.ltb_spec (idx + 1) (length wlats)) as [H1|H1];
      destruct (Nat.ltb_spec 0 idx) as [H2|H2]; unfold getitem.
    + rewrite (Hi idx H1), (Hi (idx - 1)%nat) by lia. cbn [rbind app].
      rewrite (check_segments_run lat lon
                 [segment_at wlats wlons idx; segment_at wlats wlons (idx - 1)]).
      reflexivity.
    + rewrite (Hi idx H1). cbn [rbind app].
      rewrite (check_segments_run lat lon [segment_at wlats wlons idx]).
      reflexivity.
    + rewrite (Hi (idx - 1)%nat) by lia. cbn [rbind app].
      rewrite (check_segments_run lat lon [segment_at wlats wlons (idx - 1)]).
      reflexivity.
    + cbn [app check_segments flat_map fold_left]. reflexivity.
  - rewrite (Hoff eq_refl). reflexivity.
Qed.

End Queries.

Section QueryClaims.
Variable haversine : float -> float -> float -> float -> float.
Variable KDTree : Type.
Variable kd_build : list (float * float) -> option KDTree.
Variable kd_query : KDTree -> float -> float -> option nat.

Lemma nth_finite (l : list float) i :
  Forall (fun v => is_finite v = true) l -> is_finite (nth i l 0) = true.
Proof.
  intros H. revert i. induction H as [|v l Hv _ IH]; intros [|i]; cbn; auto.
Qed.

Lemma contract_not_nan lat1 lat2 lon1 lon2 :
  distance_contract haversine ->
  is_finite lat1 = true -> is_finite lat2 = true ->
  is_finite lon1 = true -> is_finite lon2 = true ->
  is_nan (haversine lat1 lat2 lon1 lon2) = false.
Proof.
  intros Hc F1 F2 F3 F4.
  apply (F64.leb_not_nan 0), Hc; assumption.
Qed.

Lemma projection_dist_not_nan wlats wlons lat lon i :
  distance_contract haversine ->
  Forall (fun v => is_finite v = true) wlats ->
  Forall (fun v => is_finite v = true) wlons ->
  is_finite lat = true -> is_finite lon = true ->
  Forall (fun d => is_nan d = false)
         (projection_dist haversine lat lon (segment_at wlats wlons i)).
Proof.
  intros Hc Hla Hlo Flat Flon. unfold projection_dist.
  destruct (valid_point _ _ _) eqn:V; [|constructor].
  apply valid_point_finite in V; auto using nth_finite.
  destruct V as [Fx Fy]. constructor; [|constructor].
  apply contract_not_nan; assumption.
Qed.

Lemma candidates_not_nan wlats wlons segs lat lon idx :
  distance_contract haversine ->
  Forall (fun v => is_finite v = true) wlats ->
  Forall (fun v => is_finite v = true) wlons ->
  is_finite lat = true -> is_finite lon = true ->
  Forall (fun d => is_nan d = false)
         (candidates haversine wlats wlons segs lat lon idx).
Proof.
  intros Hc Hla Hlo Flat Flon. unfold candidates. constructor.
  - apply contract_not_nan; auto using nth_finite.
  - destruct segs; [|constructor].
    apply Forall_flat_map, Forall_forall. intros s Hs.
    unfold candidate_segments in Hs. apply in_app_or in Hs.
    destruct Hs as [Hs|Hs];
      [destruct (0 <? idx)%nat|destruct (idx + 1 <? length wlats)%nat];
      cbn [In] in Hs; try contradiction;
      destruct Hs as [<-|Hs]; try contradiction;
      apply projection_dist_not_nan; assumption.
Qed.

(** The distances in the order of the code are those of the specification. *)
Lemma code_order_candidates wlats wlons (segs : bool) lat lon idx d :
  In d ((if segs
         then flat_map (projection_dist haversine lat lon)
                (rev (candidate_segments wlats wlons idx))
         else []) ++ [waypoint_dist haversine wlats wlons lat lon idx])
  <-> In d (candidates haversine wlats wlons segs lat lon idx).
Proof.
  unfold candidates. rewrite in_app_iff. cbn [In].
  destruct segs.
  - rewrite !in_flat_map.
    split.
    + intros [(s & Hs & Hd)|[H|[]]]; auto.
      right. exists s. split; [apply in_rev, Hs|exact Hd].
    + intros [H|(s & Hs & Hd)]; auto.
      left. exists s. split; [apply in_rev; rewrite rev_involutive; exact Hs|exact Hd].
  - cbn [In]. tauto.
Qed.

(** The running minimum of [get_closest_dist], in terms of
    [intersection_info] and [valid_point]: when the lookup answers with the
    index of a waypoint, the result is a minimum of the distance to that
    waypoint and the distances to the projections that [valid_point]
    accepts, on the at most two segments adjacent to it. *)
Lemma closest_dist_is_minimum :
  forall wlats wlons wlabels segs td self lat lon idx,
    distance_contract haversine ->
    Forall (fun v => is_finite v = true) wlats ->
    Forall (fun v => is_finite v = true) wlons ->
    is_finite lat = true -> is_finite lon = true ->
    init kd_build wlats wlons wlabels segs td = Ok self ->
    kd_query (kdtree self) lat lon = Some idx -> (idx < length wlats)%nat ->
    exists r,
      get_closest_dist haversine kd_query lat lon self = (Ok r, self) /\
      is_minimum r (candidates haversine wlats wlons segs lat lon idx) /\
      (r <=? waypoint_dist haversine wlats wlons lat lon idx) = true /\
      (segs = false \/
       flat_map (projection_dist haversine lat lon)
                (candidate_segments wlats wlons idx) = [] ->
       r = waypoint_dist haversine wlats wlons lat lon idx).
Proof.
  intros wlats wlons wlabels segs td self lat lon idx
         Hc Hla Hlo Flat Flon Hinit Hq Hidx.
  rewrite (get_closest_dist_run haversine KDTree kd_build kd_query
             wlats wlons wlabels segs td self lat lon idx Hinit Hq Hidx).
  set (projs := if segs
                then flat_map (projection_dist haversine lat lon)
                       (rev (candidate_segments wlats wlons idx))
                else []).
  set (dw := waypoint_dist haversine wlats wlons lat lon idx).
  exists (keep_least (fold_left keep_least projs infinity) dw).
  split; [reflexivity|].
  pose proof (candidates_not_nan wlats wlons segs lat lon idx
                Hc Hla Hlo Flat Flon) as Hnn.
  assert (Hds : Forall (fun d => is_nan d = false) (projs ++ [dw])).
  { apply Forall_forall. intros d Hd.
    apply code_order_candidates in Hd.
    rewrite Forall_forall in Hnn. apply Hnn, Hd. }
  destruct (running_min_spec (projs ++ [dw]) Hds infinity eq_refl)
    as (Hin & _ & Hall).
  rewrite fold_left_app in Hin, Hall. cbn [fold_left] in Hin, Hall.
  set (r := keep_least (fold_left keep_least projs infinity) dw) in *.
  assert (Hrw : (r <=? dw) = true).
  { rewrite Forall_forall in Hall. apply Hall, in_or_app. right. left. reflexivity. }
  split; [|split; [exact Hrw|]].
  - split.
    + destruct Hin as [Hinf|Hin].
      * rewrite Hinf in Hrw. apply F64.infinity_leb in Hrw.
        left. unfold dw in Hrw. rewrite Hrw, Hinf. reflexivity.
      * apply code_order_candidates, Hin.
    + apply Forall_forall. intros d Hd.
      apply code_order_candidates in Hd.
      rewrite Forall_forall in Hall. apply Hall, Hd.
  - intros Hnone.
    assert (Hp : projs = []).
    { unfold projs. destruct Hnone as [->|Hnone]; [reflexivity|].
      destruct segs; [|reflexivity].
      destruct (flat_map _ (rev _)) as [|d ds] eqn:E; [reflexivity|].
      assert (Hd : In d (flat_map (projection_dist haversine lat lon)
                          (candidate_segments wlats wlons idx))).
      { apply in_flat_map.
        assert (Hd' : In d (d :: ds)) by (left; reflexivity).
        rewrite <- E in Hd'. apply in_flat_map in Hd'.
        destruct Hd' as (s & Hs & Hd'). exists s. split; [|exact Hd'].
        apply in_rev, Hs. }
      rewrite Hnone in Hd. destruct Hd. }
    unfold r. rewrite Hp. cbn [fold_left]. unfold keep_least.
    destruct (dw <? infinity) eqn:E; [reflexivity|].
    symmetry. apply F64.not_ltb_infinity; [|exact E].
    rewrite Forall_forall in Hds. apply Hds, in_or_app. right. left. reflexivity.
Qed.

End QueryClaims.

(** ** The stand-ins meet the contracts *)

Lemma flat_distance_contract : distance_contract Reference.flat_distance.
Proof.
  intros lat1 lat2 lon1 lon2 F1 F2 F3 F4.
  unfold Reference.flat_distance, Reference.all_finite.
  rewrite F1, F2, F3, F4. cbn [andb].
  destruct (0 <=? 111195 * _) eqn:E; [exact E|reflexivity].
Qed.

Lemma flat_distance_nan_contract : nan_contract Reference.flat_distance.
Proof.
  intros lat1 lat2 lon1 lon2 H.
  unfold Reference.flat_distance, Reference.all_finite.
  destruct H as [H|H]; apply F64.is_nan_finite in H; rewrite H;
    rewrite ?andb_false_r; reflexivity.
Qed.

(** C1.  [get_closest_dist] at the finite query point [(2^600, 0)] on the
    track of three waypoints, built by [__init__] with and without
    segments.  Every squared planar distance to a waypoint overflows, the
    lookup finds no nearest waypoint and answers with the number of
    waypoints, 3, as [scipy.spatial.KDTree.query] does; the code takes the
    answer for the index of a waypoint and raises [IndexError], where the
    claim has it return a minimum of distances. *)
Theorem closest_dist_far_query :
  init Reference.scan_build Reference.three_lats Reference.three_lons None true 500
  = Ok Reference.three_track /\
  init Reference.scan_build Reference.three_lats Reference.three_lons None false 500
  = Ok Reference.three_plain /\
  is_finite 0x1p600 = true /\ is_finite 0 = true /\
  Reference.scan_query (kdtree Reference.three_track) 0x1p600 0
  = Some (length Reference.three_lats) /\
  get_closest_dist Reference.flat_distance Reference.scan_query 0x1p600 0
    Reference.three_track = (Raise IndexError, Reference.three_track) /\
  get_closest_dist Reference.flat_distance Reference.scan_query 0x1p600 0
    Reference.three_plain = (Raise IndexError, Reference.three_plain).
Proof. repeat split; reflexivity. Qed.

(** ** Queries that are not finite, the frame, and the bounds of the
       segment array *)

Section MoreQueryClaims.
Variable haversine : float -> float -> float -> float -> float.
Variable KDTree : Type.
Variable kd_build : list (float * float) -> option KDTree.
Variable kd_query : KDTree -> float -> float -> option nat.

Lemma projection_dist_nan lat lon s :
  nan_contract haversine -> is_nan lat = true \/ is_nan lon = true ->
  Forall (fun d => is_nan d = true) (projection_dist haversine lat lon s).
Proof.
  intros Hc Hq. unfold projection_dist.
  destruct (valid_point _ _ _); constructor; [apply Hc, Hq|constructor].
Qed.

(** C3, as the code has it.  For a query whose latitude or longitude is
    NaN, on a track built by [__init__] and with a distance function that
    yields NaN there: when the KD-tree lookup raises, so does
    [get_closest_dist]; when it answers with the index of a waypoint,
    [get_closest_dist] returns +infinity, the start value of
    [least_dist], since no comparison [dist < least_dist] holds. *)
Theorem closest_dist_nan_query :
  forall wlats wlons wlabels segs td self lat lon,
    nan_contract haversine ->
    is_nan lat = true \/ is_nan lon = true ->
    init kd_build wlats wlons wlabels segs td = Ok self ->
    match kd_query (kdtree self) lat lon with
    | Some idx =>
        (idx < length wlats)%nat ->
        get_closest_dist haversine kd_query lat lon self = (Ok infinity, self)
    | None =>
        get_closest_dist haversine kd_query lat lon self = (Raise LibraryError, self)
    end.
Proof.
  intros wlats wlons wlabels segs td self lat lon Hc Hnan Hinit.
  destruct (kd_query (kdtree self) lat lon) as [idx|] eqn:Hq.
  - intros Hidx.
    rewrite (get_closest_dist_run haversine KDTree kd_build kd_query
               wlats wlons wlabels segs td self lat lon idx Hinit Hq Hidx).
    rewrite running_min_all_nan.
    + rewrite keep_least_nan; [reflexivity|]. apply Hc, Hnan.
    + destruct segs; [|constructor].
      apply Forall_flat_map, Forall_forall. intros s _.
      apply projection_dist_nan; assumption.
  - unfold get_closest_dist, bind, attr, local. rewrite Hq. reflexivity.
Qed.

Lemma check_segments_not_nan lat lon seg_check :
  forall least r,
    check_segments haversine lat lon seg_check least = Ok r ->
    is_nan least = false -> is_nan r = false.
Proof.
  induction seg_check as [|[s|] seg_check IH]; intros least r; cbn [check_segments].
  - intros [= <-] H. exact H.
  - destruct (intersection_info lon lat s) as [lon_int lat_int].
    destruct (valid_point lon_int lat_int s); intros Hr Hl.
    + apply (IH _ _ Hr). apply (keep_least_not_nan least _ Hl).
    + apply (IH _ _ Hr Hl).
  - discriminate.
Qed.

(** No track, no query and no distance function make [get_closest_dist]
    return NaN. *)
Lemma get_closest_dist_not_nan (self : ParticlePlotFeature KDTree) lat lon r :
  fst (get_closest_dist haversine kd_query lat lon self) = Ok r ->
  is_nan r = false.
Proof.
  unfold get_closest_dist, bind, attr, local, ret.
  destruct (kd_query (kdtree self) lat lon) as [idx|]; cbn [library];
    [|discriminate].
  assert (Hfinal : forall least,
            is_nan least = false ->
            fst (match getitem (points self) idx with
                 | Ok pnt =>
                     (Ok (if haversine lat (fst pnt) lon (snd pnt) <? least
                          then haversine lat (fst pnt) lon (snd pnt) else least),
                      self)
                 | Raise e => (Raise e, self)
                 end) = Ok r -> is_nan r = false).
  { intros least Hl. destruct (getitem (points self) idx) as [pnt|e];
      cbn [fst]; [|discriminate].
    intros [= <-]. apply (keep_least_not_nan least _ Hl). }
  destruct (segments self) as [arr|]; [|apply Hfinal; reflexivity].
  destruct (Z.of_nat idx <? Z.of_nat (length (points self)) - 1)%Z;
    destruct (Z.of_nat idx >? 0)%Z;
    repeat match goal with
           | |- context [getitem arr ?i] =>
               destruct (getitem arr i); cbn [rbind app]; try discriminate
           end;
    match goal with
    | |- context [check_segments ?h ?a ?b ?l ?i] =>
        destruct (check_segments h a b l i) as [least|e] eqn:E;
        [apply Hfinal; apply (check_segments_not_nan _ _ _ _ _ E); reflexivity
        |discriminate]
    end.
Qed.

(** *** The frame *)

Lemma preserves_ret {A} (a : A) : preserves (ret KDTree a).
Proof. intros self. reflexivity. Qed.

Lemma preserves_attr {A} (f : ParticlePlotFeature KDTree -> A) :
  preserves (attr KDTree f).
Proof. intros self. reflexivity. Qed.

Lemma preserves_local {A} (r : result A) : preserves (local KDTree r).
Proof. intros self. reflexivity. Qed.

Lemma preserves_bind {A B} (m : method KDTree A) (k : A -> method KDTree B) :
  preserves m -> (forall a, preserves (k a)) -> preserves (bind KDTree m k).
Proof.
  intros Hm Hk self. unfold bind. specialize (Hm self).
  destruct (m self) as [[a|e] self']; cbn [snd] in *; subst self'.
  - apply Hk.
  - reflexivity.
Qed.

Lemma preserves_if {A} (b : bool) (m1 m2 : method KDTree A) :
  preserves m1 -> preserves m2 -> preserves (if b then m1 else m2).
Proof. destruct b; auto. Qed.

Create HintDb frame.
#[local] Hint Resolve preserves_ret preserves_attr preserves_local preserves_if : frame.

Lemma get_closest_dist_preserves lat lon :
preserves (get_closest_dist haversine kd_query lat lon).
Proof.
unfold get_closest_dist.
apply preserves_bind; [auto with frame|intros tree].
apply preserves_bind; [auto with frame|intros idx].
apply preserves_bind; [auto with frame|intros segs].
apply preserves_bind; [auto with frame|intros pts].
apply preserves_bind; [|intros least].
- destruct segs as [arr|]; [|auto with frame].
  repeat (apply preserves_bind; [auto with frame|intros ?]); auto with frame.
- repeat (apply preserves_bind; [auto with frame|intros ?]); auto with frame.
Qed.

Lemma count_near_preserves p_lats p_lons :
  preserves (KDTree := KDTree) (count_near haversine p_lats p_lons).
Proof.
  unfold count_near.
  repeat (apply preserves_bind; [auto with frame|intros ?]); auto with frame.
Qed.

(** C8.  [get_closest_dist] and [count_near] leave the object as they
    found it, every attribute of it, whatever they are given and whether
    they return or raise. *)
Theorem queries_preserve_track :
  forall (self : ParticlePlotFeature KDTree) lat lon p_lats p_lons,
    let after_dist := snd (get_closest_dist haversine kd_query lat lon self) in
    let after_count := snd (count_near haversine p_lats p_lons self) in
    (after_dist = self /\ after_count = self) /\
    (lats after_dist = lats self /\ lons after_dist = lons self /\
     points after_dist = points self /\ labels after_dist = labels self /\
     segments after_dist = segments self /\ kdtree after_dist = kdtree self /\
     track_dist after_dist = track_dist self) /\
    (lats after_count = lats self /\ lons after_count = lons self /\
     points after_count = points self /\ labels after_count = labels self /\
     segments after_count = segments self /\ kdtree after_count = kdtree self /\
     track_dist after_count = track_dist self).
Proof.
  intros self lat lon p_lats p_lons after_dist after_count.
  assert (H1 : after_dist = self) by apply get_closest_dist_preserves.
  assert (H2 : after_count = self) by apply count_near_preserves.
  rewrite H1, H2. repeat split.
Qed.

End MoreQueryClaims.

Lemma closest_dist_nan_query_witness :
  get_closest_dist Reference.flat_distance Reference.first_query nan (-116.5)
    Reference.three_track = (Ok infinity, Reference.three_track) /\
  get_closest_dist Reference.flat_distance Reference.scan_query nan (-116.5)
    Reference.three_track = (Raise LibraryError, Reference.three_track).
Proof.
  split.
  - apply (closest_dist_nan_query Reference.flat_distance Reference.scan_tree
             Reference.scan_build Reference.first_query
             Reference.three_lats Reference.three_lons None true 500
             Reference.three_track nan (-116.5)
             flat_distance_nan_contract (or_introl eq_refl) eq_refl).
    cbn. lia.
  - exact (closest_dist_nan_query Reference.flat_distance Reference.scan_tree
             Reference.scan_build Reference.scan_query
             Reference.three_lats Reference.three_lons None true 500
             Reference.three_track nan (-116.5)
             flat_distance_nan_contract (or_introl eq_refl) eq_refl).
Defined.

(** C3, as stated, fails: with a NaN latitude the query returns +infinity
    when the lookup answers, raises when the lookup refuses the point, and
    in no case at all returns NaN. *)
Lemma closest_dist_nan_counterexample :
  (get_closest_dist Reference.flat_distance Reference.first_query nan (-116.5)
     Reference.three_track = (Ok infinity, Reference.three_track) /\
   is_nan infinity = false) /\
  get_closest_dist Reference.flat_distance Reference.scan_query nan (-116.5)
    Reference.three_track = (Raise LibraryError, Reference.three_track) /\
  (forall haversine (KDTree : Type) kd_query
          (self : ParticlePlotFeature KDTree) lat lon r,
      fst (get_closest_dist haversine kd_query lat lon self) = Ok r ->
      is_nan r = false).
Proof.
  split; [split; reflexivity|]. split; [reflexivity|].
  intros haversine KDTree kd_query self lat lon r.
  apply get_closest_dist_not_nan.
Qed.

(** C9.  [get_closest_dist] at the query point [(2^600, 0)] on tracks built
    with segments, of one waypoint and of three.  The lookup finds no
    waypoint at a finite distance and answers with the number of
    waypoints, [N]; the guard [idx < N - 1] is false, the guard [idx > 0]
    is true, and the code reads [segments[N - 1]] in an array of [N - 1]
    segments: [IndexError], also on the track of a single waypoint, whose
    segment array is empty. *)
Theorem segment_access_far_query :
  (init Reference.scan_build [32.5] [-117.25] None true 0 = Ok Reference.one_track /\
   Reference.scan_query (kdtree Reference.one_track) 0x1p600 0 = Some 1%nat /\
   segments Reference.one_track = Some [] /\
   (Z.of_nat 1 <? Z.of_nat (length (points Reference.one_track)) - 1)%Z = false /\
   (Z.of_nat 1 >? 0)%Z = true /\
   getitem (@nil (option segment)) (1 - 1) = Raise IndexError /\
   get_closest_dist Reference.flat_distance Reference.scan_query 0x1p600 0
     Reference.one_track = (Raise IndexError, Reference.one_track)) /\
  (init Reference.scan_build Reference.three_lats Reference.three_lons None true 500
   = Ok Reference.three_track /\
   Reference.scan_query (kdtree Reference.three_track) 0x1p600 0 = Some 3%nat /\
   (exists arr,
       segments Reference.three_track = Some arr /\ length arr = 2%nat /\
       getitem arr (3 - 1) = Raise IndexError) /\
   (Z.of_nat 3 <? Z.of_nat (length (points Reference.three_track)) - 1)%Z = false /\
   (Z.of_nat 3 >? 0)%Z = true /\
   get_closest_dist Reference.flat_distance Reference.scan_query 0x1p600 0
     Reference.three_track = (Raise IndexError, Reference.three_track)).
Proof.
  split; repeat split; try reflexivity.
  eexists. repeat split; reflexivity.
Qed.

(** X24.  On a track built with segments, when the lookup answers with the
    index of a waypoint, every segment [get_closest_dist] reads lies inside
    the array of [N - 1] segments, the call returns, and on a track of a
    single waypoint, whose segment array is empty, it returns the distance
    to that waypoint when this is a number. *)
Theorem segment_access_in_bounds :
  forall haversine (KDTree : Type) kd_build kd_query
         wlats wlons wlabels td (self : ParticlePlotFeature KDTree) lat lon idx,
    init kd_build wlats wlons wlabels true td = Ok self ->
    kd_query (kdtree self) lat lon = Some idx -> (idx < length wlats)%nat ->
    (exists arr,
        segments self = Some arr /\ length arr = (length wlats - 1)%nat /\
        ((Z.of_nat idx <? Z.of_nat (length (points self)) - 1)%Z = true ->
         exists s, getitem arr idx = Ok (Some s)) /\
        ((Z.of_nat idx >? 0)%Z = true ->
         exists s, getitem arr (idx - 1) = Ok (Some s))) /\
    (exists r, get_closest_dist haversine kd_query lat lon self = (Ok r, self)) /\
    (length wlats = 1%nat ->
     is_nan (waypoint_dist haversine wlats wlons lat lon 0) = false ->
     segments self = Some [] /\
     get_closest_dist haversine kd_query lat lon self
     = (Ok (waypoint_dist haversine wlats wlons lat lon 0), self)).
Proof.
  intros haversine KDTree kd_build kd_query wlats wlons wlabels td self lat lon idx
         Hinit Hq Hidx.
  pose proof (get_closest_dist_run haversine KDTree kd_build kd_query
                wlats wlons wlabels true td self lat lon idx Hinit Hq Hidx) as Hrun.
  apply init_Ok in Hinit.
  destruct Hinit as (Hlen & _ & _ & Hpts & _ & _ & _ & _ & _ & Hon).
  destruct (Hon eq_refl) as (HN & arr & Hs & Hl & Hi).
  split; [|split].
  - exists arr. split; [exact Hs|]. split; [exact Hl|].
    rewrite Hpts, length_combine, <- Hlen, Nat.min_id. split.
    + intros G. apply Z.ltb_lt in G. exists (segment_at wlats wlons idx).
      apply getitem_Ok, Hi. lia.
    + intros G. apply Z.gtb_lt in G. exists (segment_at wlats wlons (idx - 1)).
      apply getitem_Ok, Hi. lia.
  - eexists. exact Hrun.
  - intros H1 Hnn. split.
    + rewrite Hs. destruct arr; [reflexivity|]. cbn in Hl. lia.
    + assert (idx = 0%nat) by lia. subst idx. rewrite Hrun.
      unfold candidate_segments. rewrite H1. cbn [Nat.ltb Nat.leb Nat.add app rev
        flat_map fold_left].
      unfold keep_least.
      destruct (_ <? infinity) eqn:E; [reflexivity|].
      rewrite (F64.not_ltb_infinity _ Hnn E). reflexivity.
Qed.

Lemma segment_access_in_bounds_witness :
  (exists arr,
      segments Reference.three_track = Some arr /\ length arr = (3 - 1)%nat /\
      ((Z.of_nat 1 <? Z.of_nat (length (points Reference.three_track)) - 1)%Z = true ->
       exists s, getitem arr 1 = Ok (Some s)) /\
      ((Z.of_nat 1 >? 0)%Z = true ->
       exists s, getitem arr (1 - 1) = Ok (Some s))) /\
  (exists r, get_closest_dist Reference.flat_distance Reference.scan_query
               32.75 (-116.5) Reference.three_track = (Ok r, Reference.three_track)) /\
  (Z.of_nat 1 <? Z.of_nat (length (points Reference.three_track)) - 1)%Z = true /\
  (Z.of_nat 1 >? 0)%Z = true.
Proof.
  destruct (segment_access_in_bounds Reference.flat_distance Reference.scan_tree
              Reference.scan_build Reference.scan_query
              Reference.three_lats Reference.three_lons None 500
              Reference.three_track 32.75 (-116.5) 1)
    as (Hreads & Hret & _).
  - reflexivity.
  - reflexivity.
  - cbn. lia.
  - split; [exact Hreads|]. split; [exact Hret|]. split; reflexivity.
Defined.

(** ** Counting *)

Section Counting.
Variable haversine : float -> float -> float -> float -> float.
Variable KDTree : Type.
Variable kd_build : list (float * float) -> option KDTree.

Lemma getitem_middle {A} (pre : list A) c t :
  getitem (pre ++ c :: t) (length pre) = Ok c.
Proof.
  unfold getitem. rewrite nth_error_app2, Nat.sub_diag by lia. reflexivity.
Qed.

Lemma setitem_middle {A} (pre : list A) c t v :
  setitem (pre ++ c :: t) (length pre) v = Ok (pre ++ v :: t).
Proof.
  rewrite setitem_Ok by (rewrite length_app; cbn; lia). f_equal.
  induction pre as [|h pre IH]; cbn; [reflexivity|]. rewrite IH. reflexivity.
Qed.

(** One pass of the inner loop adds one, at its own index, for every
    waypoint the position is near to. *)
Lemma count_point_run td p (F : float * float -> float) pts :
  forall pre,
    count_point haversine td p (combine (seq (length pre) (length pts)) pts)
      (pre ++ map F pts)
    = Ok (pre ++ map (fun w => if near haversine td w p then F w + 1 else F w) pts).
Proof.
  induction pts as [|w pts IH]; intros pre; cbn [length seq combine map count_point].
  - reflexivity.
  - fold (near haversine td w p).
    specialize (IH (pre ++ [if near haversine td w p then F w + 1 else F w])).
    rewrite length_app, Nat.add_1_r, <- !app_assoc in IH. cbn [app] in IH.
    destruct (near haversine td w p).
    + rewrite getitem_middle. cbn [rbind]. rewrite setitem_middle. cbn [rbind].
      exact IH.
    + exact IH.
Qed.

Lemma near_count_cons td p batch w :
  near_count haversine td (p :: batch) w
  = ((if near haversine td w p then 1 else 0) + near_count haversine td batch w)%nat.
Proof.
  unfold near_count. cbn [filter]. destruct (near haversine td w p); reflexivity.
Qed.

Lemma near_count_le td batch w :
  (near_count haversine td batch w <= length batch)%nat.
Proof. apply filter_length_le. Qed.

(** The whole batch: every counter holds the number of positions near
    its waypoint, as long as that number fits a float exactly. *)
Lemma count_batch_run td pts batch :
  forall c0 : float * float -> nat,
    (forall w, In w pts ->
               (Z.of_nat (c0 w) + Z.of_nat (length batch) < 2 ^ 53)%Z) ->
    count_batch haversine td pts batch (map (fun w => float_of_nat (c0 w)) pts)
    = Ok (map (fun w => float_of_nat (c0 w + near_count haversine td batch w)) pts).
Proof.
  induction batch as [|p batch IH]; intros c0 Hb; cbn [count_batch].
  - f_equal. apply map_ext. intros w. unfold near_count. cbn.
    rewrite Nat.add_0_r. reflexivity.
  - pose proof (count_point_run td p (fun w => float_of_nat (c0 w)) pts []) as Hp.
    cbn [length app] in Hp. rewrite Hp. clear Hp. cbn [rbind].
    rewrite (map_ext_in _
               (fun w => float_of_nat
                           (c0 w + if near haversine td w p then 1 else 0))).
    + rewrite (IH (fun w => (c0 w + if near haversine td w p then 1 else 0)%nat)).
      * f_equal. apply map_ext. intros w. rewrite near_count_cons.
        f_equal. lia.
      * intros w Hw. specialize (Hb w Hw). cbn [length] in Hb.
        destruct (near haversine td w p); lia.
    + intros w Hw. specialize (Hb w Hw). cbn [length] in Hb.
      destruct (near haversine td w p).
      * rewrite Nat.add_1_r. apply float_of_nat_succ. lia.
      * rewrite Nat.add_0_r. reflexivity.
Qed.

Lemma map_const_repeat {A B} (b : B) (l : list A) :
  map (fun _ => b) l = repeat b (length l).
Proof. induction l as [|a l IH]; cbn; [reflexivity|]. rewrite IH. reflexivity. Qed.

(** What [count_near] computes on a constructed track. *)
Lemma count_near_run wlats wlons wlabels segs td self p_lats p_lons :
  init kd_build wlats wlons wlabels segs td = Ok self ->
  (Z.of_nat (length (combine p_lats p_lons)) < 2 ^ 53)%Z ->
  count_near haversine p_lats p_lons self
  = (Ok (map (fun w => float_of_nat
                         (near_count haversine td (combine p_lats p_lons) w))
             (combine wlats wlons)), self).
Proof.
  intros Hinit HM. apply init_Ok in Hinit.
  destruct Hinit as (Hlen & Hla & _ & Hpts & _ & _ & Htd & _).
  unfold count_near, bind, attr, local. rewrite Hla, Hpts, Htd.
  replace (repeat 0 (length wlats))
    with (map (fun _ : float * float => float_of_nat 0) (combine wlats wlons)).
  - rewrite (count_batch_run td (combine wlats wlons) (combine p_lats p_lons)
               (fun _ => 0%nat)).
    + reflexivity.
    + intros w _. cbn. lia.
  - rewrite map_const_repeat, length_combine, <- Hlen, Nat.min_id. reflexivity.
Qed.

(** C2.  On a track built by [__init__], for a batch of fewer than 2^53
    positions (the counters are floats), [count_near] returns one counter
    per waypoint, in the order of the waypoints, and the counter of
    waypoint [i] is the number of positions of the batch whose distance to
    waypoint [i] is at most the threshold: a non-negative integer. *)
Theorem count_near_counts :
  forall wlats wlons wlabels segs td self p_lats p_lons,
    init kd_build wlats wlons wlabels segs td = Ok self ->
    (Z.of_nat (length (combine p_lats p_lons)) < 2 ^ 53)%Z ->
    exists counts,
      count_near haversine p_lats p_lons self = (Ok counts, self) /\
      length counts = length wlats /\
      forall i, (i < length wlats)%nat ->
        let n := near_count haversine td (combine p_lats p_lons)
                   (nth i wlats 0, nth i wlons 0) in
        nth_error counts i = Some (float_of_nat n) /\
        (0 <=? float_of_nat n) = true.
Proof.
  intros wlats wlons wlabels segs td self p_lats p_lons Hinit HM.
  rewrite (count_near_run wlats wlons wlabels segs td self p_lats p_lons Hinit HM).
  apply init_Ok in Hinit. destruct Hinit as (Hlen & _).
  eexists. split; [reflexivity|]. split.
  - rewrite length_map, length_combine, <- Hlen, Nat.min_id. reflexivity.
  - intros i Hi n. split.
    + rewrite nth_error_map, (nth_error_points wlats wlons i Hlen Hi). reflexivity.
    + apply (float_of_nat_le 0 n); [lia|].
      pose proof (near_count_le td (combine p_lats p_lons)
                    (nth i wlats 0, nth i wlons 0)). fold n in H. lia.
Qed.

(** C10.  On a track built by [__init__], for a batch of [M] positions,
    [M] below 2^53, [count_near] returns [N] counters whatever [M] is,
    each at most [M], and all of them 0 for the empty batch. *)
Theorem count_near_bounded :
  forall wlats wlons wlabels segs td self p_lats p_lons,
    init kd_build wlats wlons wlabels segs td = Ok self ->
    let M := length (combine p_lats p_lons) in
    (Z.of_nat M < 2 ^ 53)%Z ->
    exists counts,
      count_near haversine p_lats p_lons self = (Ok counts, self) /\
      length counts = length wlats /\
      Forall (fun c => (c <=? float_of_nat M) = true) counts /\
      (M = 0%nat -> counts = repeat 0 (length wlats)).
Proof.
  intros wlats wlons wlabels segs td self p_lats p_lons Hinit M HM.
  rewrite (count_near_run wlats wlons wlabels segs td self p_lats p_lons Hinit HM).
  apply init_Ok in Hinit. destruct Hinit as (Hlen & _).
  eexists. split; [reflexivity|].
  assert (HN : length (combine wlats wlons) = length wlats)
    by (rewrite length_combine, <- Hlen, Nat.min_id; reflexivity).
  split; [rewrite length_map; exact HN|]. split.
  - apply Forall_map, Forall_forall. intros w _.
    apply float_of_nat_le; [apply near_count_le|exact HM].
  - intros H0. fold M. destruct (combine p_lats p_lons) as [|p b] eqn:E.
    + cbn. rewrite (map_const_repeat (float_of_nat 0)), HN. reflexivity.
    + unfold M in H0. cbn in H0. discriminate.
Qed.

End Counting.

Lemma count_near_counts_witness :
  exists counts,
    count_near Reference.flat_distance [32.5; 32.5; 33.5; nan]
      [-117.25; -116.25; -116.25; 0] Reference.three_track
    = (Ok counts, Reference.three_track) /\
    length counts = length Reference.three_lats /\
    forall i, (i < length Reference.three_lats)%nat ->
      let n := near_count Reference.flat_distance 500
                 (combine [32.5; 32.5; 33.5; nan] [-117.25; -116.25; -116.25; 0])
                 (nth i Reference.three_lats 0, nth i Reference.three_lons 0) in
      nth_error counts i = Some (float_of_nat n) /\
      (0 <=? float_of_nat n) = true.
Proof.
  apply (count_near_counts Reference.flat_distance Reference.scan_tree
           Reference.scan_build Reference.three_lats Reference.three_lons
           None true 500 Reference.three_track).
  - reflexivity.
  - reflexivity.
Defined.

Lemma count_near_bounded_witness :
  exists counts,
    count_near Reference.flat_distance [32.5; 33.5] [-117.25; -116.25]
      Reference.two_track = (Ok counts, Reference.two_track) /\
    length counts = length Reference.two_lats /\
    Forall (fun c => (c <=? float_of_nat
                              (length (combine [32.5; 33.5] [-117.25; -116.25])))
                     = true) counts /\
    (length (combine [32.5; 33.5] [-117.25; -116.25]) = 0%nat ->
     counts = repeat 0 (length Reference.two_lats)).
Proof.
  apply (count_near_bounded Reference.flat_distance Reference.scan_tree
           Reference.scan_build Reference.two_lats Reference.two_lons
           (Some Reference.two_labels) false 500 Reference.two_track
           [32.5; 33.5] [-117.25; -116.25]).
  - reflexivity.
  - reflexivity.
Defined.

(** * Further properties of the code *)

(** ** More on binary64 *)

Module Arith64.

Lemma SFeqb_leb x y : SFeqb x y = true -> SFleb x y = true /\ SFleb y x = true.
Proof.
  unfold SFeqb, SFleb.
  F64.sf_cases x; F64.sf_cases y; simpl; try discriminate; auto;
    F64.cmp_cases; simpl; try discriminate; subst;
    rewrite ?Z.compare_refl, ?Pos.compare_refl; simpl; auto; lia.
Qed.

Lemma eqb_leb x y : (x =? y) = true -> (x <=? y) = true /\ (y <=? x) = true.
Proof. rewrite eqb_spec, !leb_spec. apply SFeqb_leb. Qed.

Lemma SFleb_ltb_false x y : SFleb y x = true -> SFltb x y = false.
Proof.
  unfold SFleb, SFltb.
  F64.sf_cases x; F64.sf_cases y; simpl; try discriminate; auto;
    F64.cmp_cases; simpl; try discriminate; auto; lia.
Qed.

Lemma leb_ltb_false x y : (y <=? x) = true -> (x <? y) = false.
Proof. rewrite leb_spec, ltb_spec. apply SFleb_ltb_false. Qed.

Lemma ltb_not_nan x y : (x <? y) = true -> is_nan x = false /\ is_nan y = false.
Proof. intros H. apply F64.leb_not_nan, F64.ltb_leb, H. Qed.

Lemma ltb_nan_r x y : is_nan y = true -> (x <? y) = false.
Proof.
  rewrite F64.is_nan_spec, ltb_spec. unfold SFltb.
  destruct (Prim2SF y); try discriminate. destruct (Prim2SF x); reflexivity.
Qed.

Local Open Scope Z_scope.

(** Rounding a positive mantissa gives a number, finite or infinite. *)
Lemma binary_round_aux_not_nan s m e l :
  0 < m -> emin <= e -> sf_nan (binary_round_aux prec emax s m e l) = false.
Proof.
  intros Hm He. unfold binary_round_aux.
  pose proof (Rounding.shr_fexp_pos m e l Hm He) as [H1 H2].
  destruct (shr_fexp prec emax m e l) as [mrs' e']. simpl in H1, H2.
  pose proof (Rounding.shr_fexp_pos _ e' loc_Exact
                (Rounding.round_nearest_even_pos _ (loc_of_shr_record mrs') H1) H2)
    as [H3 _].
  destruct (shr_fexp prec emax _ e' loc_Exact) as [mrs'' e'']. simpl in H3.
  destruct (shr_m mrs''); try lia.
  destruct (e'' <=? emax - prec); reflexivity.
Qed.

Lemma binary_normalize_not_nan m e sz :
  emin <= e -> sf_nan (binary_normalize prec emax m e sz) = false.
Proof.
  intros He. destruct m as [|p|p]; [reflexivity| |]; unfold binary_normalize, binary_round, shl_align;
    set (e' := fexp prec emax (Zpos (digits2_pos p) + e));
    assert (He' : emin <= e') by (unfold e', fexp; lia);
    destruct (e' - e); apply binary_round_aux_not_nan; lia.
Qed.

(** The difference of two finite numbers is a number. *)
Lemma SFsub_not_nan x y :
  valid_binary x = true -> valid_binary y = true ->
  sf_finite x = true -> sf_finite y = true ->
  sf_nan (SFsub prec emax x y) = false.
Proof.
  intros Vx Vy Fx Fy.
  destruct x as [sx|sx| |sx mx ex]; try discriminate;
    destruct y as [sy|sy| |sy my ey]; try discriminate.
  - destruct sx, sy; reflexivity.
  - reflexivity.
  - reflexivity.
  - simpl in Vx, Vy.
    apply Rounding.bounded_canonical in Vx as [_ Ex], Vy as [_ Ey].
    unfold SFsub. apply binary_normalize_not_nan. lia.
Qed.

Local Close Scope Z_scope.

Lemma sub_not_nan x y :
  is_finite x = true -> is_finite y = true -> is_nan (x - y) = false.
Proof.
  intros Fx Fy. rewrite F64.is_nan_spec, sub_spec.
  rewrite F64.is_finite_spec in Fx, Fy.
  apply SFsub_not_nan; auto using Prim2SF_valid.
Qed.

(** A zero divided by a number that is not zero is a zero. *)
Lemma div_zero_eqb x y :
  (x =? 0) = true -> (y =? 0) = false -> is_nan y = false -> (x / y =? 0) = true.
Proof.
  rewrite !eqb_spec, div_spec, F64.is_nan_spec.
  change (Prim2SF 0) with (S754_zero false). rewrite !Rounding.SFeqb_zero.
  destruct (Prim2SF x) as [sx|?| |? ? ?]; try discriminate.
  destruct (Prim2SF y) as [?|?| |? ? ?]; try discriminate; reflexivity.
Qed.

(** [abs x < t], for a positive number [t], is [-t < x < t]. *)
Lemma abs_ltb x t m e :
  Prim2SF t = S754_finite false m e ->
  (abs x <? t) = (x <? t) && (- t <? x).
Proof.
  intros Ht. rewrite !ltb_spec, abs_spec, opp_spec, Ht. unfold SFltb.
  F64.sf_cases (Prim2SF x); simpl; try reflexivity;
    F64.cmp_cases; simpl; try reflexivity; lia.
Qed.

(** The float of a count is 0 for no position and positive otherwise. *)
Lemma float_of_nat_sign n :
  (Z.of_nat n < 2 ^ 53)%Z ->
  (float_of_nat n =? 0) = (n =? 0)%nat /\ (0 <? float_of_nat n) = (0 <? n)%nat.
Proof.
  intros Hn. unfold float_of_nat.
  rewrite eqb_spec, ltb_spec, !of_uint63_spec, !Uint63.of_Z_spec.
  assert (Hwb : (2 ^ 53 < wB)%Z) by reflexivity.
  rewrite !Z.mod_small by lia.
  change (Prim2SF 0) with (S754_zero false).
  destruct n as [|n]; [split; reflexivity|].
  destruct (Z.of_nat (S n)) as [|p|p] eqn:E; try lia.
  unfold binary_normalize.
  rewrite Rounding.binary_round_int
    by (apply Rounding.digits2_pos_le; [exact Hn|unfold prec; lia]).
  split; reflexivity.
Qed.

End Arith64.

(** ** Segments: endpoints, horizontal and vertical segments *)

(** X1.  Both endpoints of a segment between finite points pass the
    bounding-box test of the segment. *)
Theorem valid_point_endpoints :
  forall a b c d : float,
    is_finite a = true -> is_finite b = true ->
    is_finite c = true -> is_finite d = true ->
    valid_point a b (line_seg a b c d) = true /\
    valid_point c d (line_seg a b c d) = true.
Proof.
  intros a b c d Fa Fb Fc Fd.
  destruct (line_seg_dom a b c d Fa Fc) as [(_ & D1 & D2) (_ & D3 & D4)].
  destruct (line_seg_rng a b c d Fb Fd) as [(_ & R1 & R2) (_ & R3 & R4)].
  unfold valid_point. rewrite D1, D2, D3, D4, R1, R2, R3, R4. split; reflexivity.
Qed.

Lemma valid_point_endpoints_witness :
  valid_point (-117.25) 32.5 (line_seg (-117.25) 32.5 (-116.25) 33.5) = true /\
  valid_point (-116.25) 33.5 (line_seg (-117.25) 32.5 (-116.25) 33.5) = true.
Proof. apply valid_point_endpoints; reflexivity. Defined.

(** X2.  On a segment between finite points of equal latitude and
    different longitudes the slope is a zero, and every point [(x, y)] is
    projected to [(x, y1)]. *)
Theorem horizontal_projection :
  forall a b c d x y : float,
    is_finite a = true -> is_finite b = true ->
    is_finite c = true -> is_finite d = true ->
    (a =? c) = false -> (b =? d) = true ->
    (slope (line_seg a b c d) =? 0) = true /\
    intersection_info x y (line_seg a b c d) = (x, b).
Proof.
  intros a b c d x y Fa Fb Fc Fd Hac Hbd.
  assert (Hs : (slope (line_seg a b c d) =? 0) = true).
  { rewrite line_seg_slope, Hac by assumption.
    apply Arith64.div_zero_eqb.
    - rewrite sub_eqb_zero by assumption. exact Hbd.
    - rewrite sub_eqb_zero by assumption. exact Hac.
    - apply Arith64.sub_not_nan; assumption. }
  split; [exact Hs|]. apply intersection_info_horizontal, Hs.
Qed.

Lemma horizontal_projection_witness :
  (slope (line_seg (-117.25) 32.5 (-116.25) 32.5) =? 0) = true /\
  intersection_info (-116.5) 32.75 (line_seg (-117.25) 32.5 (-116.25) 32.5)
  = (-116.5, 32.5).
Proof. apply horizontal_projection; reflexivity. Defined.

(** X3.  On a segment between finite points of equal longitude every
    point [(x, y)] is projected to [(x1, y)], and the projection passes the
    bounding-box test exactly when [y] lies in the range of the segment. *)
Theorem vertical_projection :
  forall a b c d x y : float,
    is_finite a = true -> is_finite b = true ->
    is_finite c = true -> is_finite d = true ->
    (a =? c) = true ->
    let s := line_seg a b c d in
    intersection_info x y s = (a, y) /\
    valid_point a y s = (fst (rng s) <=? y) && (y <=? snd (rng s)).
Proof.
  intros a b c d x y Fa Fb Fc Fd Hac s. split.
  - apply intersection_info_vertical. unfold s.
    rewrite line_seg_slope, Hac by assumption. reflexivity.
  - destruct (Arith64.eqb_leb a c Hac) as [H1 H2].
    unfold valid_point, s, line_seg. cbn [dom rng]. rewrite H1. cbn [fst snd].
    rewrite (F64.leb_refl a (F64.finite_not_nan a Fa)), H1. reflexivity.
Qed.

Lemma vertical_projection_witness :
  let s := line_seg (-116.25) 32.5 (-116.25) 33.5 in
  intersection_info (-116.5) 32.75 s = (-116.25, 32.75) /\
  valid_point (-116.25) 32.75 s = (fst (rng s) <=? 32.75) && (32.75 <=? snd (rng s)).
Proof.
  apply (vertical_projection (-116.25) 32.5 (-116.25) 33.5 (-116.5) 32.75);
    reflexivity.
Defined.

(** ** More on [get_closest_dist] *)

Section ClosestDistFacts.
Variable haversine : float -> float -> float -> float -> float.
Variable KDTree : Type.
Variable kd_build : list (float * float) -> option KDTree.
Variable kd_query : KDTree -> float -> float -> option nat.

Lemma projection_dist_nonneg wlats wlons lat lon i :
  distance_contract haversine ->
  Forall (fun v => is_finite v = true) wlats ->
  Forall (fun v => is_finite v = true) wlons ->
  is_finite lat = true -> is_finite lon = true ->
  Forall (fun d => (0 <=? d) = true)
         (projection_dist haversine lat lon (segment_at wlats wlons i)).
Proof.
  intros Hc Hla Hlo Flat Flon. unfold projection_dist.
  destruct (valid_point _ _ _) eqn:V; [|constructor].
  apply valid_point_finite in V; auto using nth_finite.
  destruct V as [Fx Fy]. constructor; [|constructor].
  apply Hc; assumption.
Qed.

Lemma candidates_nonneg wlats wlons segs lat lon idx :
  distance_contract haversine ->
  Forall (fun v => is_finite v = true) wlats ->
  Forall (fun v => is_finite v = true) wlons ->
  is_finite lat = true -> is_finite lon = true ->
  Forall (fun d => (0 <=? d) = true)
         (candidates haversine wlats wlons segs lat lon idx).
Proof.
  intros Hc Hla Hlo Flat Flon. unfold candidates. constructor.
  - apply Hc; auto using nth_finite.
  - destruct segs; [|constructor].
    apply Forall_flat_map, Forall_forall. intros s Hs.
    unfold candidate_segments in Hs. apply in_app_or in Hs.
    destruct Hs as [Hs|Hs];
      [destruct (0 <? idx)%nat|destruct (idx + 1 <? length wlats)%nat];
      cbn [In] in Hs; try contradiction;
      destruct Hs as [<-|Hs]; try contradiction;
      apply projection_dist_nonneg; assumption.
Qed.

(** X4.  For a finite query on a track of finite waypoints, with the
    lookup answering the index of a waypoint and a distance function that
    is non-negative on finite coordinates, the distance returned by
    [get_closest_dist] is non-negative, and on the track built with
    segments it is at most the one on the same track built without. *)
Theorem segments_never_increase_distance :
  forall wlats wlons wlabels td with_segs without lat lon idx,
    distance_contract haversine ->
    Forall (fun v => is_finite v = true) wlats ->
    Forall (fun v => is_finite v = true) wlons ->
    is_finite lat = true -> is_finite lon = true ->
    init kd_build wlats wlons wlabels true td = Ok with_segs ->
    init kd_build wlats wlons wlabels false td = Ok without ->
    kd_query (kdtree with_segs) lat lon = Some idx -> (idx < length wlats)%nat ->
    exists r r',
      get_closest_dist haversine kd_query lat lon with_segs = (Ok r, with_segs) /\
      get_closest_dist haversine kd_query lat lon without = (Ok r', without) /\
      (0 <=? r) = true /\ (r <=? r') = true.
Proof.
  intros wlats wlons wlabels td with_segs without lat lon idx
         Hc Hla Hlo Flat Flon Hw Hwo Hq Hidx.
  assert (Htree : kdtree without = kdtree with_segs).
  { pose proof (init_Ok _ kd_build _ _ _ _ _ _ Hw)
      as (_ & _ & _ & _ & B1 & _).
    pose proof (init_Ok _ kd_build _ _ _ _ _ _ Hwo)
      as (_ & _ & _ & _ & B2 & _).
    congruence. }
  assert (Hq' : kd_query (kdtree without) lat lon = Some idx)
    by (rewrite Htree; exact Hq).
  rewrite (get_closest_dist_run haversine KDTree kd_build kd_query
             wlats wlons wlabels true td with_segs lat lon idx Hw Hq Hidx).
  rewrite (get_closest_dist_run haversine KDTree kd_build kd_query
             wlats wlons wlabels false td without lat lon idx Hwo Hq' Hidx).
  set (projs := flat_map (projection_dist haversine lat lon)
                  (rev (candidate_segments wlats wlons idx))).
  set (dw := waypoint_dist haversine wlats wlons lat lon idx).
  pose proof (candidates_nonneg wlats wlons true lat lon idx
                Hc Hla Hlo Flat Flon) as Hpos.
  assert (Hds : Forall (fun d => (0 <=? d) = true) (projs ++ [dw])).
  { apply Forall_forall. intros d Hd.
    apply (code_order_candidates haversine wlats wlons true) in Hd.
    rewrite Forall_forall in Hpos. apply Hpos, Hd. }
  assert (Hnn : Forall (fun d => is_nan d = false) (projs ++ [dw])).
  { eapply Forall_impl; [|exact Hds]. intros d Hd. apply (F64.leb_not_nan 0 d Hd). }
  destruct (running_min_spec (projs ++ [dw]) Hnn infinity eq_refl)
    as (Hin & _ & Hall).
  rewrite fold_left_app in Hin, Hall. cbn [fold_left] in Hin, Hall.
  assert (Hdw : is_nan dw = false).
  { rewrite Forall_forall in Hnn. apply Hnn, in_or_app. right. left. reflexivity. }
  assert (Hr' : keep_least (fold_left keep_least [] infinity) dw = dw).
  { cbn [fold_left]. unfold keep_least.
    destruct (dw <? infinity) eqn:E; [reflexivity|].
    symmetry. apply F64.not_ltb_infinity; assumption. }
  eexists. eexists. split; [reflexivity|]. split; [reflexivity|]. split.
  - destruct Hin as [Hinf|Hin].
    + rewrite Hinf. reflexivity.
    + rewrite Forall_forall in Hds. apply Hds, Hin.
  - rewrite Hr'. rewrite Forall_forall in Hall.
    apply Hall, in_or_app. right. left. reflexivity.
Qed.

(** X5.  When the lookup answers an index that is not the index of a
    waypoint, as any lookup does on an empty track, [get_closest_dist]
    raises [IndexError] and leaves the track as it is. *)
Theorem closest_dist_index_error :
  forall wlats wlons wlabels segs td self lat lon idx,
    init kd_build wlats wlons wlabels segs td = Ok self ->
    kd_query (kdtree self) lat lon = Some idx -> (length wlats <= idx)%nat ->
    get_closest_dist haversine kd_query lat lon self = (Raise IndexError, self).
Proof.
  intros wlats wlons wlabels segs td self lat lon idx Hinit Hq Hidx.
  apply init_Ok in Hinit.
  destruct Hinit as (Hlen & _ & _ & Hpts & _ & _ & _ & _ & Hoff & Hon).
  assert (Hpnt : getitem (points self) idx = Raise IndexError).
  { unfold getitem. rewrite Hpts.
    rewrite (proj2 (nth_error_None _ _)); [reflexivity|].
    rewrite length_combine. lia. }
  unfold get_closest_dist, bind, attr, local, ret. rewrite Hq. cbn [library].
  destruct segs.
  - destruct (Hon eq_refl) as (HN & l & Hs & Hl & _). rewrite Hs.
    rewrite Hpts, length_combine, <- Hlen, Nat.min_id.
    replace (Z.of_nat idx <? Z.of_nat (length wlats) - 1)%Z with false
      by (symmetry; apply Z.ltb_ge; lia).
    replace (Z.of_nat idx >? 0)%Z with true
      by (symmetry; rewrite Z.gtb_ltb; apply Z.ltb_lt; lia).
    unfold getitem at 1.
    rewrite (proj2 (nth_error_None l (idx - 1))) by lia. reflexivity.
  - rewrite (Hoff eq_refl), Hpnt. reflexivity.
Qed.

End ClosestDistFacts.

Lemma segments_never_increase_distance_witness :
  exists r r',
    get_closest_dist Reference.flat_distance Reference.scan_query 32.75 (-116.5)
      Reference.three_track = (Ok r, Reference.three_track) /\
    get_closest_dist Reference.flat_distance Reference.scan_query 32.75 (-116.5)
      Reference.three_plain = (Ok r', Reference.three_plain) /\
    (0 <=? r) = true /\ (r <=? r') = true.
Proof.
  apply (segments_never_increase_distance Reference.flat_distance
           Reference.scan_tree Reference.scan_build Reference.scan_query
           Reference.three_lats Reference.three_lons None 500
           Reference.three_track Reference.three_plain 32.75 (-116.5) 1).
  - exact flat_distance_contract.
  - repeat constructor.
  - repeat constructor.
  - reflexivity.
  - reflexivity.
  - reflexivity.
  - reflexivity.
  - reflexivity.
  - cbn. lia.
Defined.

Lemma closest_dist_index_error_witness :
  get_closest_dist Reference.flat_distance Reference.scan_query 32.75 (-116.5)
    Reference.empty_track = (Raise IndexError, Reference.empty_track).
Proof.
  apply (closest_dist_index_error Reference.flat_distance Reference.scan_tree
           Reference.scan_build Reference.scan_query
           [] [] None false 0 Reference.empty_track 32.75 (-116.5) 0).
  - reflexivity.
  - reflexivity.
  - cbn. lia.
Defined.

(** ** More on [count_near] *)

Section CountFacts.
Variable haversine : float -> float -> float -> float -> float.
Variable KDTree : Type.
Variable kd_build : list (float * float) -> option KDTree.

Lemma filter_length_mono {A} (f g : A -> bool) (l : list A) :
  (forall x, In x l -> f x = true -> g x = true) ->
  (length (filter f l) <= length (filter g l))%nat.
Proof.
  induction l as [|a l IH]; intros H; cbn [filter]; [lia|].
  assert (IH' : (length (filter f l) <= length (filter g l))%nat).
  { apply IH. intros x Hx. apply H. right. exact Hx. }
  destruct (f a) eqn:Fa.
  - rewrite (H a (or_introl eq_refl) Fa). cbn [length]. lia.
  - destruct (g a); cbn [length]; lia.
Qed.

Lemma near_mono td td' w p :
  (td <=? td') = true ->
  near haversine td w p = true -> near haversine td' w p = true.
Proof. unfold near. intros Ht H. eapply F64.leb_trans; eassumption. Qed.

(** X6.  Raising the threshold never lowers a counter: on two tracks built
    from the same waypoints with thresholds [td <= td'], every counter of
    [count_near] for a batch is at most the counter of the same waypoint
    under the larger threshold. *)
Theorem count_near_threshold_monotone :
  forall wlats wlons wlabels segs td td' self self' p_lats p_lons,
    init kd_build wlats wlons wlabels segs td = Ok self ->
    init kd_build wlats wlons wlabels segs td' = Ok self' ->
    (td <=? td') = true ->
    (Z.of_nat (length (combine p_lats p_lons)) < 2 ^ 53)%Z ->
    exists counts counts',
      count_near haversine p_lats p_lons self = (Ok counts, self) /\
      count_near haversine p_lats p_lons self' = (Ok counts', self') /\
      length counts = length wlats /\ length counts' = length wlats /\
      forall i c c',
        nth_error counts i = Some c -> nth_error counts' i = Some c' ->
        (c <=? c') = true.
Proof.
  intros wlats wlons wlabels segs td td' self self' p_lats p_lons
         Hinit Hinit' Ht HM.
  rewrite (count_near_run haversine KDTree kd_build
             wlats wlons wlabels segs td self p_lats p_lons Hinit HM).
  rewrite (count_near_run haversine KDTree kd_build
             wlats wlons wlabels segs td' self' p_lats p_lons Hinit' HM).
  apply init_Ok in Hinit. destruct Hinit as (Hlen & _).
  assert (HN : length (combine wlats wlons) = length wlats)
    by (rewrite length_combine, <- Hlen, Nat.min_id; reflexivity).
  eexists. eexists. split; [reflexivity|]. split; [reflexivity|].
  rewrite !length_map. split; [exact HN|]. split; [exact HN|].
  intros i c c'. rewrite !nth_error_map.
  destruct (nth_error (combine wlats wlons) i) as [w|]; cbn [option_map];
    [|discriminate].
  intros [= <-] [= <-]. apply float_of_nat_le.
  - apply filter_length_mono. intros p _. apply near_mono, Ht.
  - pose proof (near_count_le haversine td' (combine p_lats p_lons) w). lia.
Qed.

Lemma near_nan td w p :
  nan_contract haversine ->
  is_nan (fst p) || is_nan (snd p) = true -> near haversine td w p = false.
Proof.
  intros Hc Hp. unfold near. apply F64.leb_nan_l, Hc.
  apply orb_true_iff in Hp. exact Hp.
Qed.

(** The positions with a recorded latitude and longitude. *)
Lemma near_count_recorded td batch w :
  nan_contract haversine ->
  near_count haversine td
    (filter (fun p => negb (is_nan (fst p) || is_nan (snd p))) batch) w
  = near_count haversine td batch w.
Proof.
  intros Hc. unfold near_count.
  induction batch as [|p batch IH]; cbn [filter]; [reflexivity|].
  destruct (is_nan (fst p) || is_nan (snd p)) eqn:E; cbn [negb filter].
  - rewrite (near_nan td w p Hc E). exact IH.
  - destruct (near haversine td w p); cbn [length]; rewrite IH; reflexivity.
Qed.

Lemma combine_fst_snd {A B} (l : list (A * B)) :
  combine (map fst l) (map snd l) = l.
Proof.
  induction l as [|[a b] l IH]; cbn; [reflexivity|]. rewrite IH. reflexivity.
Qed.

(** X7.  With a distance function that is NaN for a NaN position, the
    positions of a batch with a NaN latitude or longitude (particles
    without a recorded position) count for no waypoint: [count_near]
    returns for the batch what it returns for its recorded positions. *)
Theorem count_near_skips_nan :
  forall wlats wlons wlabels segs td self p_lats p_lons,
    nan_contract haversine ->
    init kd_build wlats wlons wlabels segs td = Ok self ->
    (Z.of_nat (length (combine p_lats p_lons)) < 2 ^ 53)%Z ->
    let recorded := filter (fun p => negb (is_nan (fst p) || is_nan (snd p)))
                      (combine p_lats p_lons) in
    count_near haversine p_lats p_lons self
    = count_near haversine (map fst recorded) (map snd recorded) self.
Proof.
  intros wlats wlons wlabels segs td self p_lats p_lons Hc Hinit HM recorded.
  rewrite (count_near_run haversine KDTree kd_build
             wlats wlons wlabels segs td self p_lats p_lons Hinit HM).
  rewrite (count_near_run haversine KDTree kd_build
             wlats wlons wlabels segs td self (map fst recorded) (map snd recorded)
             Hinit).
  - rewrite combine_fst_snd. f_equal. f_equal. apply map_ext. intros w.
    unfold recorded. rewrite near_count_recorded by exact Hc. reflexivity.
  - rewrite combine_fst_snd. unfold recorded.
    pose proof (filter_length_le
                  (fun p => negb (is_nan (fst p) || is_nan (snd p)))
                  (combine p_lats p_lons)). lia.
Qed.

Lemma near_count_app td b1 b2 w :
  near_count haversine td (b1 ++ b2) w
  = (near_count haversine td b1 w + near_count haversine td b2 w)%nat.
Proof. unfold near_count. rewrite filter_app, length_app. reflexivity. Qed.

(** X8.  Counting is additive over batches: for two batches of positions,
    each given by as many latitudes as longitudes, the counter of a
    waypoint for the concatenated batch holds the sum of the two numbers of
    near positions, the numbers that the counters of the two batches hold. *)
Theorem count_near_additive :
  forall wlats wlons wlabels segs td self lats1 lons1 lats2 lons2,
    init kd_build wlats wlons wlabels segs td = Ok self ->
    length lats1 = length lons1 ->
    (Z.of_nat (length lats1 + length (combine lats2 lons2)) < 2 ^ 53)%Z ->
    exists n1 n2 : list nat,
      length n1 = length wlats /\ length n2 = length wlats /\
      fst (count_near haversine lats1 lons1 self) = Ok (map float_of_nat n1) /\
      fst (count_near haversine lats2 lons2 self) = Ok (map float_of_nat n2) /\
      fst (count_near haversine (lats1 ++ lats2) (lons1 ++ lons2) self)
      = Ok (map (fun n => float_of_nat (fst n + snd n)) (combine n1 n2)).
Proof.
  intros wlats wlons wlabels segs td self lats1 lons1 lats2 lons2 Hinit Hl HM.
  assert (Hc : combine (lats1 ++ lats2) (lons1 ++ lons2)
               = combine lats1 lons1 ++ combine lats2 lons2).
  { clear HM. revert lons1 Hl. induction lats1 as [|a l IH]; intros [|b l'] Hl;
      cbn in *; try discriminate; [reflexivity|].
    rewrite IH by lia. reflexivity. }
  assert (H1 : length (combine lats1 lons1) = length lats1)
    by (rewrite length_combine, <- Hl, Nat.min_id; reflexivity).
  rewrite (count_near_run haversine KDTree kd_build
             wlats wlons wlabels segs td self lats1 lons1 Hinit) by lia.
  rewrite (count_near_run haversine KDTree kd_build
             wlats wlons wlabels segs td self lats2 lons2 Hinit) by lia.
  rewrite (count_near_run haversine KDTree kd_build
             wlats wlons wlabels segs td self (lats1 ++ lats2) (lons1 ++ lons2) Hinit)
    by (rewrite Hc, length_app; lia).
  apply init_Ok in Hinit. destruct Hinit as (Hlen & _).
  assert (HN : length (combine wlats wlons) = length wlats)
    by (rewrite length_combine, <- Hlen, Nat.min_id; reflexivity).
  exists (map (near_count haversine td (combine lats1 lons1)) (combine wlats wlons)).
  exists (map (near_count haversine td (combine lats2 lons2)) (combine wlats wlons)).
  rewrite !length_map. split; [exact HN|]. split; [exact HN|]. cbn [fst].
  rewrite !map_map. split; [reflexivity|]. split; [reflexivity|].
  f_equal. rewrite Hc. clear.
  induction (combine wlats wlons) as [|w l IH]; cbn [map combine fst snd];
    [reflexivity|].
  rewrite near_count_app. f_equal. exact IH.
Qed.

End CountFacts.

Lemma count_near_threshold_monotone_witness :
  exists counts counts',
    count_near Reference.flat_distance [32.5; 32.5; 33.5; nan]
      [-117.25; -116.25; -116.25; 0] Reference.one_track
    = (Ok counts, Reference.one_track) /\
    count_near Reference.flat_distance [32.5; 32.5; 33.5; nan]
      [-117.25; -116.25; -116.25; 0] Reference.one_wide
    = (Ok counts', Reference.one_wide) /\
    length counts = 1%nat /\ length counts' = 1%nat /\
    forall i c c',
      nth_error counts i = Some c -> nth_error counts' i = Some c' ->
      (c <=? c') = true.
Proof.
  apply (count_near_threshold_monotone Reference.flat_distance Reference.scan_tree
           Reference.scan_build [32.5] [-117.25] None true 0 200000
           Reference.one_track Reference.one_wide);
    reflexivity.
Defined.

Lemma count_near_skips_nan_witness :
  count_near Reference.flat_distance [32.5; nan; 33.5; 32.5]
    [-117.25; -116.25; nan; -116.25] Reference.three_track
  = count_near Reference.flat_distance [32.5; 32.5] [-117.25; -116.25]
      Reference.three_track.
Proof.
  apply (count_near_skips_nan Reference.flat_distance Reference.scan_tree
           Reference.scan_build Reference.three_lats Reference.three_lons
           None true 500 Reference.three_track
           [32.5; nan; 33.5; 32.5] [-117.25; -116.25; nan; -116.25]).
  - exact flat_distance_nan_contract.
  - reflexivity.
  - reflexivity.
Defined.

Lemma count_near_additive_witness :
  exists n1 n2 : list nat,
    length n1 = length Reference.three_lats /\
    length n2 = length Reference.three_lats /\
    fst (count_near Reference.flat_distance [32.5; 32.5] [-117.25; -116.25]
           Reference.three_track) = Ok (map float_of_nat n1) /\
    fst (count_near Reference.flat_distance [32.5] [-117.25]
           Reference.three_track) = Ok (map float_of_nat n2) /\
    fst (count_near Reference.flat_distance ([32.5; 32.5] ++ [32.5])
           ([-117.25; -116.25] ++ [-117.25]) Reference.three_track)
    = Ok (map (fun n => float_of_nat (fst n + snd n)) (combine n1 n2)).
Proof.
  apply (count_near_additive Reference.flat_distance Reference.scan_tree
           Reference.scan_build Reference.three_lats Reference.three_lons
           None true 500 Reference.three_track);
    reflexivity.
Defined.

(** ** numpy orders and reductions *)

#[export] Instance float64_order : ScalarOrder float.
Proof.
  split; cbn [isnan sle slt float64].
  - exact F64.leb_refl.
  - exact F64.leb_trans.
  - exact F64.leb_false_ge.
  - exact F64.leb_not_nan.
  - exact F64.leb_total.
  - exact Arith64.leb_ltb_false.
  - exact Arith64.ltb_not_nan.
Qed.

#[export] Instance datetime_order : ScalarOrder datetime64.
Proof.
  split; cbn [isnan sle slt datetime].
  - intros [|x] H; [discriminate|]. apply Z.leb_refl.
  - intros [|x] [|y] [|z]; try discriminate. intros H1 H2.
    apply Z.leb_le in H1, H2. apply Z.leb_le. lia.
  - intros [|x] [|y]; try discriminate. intros _ _ H.
    apply Z.leb_gt in H. apply Z.leb_le. lia.
  - intros [|x] [|y]; try discriminate. auto.
  - intros [|x] [|y]; try discriminate. intros _ _ H.
    apply Z.ltb_ge in H. apply Z.leb_le. lia.
  - intros [|x] [|y]; try reflexivity. intros H.
    apply Z.leb_le in H. apply Z.ltb_ge. lia.
  - intros [|x] [|y]; try discriminate. auto.
Qed.

Section Reductions.
Context {T : Type} `{ScalarOrder T}.

(** The two kinds of reduction, for an order [r] that is [<=] for a
    minimum and [>=] for a maximum. *)
Section WithOrder.
Variable r : T -> T -> bool.
Hypothesis r_trans : forall a b c, r a b = true -> r b c = true -> r a c = true.
Hypothesis r_total : forall a b, isnan a = false -> isnan b = false ->
                                 r a b = false -> r b a = true.
Hypothesis r_number : forall a b, r a b = true -> isnan a = false /\ isnan b = false.
Hypothesis r_refl : forall a, isnan a = false -> r a a = true.

(** A reduction that drops NaN ends on a NaN only when every element is
    one, and otherwise on an element that is first in the order among the
    numbers. *)
Lemma fold_drop_nan rest :
  forall x,
    let lo := fold_left (fun a b => if r a b || isnan b then a else b) rest x in
    (isnan lo = true -> Forall (fun v => isnan v = true) (x :: rest)) /\
    (isnan lo = false ->
     In lo (x :: rest) /\
     forall v, In v (x :: rest) -> isnan v = false -> r lo v = true).
Proof.
  induction rest as [|y rest IH]; intros x; cbn [fold_left].
  - split.
    + intros Hx. constructor; [exact Hx|constructor].
    + intros Hx. split; [left; reflexivity|].
      intros v [<-|[]] _. apply r_refl, Hx.
  - destruct (r x y) eqn:Rxy; cbn [orb].
    + destruct (r_number _ _ Rxy) as [Nx Ny].
      destruct (IH x) as [IH1 IH2]. split.
      * intros Hlo. specialize (IH1 Hlo). inversion IH1; congruence.
      * intros Hlo. destruct (IH2 Hlo) as [Hin Hle]. split.
        -- destruct Hin as [<-|Hin]; [left; reflexivity|right; right; exact Hin].
        -- intros v [<-|[<-|Hv]] Nv.
           ++ apply Hle; [left; reflexivity|exact Nv].
           ++ apply (r_trans _ x); [|exact Rxy].
              apply Hle; [left; reflexivity|exact Nx].
           ++ apply Hle; [right; exact Hv|exact Nv].
    + destruct (isnan y) eqn:Ny.
      * destruct (IH x) as [IH1 IH2]. split.
        -- intros Hlo. specialize (IH1 Hlo). inversion IH1; subst.
           repeat constructor; assumption.
        -- intros Hlo. destruct (IH2 Hlo) as [Hin Hle]. split.
           ++ destruct Hin as [<-|Hin]; [left; reflexivity|right; right; exact Hin].
           ++ intros v [<-|[<-|Hv]] Nv.
              ** apply Hle; [left; reflexivity|exact Nv].
              ** congruence.
              ** apply Hle; [right; exact Hv|exact Nv].
      * destruct (IH y) as [IH1 IH2]. split.
        -- intros Hlo. specialize (IH1 Hlo). inversion IH1; congruence.
        -- intros Hlo. destruct (IH2 Hlo) as [Hin Hle]. split.
           ++ right. exact Hin.
           ++ intros v [<-|[<-|Hv]] Nv.
              ** apply (r_trans _ y).
                 --- apply Hle; [left; reflexivity|exact Ny].
                 --- apply r_total; assumption.
              ** apply Hle; [left; reflexivity|exact Nv].
              ** apply Hle; [right; exact Hv|exact Nv].
Qed.

(** A reduction that keeps NaN, over numbers only, ends on an element
    that is first in the order. *)
Lemma fold_keep_nan rest :
  forall x,
    Forall (fun v => isnan v = false) (x :: rest) ->
    let lo := fold_left (fun a b => if r a b || isnan a then a else b) rest x in
    In lo (x :: rest) /\ forall v, In v (x :: rest) -> r lo v = true.
Proof.
  induction rest as [|y rest IH]; intros x Hall; cbn [fold_left].
  - inversion Hall; subst. split; [left; reflexivity|].
    intros v [<-|[]]. apply r_refl. assumption.
  - inversion Hall as [|? ? Nx Hrest]; subst.
    inversion Hrest as [|? ? Ny Hrest']; subst.
    rewrite Nx, orb_false_r. destruct (r x y) eqn:Rxy.
    + destruct (IH x) as [Hin Hle]; [constructor; assumption|]. split.
      * destruct Hin as [<-|Hin]; [left; reflexivity|right; right; exact Hin].
      * intros v [<-|[<-|Hv]].
        -- apply Hle. left. reflexivity.
        -- apply (r_trans _ x); [apply Hle; left; reflexivity|exact Rxy].
        -- apply Hle. right. exact Hv.
    + destruct (IH y) as [Hin Hle]; [exact Hrest|]. split.
      * right. exact Hin.
      * intros v [<-|[<-|Hv]].
        -- apply (r_trans _ y); [apply Hle; left; reflexivity|].
           apply r_total; assumption.
        -- apply Hle. left. reflexivity.
        -- apply Hle. right. exact Hv.
Qed.

End WithOrder.

Lemma ge_trans (a b c : T) : sle b a = true -> sle c b = true -> sle c a = true.
Proof. intros H1 H2. eapply sle_trans; eassumption. Qed.

Lemma ge_total (a b : T) :
  isnan a = false -> isnan b = false -> sle b a = false -> sle a b = true.
Proof. intros Na Nb. apply sle_total; assumption. Qed.

Lemma ge_number (a b : T) : sle b a = true -> isnan a = false /\ isnan b = false.
Proof. intros Hab. destruct (sle_number _ _ Hab). split; assumption. Qed.

(** One test of [add_grid] passes exactly when the grid covers the
    numbers among the values, and fails with its own message otherwise. *)
Lemma check_bounds_spec msg (values coords : list T) :
  values <> [] -> coords <> [] ->
  Forall (fun g => isnan g = false) coords ->
  (Result.check_bounds msg values coords = Ok tt <-> covered coords values) /\
  (Result.check_bounds msg values coords = Ok tt \/
   Result.check_bounds msg values coords = Raise (ValueError msg)).
Proof.
  intros Hv Hc Hnum.
  destruct values as [|x rest]; [contradiction|].
  destruct coords as [|g gs]; [contradiction|].
  unfold Result.check_bounds, np_nanmin, np_nanmax, ndarray_min, ndarray_max,
    reduce, np_fmin, np_fmax, np_minimum, np_maximum. cbn [rbind].
  destruct (fold_drop_nan sle sle_trans sle_total sle_number sle_refl rest x)
    as [Lnan Lnum].
  destruct (fold_drop_nan (fun a b => sle b a) ge_trans ge_total ge_number
              sle_refl rest x) as [Hnan Hnum'].
  destruct (fold_keep_nan sle sle_trans sle_total sle_refl gs g Hnum)
    as [Glo_in Glo_le].
  destruct (fold_keep_nan (fun a b => sle b a) ge_trans ge_total sle_refl gs g Hnum)
    as [Ghi_in Ghi_le].
  cbv zeta in *.
  set (lo := fold_left (fun a b => if sle a b || isnan b then a else b) rest x) in *.
  set (hi := fold_left (fun a b => if sle b a || isnan b then a else b) rest x) in *.
  set (glo := fold_left (fun a b => if sle a b || isnan a then a else b) gs g) in *.
  set (ghi := fold_left (fun a b => if sle b a || isnan a then a else b) gs g) in *.
  assert (Hlow : slt lo glo = false ->
                 forall v, In v (x :: rest) -> isnan v = false ->
                           exists c, In c (g :: gs) /\ sle c v = true).
  { intros Hs v Hin Nv. exists glo. split; [exact Glo_in|].
    destruct (isnan lo) eqn:Nlo.
    - specialize (Lnan eq_refl). rewrite Forall_forall in Lnan.
      rewrite (Lnan v Hin) in Nv. discriminate.
    - destruct (Lnum eq_refl) as [_ Hle].
      apply (sle_trans _ lo); [|apply Hle; assumption].
      apply slt_total; [exact Nlo| |exact Hs].
      rewrite Forall_forall in Hnum. apply Hnum, Glo_in. }
  assert (Hhigh : slt ghi hi = false ->
                  forall v, In v (x :: rest) -> isnan v = false ->
                            exists c, In c (g :: gs) /\ sle v c = true).
  { intros Hs v Hin Nv. exists ghi. split; [exact Ghi_in|].
    destruct (isnan hi) eqn:Nhi.
    - specialize (Hnan eq_refl). rewrite Forall_forall in Hnan.
      rewrite (Hnan v Hin) in Nv. discriminate.
    - destruct (Hnum' eq_refl) as [_ Hle].
      apply (sle_trans _ hi); [apply Hle; assumption|].
      apply slt_total; [|exact Nhi|exact Hs].
      rewrite Forall_forall in Hnum. apply Hnum, Ghi_in. }
  assert (Hnot_low : slt lo glo = true -> ~ covered (g :: gs) (x :: rest)).
  { intros Hs Hcov. destruct (slt_number _ _ Hs) as [Nlo _].
    destruct (Lnum Nlo) as [Hin _].
    destruct (Hcov lo Hin Nlo) as [(c & Hc' & Hle) _].
    assert (Hg : sle glo lo = true)
      by (apply (sle_trans _ c); [apply Glo_le, Hc'|exact Hle]).
    rewrite (slt_sle _ _ Hg) in Hs. discriminate. }
  assert (Hnot_high : slt ghi hi = true -> ~ covered (g :: gs) (x :: rest)).
  { intros Hs Hcov. destruct (slt_number _ _ Hs) as [_ Nhi].
    destruct (Hnum' Nhi) as [Hin _].
    destruct (Hcov hi Hin Nhi) as [_ (c & Hc' & Hle)].
    assert (Hg : sle hi ghi = true)
      by (apply (sle_trans _ c); [exact Hle|apply Ghi_le, Hc']).
    rewrite (slt_sle _ _ Hg) in Hs. discriminate. }
  destruct (slt lo glo) eqn:S1.
  - split; [|right; reflexivity].
    split; [discriminate|]. intros Hcov. exfalso. exact (Hnot_low eq_refl Hcov).
  - cbn [rbind]. destruct (slt ghi hi) eqn:S2.
    + split; [|right; reflexivity].
      split; [discriminate|]. intros Hcov. exfalso. exact (Hnot_high eq_refl Hcov).
    + split; [|left; reflexivity].
      split; [|reflexivity]. intros _ v Hin Nv. split; auto.
Qed.

End Reductions.

(** ** [ParticleResult]: [add_grid] and [get_time] *)

Section ResultFacts.
Variable KDTree : Type.
Variable HFRGrid : Type.
Variable get_coords : HFRGrid -> list datetime64 * list float * list float.
Variable Dataset : Type.

(** What [add_grid] computes: the grid is stored first, then the three
    tests run in turn. *)
Lemma add_grid_run (g : HFRGrid) (self : Result.ParticleResult KDTree HFRGrid Dataset) gtimes glats glons :
  get_coords g = (gtimes, glats, glons) ->
  Result.add_grid get_coords g self
  = ((_ <- Result.check_bounds Result.time_msg (ravel (Result.times self)) gtimes ;;
      _ <- Result.check_bounds Result.lat_msg (ravel (Result.lats self)) glats ;;
      Result.check_bounds Result.lon_msg (ravel (Result.lons self)) glons)%result,
     Result.set_grid KDTree HFRGrid Dataset g self).
Proof.
  intros Hg. unfold Result.add_grid, sbind, modify, gets, lift. rewrite Hg.
  cbn [Result.set_grid Result.times Result.lats Result.lons].
  destruct (Result.check_bounds Result.time_msg _ gtimes) as [[]|e];
    cbn [rbind]; [|reflexivity].
  destruct (Result.check_bounds Result.lat_msg _ glats) as [[]|e];
    cbn [rbind]; reflexivity.
Qed.

(** X9.  [add_grid] stores the grid before it tests it: whether it returns
    or raises, the object afterwards holds the grid it was given, and all
    its other attributes are as before. *)
Theorem add_grid_keeps_grid :
  forall (g : HFRGrid) (self : Result.ParticleResult KDTree HFRGrid Dataset),
    let after := snd (Result.add_grid get_coords g self) in
    Result.grid after = Some g /\
    Result.path after = Result.path self /\
    Result.xrds after = Result.xrds self /\
    Result.lats after = Result.lats self /\
    Result.lons after = Result.lons self /\
    Result.traj after = Result.traj self /\
    Result.times after = Result.times self /\
    Result.lifetimes after = Result.lifetimes self /\
    Result.spawntimes after = Result.spawntimes self /\
    Result.plot_features after = Result.plot_features self.
Proof.
  intros g self after. unfold after.
  destruct (get_coords g) as [[gtimes glats] glons] eqn:Hg.
  rewrite (add_grid_run g self gtimes glats glons Hg). cbn. repeat split.
Qed.

(** X10.  For a grid with at least one coordinate on each axis, none of
    them NaN or NaT, and particle arrays that are not empty, [add_grid]
    returns exactly when every recorded time, latitude and longitude of the
    particles lies between two coordinates of the grid on its axis;
    otherwise it raises a [ValueError] with one of its three messages. *)
Theorem add_grid_in_bounds :
  forall (g : HFRGrid) (self : Result.ParticleResult KDTree HFRGrid Dataset) gtimes glats glons,
    get_coords g = (gtimes, glats, glons) ->
    gtimes <> [] -> glats <> [] -> glons <> [] ->
    Forall (fun v => isnan v = false) gtimes ->
    Forall (fun v => isnan v = false) glats ->
    Forall (fun v => isnan v = false) glons ->
    ravel (Result.times self) <> [] ->
    ravel (Result.lats self) <> [] ->
    ravel (Result.lons self) <> [] ->
    (fst (Result.add_grid get_coords g self) = Ok tt <->
     covered gtimes (ravel (Result.times self)) /\
     covered glats (ravel (Result.lats self)) /\
     covered glons (ravel (Result.lons self))) /\
    (fst (Result.add_grid get_coords g self) = Ok tt \/
     exists msg, In msg [Result.time_msg; Result.lat_msg; Result.lon_msg] /\
                 fst (Result.add_grid get_coords g self) = Raise (ValueError msg)).
Proof.
  intros g self gtimes glats glons Hg Et Ela Elo Nt Nla Nlo Vt Vla Vlo.
  rewrite (add_grid_run g self gtimes glats glons Hg). cbn [fst].
  destruct (check_bounds_spec Result.time_msg _ gtimes Vt Et Nt) as [T1 T2].
  destruct (check_bounds_spec Result.lat_msg _ glats Vla Ela Nla) as [A1 A2].
  destruct (check_bounds_spec Result.lon_msg _ glons Vlo Elo Nlo) as [O1 O2].
  destruct T2 as [T2|T2]; rewrite T2 in *; cbn [rbind].
  - destruct A2 as [A2|A2]; rewrite A2 in *; cbn [rbind].
    + destruct O2 as [O2|O2]; rewrite O2 in *.
      * split; [|left; reflexivity].
        split; [intros _|reflexivity].
        split; [apply T1; reflexivity|].
        split; [apply A1; reflexivity|apply O1; reflexivity].
      * split.
        -- split; [discriminate|]. intros (_ & _ & H). apply O1 in H. discriminate.
        -- right. exists Result.lon_msg. cbn. auto.
    + split.
      * split; [discriminate|]. intros (_ & H & _). apply A1 in H. discriminate.
      * right. exists Result.lat_msg. cbn. auto.
  - split.
    + split; [discriminate|]. intros (H & _). apply T1 in H. discriminate.
    + right. exists Result.time_msg. cbn. auto.
Qed.

(** X11.  On a result without a single time value (no particle or no time
    step) [add_grid] raises the [ValueError] of [np.nanmin], the reduction
    with [fmin], over an empty array, whatever the grid is: none of its own
    three messages. *)
Theorem add_grid_no_data :
  forall (g : HFRGrid) (self : Result.ParticleResult KDTree HFRGrid Dataset),
    ravel (Result.times self) = [] ->
    fst (Result.add_grid get_coords g self)
    = Raise (ValueError
        "zero-size array to reduction operation fmin which has no identity").
Proof.
  intros g self Hempty.
  destruct (get_coords g) as [[gtimes glats] glons] eqn:Hg.
  rewrite (add_grid_run g self gtimes glats glons Hg). cbn [fst].
  unfold Result.check_bounds at 1, np_nanmin, reduce. rewrite Hempty. reflexivity.
Qed.

(** *** Columns *)

Lemma axis_index_in_range size t :
  (- Z.of_nat size <= t < Z.of_nat size)%Z ->
  axis_index size t
  = Ok (Z.to_nat (if (t <? 0)%Z then t + Z.of_nat size else t)) /\
  (Z.to_nat (if (t <? 0)%Z then t + Z.of_nat size else t) < size)%nat.
Proof.
  intros Ht. unfold axis_index.
  replace (t <? - Z.of_nat size)%Z with false by (symmetry; apply Z.ltb_ge; lia).
  replace (Z.of_nat size <=? t)%Z with false by (symmetry; apply Z.leb_gt; lia).
  split; [reflexivity|]. destruct (Z.ltb_spec t 0); lia.
Qed.

Lemma axis_index_out_of_range size t :
  (t < - Z.of_nat size \/ Z.of_nat size <= t)%Z ->
  axis_index size t = Raise IndexError.
Proof.
  intros Ht. unfold axis_index.
  destruct (Z.ltb_spec t (- Z.of_nat size)); [reflexivity|].
  destruct (Z.leb_spec (Z.of_nat size) t); [reflexivity|lia].
Qed.

Lemma take_column_rectangular {A} (rs : list (list A)) n j :
  Forall (fun r => length r = n) rs -> (j < n)%nat ->
  exists col,
    take_column rs j = Ok col /\
    Forall2 (fun r v => nth_error r j = Some v) rs col.
Proof.
  intros Hrect Hj. induction Hrect as [|r rs Hr _ IH]; cbn [take_column].
  - exists []. split; [reflexivity|constructor].
  - destruct IH as (col & Hcol & Hall).
    destruct (nth_error r j) as [v|] eqn:E.
    + exists (v :: col). unfold getitem. rewrite E, Hcol. cbn [rbind].
      split; [reflexivity|]. constructor; assumption.
    + apply nth_error_None in E. lia.
Qed.

Lemma mask_index_filter {A} (f : A -> bool) (l : list A) :
  mask_index l (map f l) = Ok (filter f l).
Proof.
  unfold mask_index. rewrite length_map, Nat.eqb_refl. f_equal.
  induction l as [|a l IH]; cbn [map combine filter snd]; [reflexivity|].
  destruct (f a); cbn [map fst]; rewrite IH; reflexivity.
Qed.

Lemma Forall2_nth_l {A B} (R : A -> B -> Prop) l l' i a :
  Forall2 R l l' -> nth_error l i = Some a ->
  exists b, nth_error l' i = Some b /\ R a b.
Proof.
  intros H. revert i. induction H as [|x y l l' Hxy _ IH]; intros [|i] Hi;
    cbn in *; try discriminate.
  - injection Hi as <-. exists y. auto.
  - apply IH, Hi.
Qed.

Lemma Forall2_nth_r {A B} (R : A -> B -> Prop) l l' i b :
  Forall2 R l l' -> nth_error l' i = Some b ->
  exists a, nth_error l i = Some a /\ R a b.
Proof.
  intros H. revert i. induction H as [|x y l l' Hxy _ IH]; intros [|i] Hi;
    cbn in *; try discriminate.
  - injection Hi as <-. exists x. auto.
  - apply IH, Hi.
Qed.

(** The first recorded time of a column. *)
Lemma first_recorded (col : list datetime64) :
  let non_nat := filter (fun v => negb (isnan v)) col in
  let r := match non_nat with [] => NaT | v :: _ => v end in
  ((forall v, In v col -> v = NaT) -> r = NaT) /\
  (forall k ns, nth_error col k = Some (Time ns) ->
                (forall i, (i < k)%nat -> nth_error col i = Some NaT) ->
                r = Time ns).
Proof.
  induction col as [|v col IH]; cbn [filter].
  - split; [reflexivity|]. intros [|k] ns H; discriminate.
  - destruct IH as [IH1 IH2]. destruct v as [|ns0]; cbn [isnan datetime negb].
    + split.
      * intros Hall. apply IH1. intros v Hv. apply Hall. right. exact Hv.
      * intros [|k] ns Hk Hbefore; [discriminate|].
        apply (IH2 k ns Hk). intros i Hi.
        apply (Hbefore (S i)). lia.
    + split.
      * intros Hall. specialize (Hall (Time ns0) (or_introl eq_refl)). discriminate.
      * intros [|k] ns Hk Hbefore.
        -- cbn in Hk. injection Hk as ->. reflexivity.
        -- specialize (Hbefore 0%nat ltac:(lia)). discriminate.
Qed.

(** X12.  For a time index within the array, [get_time] returns the time
    of the first particle, in row order, that has one at that index, and
    NaT when no particle has; the object is unchanged. *)
Theorem get_time_first_recorded :
  forall (self : Result.ParticleResult KDTree HFRGrid Dataset) (t : Z),
    rectangular (Result.times self) ->
    (- Z.of_nat (ncols (Result.times self)) <= t
     < Z.of_nat (ncols (Result.times self)))%Z ->
    let j := Z.to_nat (if (t <? 0)%Z
                       then t + Z.of_nat (ncols (Result.times self)) else t) in
    exists r,
      Result.get_time t self = (Ok r, self) /\
      ((forall row, In row (rows (Result.times self)) ->
                    nth_error row j = Some NaT) -> r = NaT) /\
      (forall i row ns,
          nth_error (rows (Result.times self)) i = Some row ->
          nth_error row j = Some (Time ns) ->
          (forall i' row', (i' < i)%nat ->
                           nth_error (rows (Result.times self)) i' = Some row' ->
                           nth_error row' j = Some NaT) ->
          r = Time ns).
Proof.
  intros self t Hrect Ht j.
  destruct (axis_index_in_range _ t Ht) as [Hj Hlt]. fold j in Hj, Hlt.
  destruct (take_column_rectangular _ _ j Hrect Hlt) as (col & Hcol & Hall).
  unfold Result.get_time, sbind, gets, lift, column. rewrite Hj. cbn [rbind].
  rewrite Hcol, mask_index_filter.
  destruct (first_recorded col) as [F1 F2]. cbv zeta in F1, F2.
  exists (match filter (fun v => negb (isnan v)) col with
          | [] => NaT
          | v :: _ => v
          end).
  split; [|split].
  - destruct (filter _ col) as [|v rest]; reflexivity.
  - intros Hnat. apply F1. intros v Hv.
    apply In_nth_error in Hv. destruct Hv as [i Hi].
    destruct (Forall2_nth_r _ _ _ _ _ Hall Hi) as (row & Hrow & Hv); cbn beta in Hv.
    apply nth_error_In in Hrow. rewrite (Hnat row Hrow) in Hv. congruence.
  - intros i row ns Hrow Hns Hbefore. apply (F2 i ns).
    + destruct (Forall2_nth_l _ _ _ _ _ Hall Hrow) as (v & Hv & Hrv); cbn beta in Hrv.
      congruence.
    + intros i' Hi'.
      assert (Hlen : (i' < length (rows (Result.times self)))%nat).
      { assert (Hi : (i < length (rows (Result.times self)))%nat)
          by (apply nth_error_Some; congruence).
        lia. }
      destruct (nth_error (rows (Result.times self)) i') as [row'|] eqn:E;
        [|apply nth_error_None in E; lia].
      destruct (Forall2_nth_l _ _ _ _ _ Hall E) as (v & Hv & Hrv); cbn beta in Hrv.
      rewrite (Hbefore i' row' Hi' E) in Hrv. congruence.
Qed.

(** X13.  [get_time] raises [IndexError] for a time index outside
    [-T, T), [T] the number of time steps, and a negative index within
    that range names the same time step as the index plus [T]. *)
Theorem get_time_index :
  forall (self : Result.ParticleResult KDTree HFRGrid Dataset) (t : Z),
    let T := Z.of_nat (ncols (Result.times self)) in
    ((t < - T \/ T <= t)%Z ->
     Result.get_time t self = (Raise IndexError, self)) /\
    ((- T <= t < 0)%Z ->
     Result.get_time t self = Result.get_time (t + T) self).
Proof.
  intros self t T. split.
  - intros Ht. unfold Result.get_time, sbind, gets, lift, column.
    rewrite (axis_index_out_of_range _ t Ht). reflexivity.
  - intros Ht. unfold Result.get_time, sbind, gets, lift, column.
    destruct (axis_index_in_range (ncols (Result.times self)) t) as [-> _];
      [fold T; lia|].
    destruct (axis_index_in_range (ncols (Result.times self)) (t + T)) as [-> _];
      [fold T; lia|].
    fold T.
    replace (t <? 0)%Z with true by (symmetry; apply Z.ltb_lt; lia).
    replace (t + T <? 0)%Z with false by (symmetry; apply Z.ltb_ge; lia).
    reflexivity.
Qed.

End ResultFacts.

Lemma add_grid_in_bounds_witness :
  (fst (Result.add_grid (fun g : Samples.coords => g) Samples.wide_grid
          Samples.two_particles) = Ok tt <->
   covered [Time 0; Time Samples.hour; Time (2 * Samples.hour)]
     (ravel (Result.times Samples.two_particles)) /\
   covered [32; 33; 34] (ravel (Result.lats Samples.two_particles)) /\
   covered [-118; -117; -116] (ravel (Result.lons Samples.two_particles))) /\
  (fst (Result.add_grid (fun g : Samples.coords => g) Samples.wide_grid
          Samples.two_particles) = Ok tt \/
   exists msg, In msg [Result.time_msg; Result.lat_msg; Result.lon_msg] /\
               fst (Result.add_grid (fun g : Samples.coords => g) Samples.wide_grid
                      Samples.two_particles) = Raise (ValueError msg)).
Proof.
  apply (add_grid_in_bounds Reference.scan_tree Samples.coords (fun g => g) unit
           Samples.wide_grid Samples.two_particles
           [Time 0; Time Samples.hour; Time (2 * Samples.hour)]
           [32; 33; 34] [-118; -117; -116]);
    try reflexivity; try discriminate; repeat constructor.
Defined.

Lemma add_grid_no_data_witness :
  fst (Result.add_grid (fun g : Samples.coords => g) Samples.wide_grid
         Samples.no_particles)
  = Raise (ValueError
      "zero-size array to reduction operation fmin which has no identity").
Proof.
  apply (add_grid_no_data Reference.scan_tree Samples.coords (fun g => g) unit
           Samples.wide_grid Samples.no_particles).
  reflexivity.
Defined.

Lemma get_time_first_recorded_witness :
  exists r,
    Result.get_time 2 Samples.two_particles = (Ok r, Samples.two_particles) /\
    ((forall row, In row (rows (Result.times Samples.two_particles)) ->
                  nth_error row 2 = Some NaT) -> r = NaT) /\
    (forall i row ns,
        nth_error (rows (Result.times Samples.two_particles)) i = Some row ->
        nth_error row 2 = Some (Time ns) ->
        (forall i' row', (i' < i)%nat ->
                         nth_error (rows (Result.times Samples.two_particles)) i'
                         = Some row' ->
                         nth_error row' 2 = Some NaT) ->
        r = Time ns).
Proof.
  apply (get_time_first_recorded Reference.scan_tree Samples.coords unit
           Samples.two_particles 2).
  - repeat constructor.
  - cbn. lia.
Defined.

Lemma get_time_index_witness :
  ((3 < - 3 \/ 3 <= 3)%Z ->
   Result.get_time 3 Samples.two_particles
   = (Raise IndexError, Samples.two_particles)) /\
  ((- 3 <= -1 < 0)%Z ->
   Result.get_time (-1) Samples.two_particles
   = Result.get_time (-1 + 3) Samples.two_particles).
Proof.
  split.
  - apply (proj1 (get_time_index Reference.scan_tree Samples.coords unit
                    Samples.two_particles 3)).
  - apply (proj2 (get_time_index Reference.scan_tree Samples.coords unit
                    Samples.two_particles (-1))).
Defined.

(** ** [ParticleResult.plot_feature] *)

Section PlotFacts.
Variable haversine : float -> float -> float -> float -> float.
Variable KDTree : Type.
Variable kd_build : list (float * float) -> option KDTree.
Variable HFRGrid : Type.
Variable Dataset : Type.

Lemma mask_index_lons {A B} (f : A * B -> bool) (la : list A) (lb : list B) :
  length la = length lb ->
  mask_index lb (map f (combine la lb)) = Ok (map snd (filter f (combine la lb))) /\
  mask_index la (map f (combine la lb)) = Ok (map fst (filter f (combine la lb))).
Proof.
  intros Hlen. unfold mask_index.
  rewrite length_map, length_combine, <- Hlen, Nat.min_id, Hlen, Nat.eqb_refl.
  split; f_equal.
  - revert lb Hlen.
    induction la as [|a la IH]; intros [|b lb] Hlen; cbn in *; try discriminate;
      [reflexivity|].
    destruct (f (a, b)); cbn; rewrite IH by lia; reflexivity.
  - revert lb Hlen.
    induction la as [|a la IH]; intros [|b lb] Hlen; cbn in *; try discriminate;
      [reflexivity|].
    destruct (f (a, b)); cbn; rewrite IH by lia; reflexivity.
Qed.

(** X14.  For a station feature built by [__init__] and the positions of
    the particles at a time index, fewer than 2^53 of them: when the
    latitudes and the longitudes of the feature are numpy arrays,
    [plot_feature] draws every waypoint exactly once, in two scatters that
    keep the order of the waypoints, in blue those with no position within
    the threshold, then in red those with at least one; when either of them
    is a Python list, which [__init__] stores as well, the boolean indexing
    raises [TypeError] and nothing is drawn. *)
Theorem plot_feature_station :
  forall wlats wlons wlabels segs td feature (lats_given lons_given : container)
         (self : Result.ParticleResult KDTree HFRGrid Dataset)
         (t : Z) (ax : Axes) curr_lats curr_lons,
    init kd_build wlats wlons wlabels segs td = Ok feature ->
    column (Result.lats self) t = Ok curr_lats ->
    column (Result.lons self) t = Ok curr_lons ->
    (Z.of_nat (length (combine curr_lats curr_lons)) < 2 ^ 53)%Z ->
    let visits w := near_count haversine td (combine curr_lats curr_lons) w in
    let blue := filter (fun w => (visits w =? 0)%nat) (combine wlats wlons) in
    let red := filter (fun w => (0 <? visits w)%nat) (combine wlats wlons) in
    Result.plot_feature haversine t feature lats_given lons_given true self ax
    = match lats_given, lons_given with
      | NdArray, NdArray =>
          (Ok tt,
           ax ++ [Scatter (map snd blue) (map fst blue)
                    (Some "b"%string) (Some 60%Z) (Some "k"%string);
                  Scatter (map snd red) (map fst red)
                    (Some "r"%string) (Some 60%Z) (Some "k"%string)])
      | _, _ => (Raise TypeError, ax)
      end.
Proof.
  intros wlats wlons wlabels segs td feature lats_given lons_given
         self t ax curr_lats curr_lons Hinit Hla Hlo HM visits blue red.
  unfold Result.plot_feature, sbind, lift, bool_index. rewrite Hla, Hlo.
  rewrite (count_near_run haversine KDTree kd_build
             wlats wlons wlabels segs td feature curr_lats curr_lons Hinit HM).
  apply init_Ok in Hinit. destruct Hinit as (Hlen & Hfl & Hfo & _).
  unfold Result.feature_lons, Result.feature_lats. rewrite Hfl, Hfo.
  assert (Hsign : forall w,
            (float_of_nat (visits w) =? 0) = (visits w =? 0)%nat /\
            (0 <? float_of_nat (visits w)) = (0 <? visits w)%nat).
  { intros w. apply Arith64.float_of_nat_sign.
    pose proof (near_count_le haversine td (combine curr_lats curr_lons) w).
    unfold visits. lia. }
  rewrite !map_map.
  rewrite (map_ext _ (fun w => (visits w =? 0)%nat))
    by (intros w; apply (Hsign w)).
  rewrite (map_ext (fun w => 0 <? float_of_nat _) (fun w => (0 <? visits w)%nat))
    by (intros w; apply (Hsign w)).
  destruct (mask_index_lons (fun w => (visits w =? 0)%nat) wlats wlons Hlen)
    as [B1 B2].
  destruct (mask_index_lons (fun w => (0 <? visits w)%nat) wlats wlons Hlen)
    as [R1 R2].
  destruct lats_given, lons_given; try reflexivity.
  - rewrite B1. reflexivity.
  - rewrite B1, B2, R1, R2.
    fold blue red. unfold ax_scatter, modify.
    rewrite !length_map, !Nat.eqb_refl. cbn.
    rewrite <- app_assoc. reflexivity.
Qed.

(** X15.  For a feature built by [__init__] that is not a station,
    [plot_feature] draws one scatter of all waypoints and joins them by a
    line exactly when the feature was built with segments; it looks at
    neither the time index nor the particles, so it raises for no index,
    and it does so for Python lists and numpy arrays alike. *)
Theorem plot_feature_track :
  forall wlats wlons wlabels (segs : bool) td feature
         (lats_given lons_given : container)
         (self : Result.ParticleResult KDTree HFRGrid Dataset)
         (t : Z) (ax : Axes),
    init kd_build wlats wlons wlabels segs td = Ok feature ->
    Result.plot_feature haversine t feature lats_given lons_given false self ax
    = (Ok tt,
       ax ++ Scatter wlons wlats None None None
          :: (if segs then [Line wlons wlats] else [])).
Proof.
  intros wlats wlons wlabels segs td feature lats_given lons_given
         self t ax Hinit.
  apply init_Ok in Hinit.
  destruct Hinit as (Hlen & Hfl & Hfo & _ & _ & _ & _ & _ & Hoff & Hon).
  unfold Result.plot_feature, Result.feature_lons, Result.feature_lats,
    Result.feature_segments, sbind, ax_scatter, ax_plot, modify, sret.
  rewrite Hfl, Hfo, <- Hlen, Nat.eqb_refl.
  destruct segs.
  - destruct (Hon eq_refl) as (_ & l & -> & _). rewrite <- app_assoc. reflexivity.
  - rewrite (Hoff eq_refl). reflexivity.
Qed.

End PlotFacts.

Lemma plot_feature_station_witness :
  let visits w := near_count Reference.flat_distance 500
                    (combine [32.5; 32.5] [-116.75; -116.25]) w in
  let blue := filter (fun w => (visits w =? 0)%nat)
                (combine Reference.three_lats Reference.three_lons) in
  let red := filter (fun w => (0 <? visits w)%nat)
               (combine Reference.three_lats Reference.three_lons) in
  Result.plot_feature Reference.flat_distance 1 Reference.three_track
    NdArray NdArray true Samples.two_particles []
  = (Ok tt,
     [] ++ [Scatter (map snd blue) (map fst blue)
              (Some "b"%string) (Some 60%Z) (Some "k"%string);
            Scatter (map snd red) (map fst red)
              (Some "r"%string) (Some 60%Z) (Some "k"%string)]) /\
  Result.plot_feature Reference.flat_distance 1 Reference.three_track
    PyList PyList true Samples.two_particles []
  = (Raise TypeError, []).
Proof.
  split.
  - apply (plot_feature_station Reference.flat_distance Reference.scan_tree
             Reference.scan_build Samples.coords unit
             Reference.three_lats Reference.three_lons None true 500
             Reference.three_track NdArray NdArray Samples.two_particles 1 []
             [32.5; 32.5] [-116.75; -116.25]);
      reflexivity.
  - apply (plot_feature_station Reference.flat_distance Reference.scan_tree
             Reference.scan_build Samples.coords unit
             Reference.three_lats Reference.three_lons None true 500
             Reference.three_track PyList PyList Samples.two_particles 1 []
             [32.5; 32.5] [-116.75; -116.25]);
      reflexivity.
Defined.

Lemma plot_feature_track_witness :
  Result.plot_feature Reference.flat_distance 7 Reference.three_track
    PyList PyList false Samples.two_particles []
  = (Ok tt,
     [] ++ Scatter Reference.three_lons Reference.three_lats None None None
        :: (if true then [Line Reference.three_lons Reference.three_lats] else [])).
Proof.
  apply (plot_feature_track Reference.flat_distance Reference.scan_tree
           Reference.scan_build Samples.coords unit
           Reference.three_lats Reference.three_lons None true 500
           Reference.three_track PyList PyList Samples.two_particles 7 []).
  reflexivity.
Defined.

(** ** [get_sd_stations] *)

(** X16.  When [get_sd_stations] returns a feature, the file it read, the
    default one when no path is given, holds exactly twelve stations: the
    feature has their latitudes and longitudes, the twelve station names
    as labels, no segments and a threshold of 500. *)
Theorem get_sd_stations_twelve :
  forall (KDTree : Type) (kd_build : list (float * float) -> option KDTree)
         (loadmat : string -> result (list float * list float))
         (default_path : string) (path : option string)
         (self : ParticlePlotFeature KDTree),
    get_sd_stations kd_build loadmat default_path path = Ok self ->
    exists station_lats station_lons,
      loadmat (match path with None => default_path | Some p => p end)
      = Ok (station_lats, station_lons) /\
      length station_lats = 12%nat /\ length station_lons = 12%nat /\
      lats self = station_lats /\ lons self = station_lons /\
      labels self = Some station_names /\
      segments self = None /\ track_dist self = 500.
Proof.
  intros KDTree kd_build loadmat default_path path self. unfold get_sd_stations.
  destruct (loadmat _) as [[station_lats station_lons]|e]; cbn [rbind fst snd];
    [|discriminate].
  intros Hinit. apply init_Ok in Hinit.
  destruct Hinit as (Hlen & Hla & Hlo & _ & _ & Hlab & Htd & Hl & Hoff & _).
  exists station_lats, station_lons.
  specialize (Hl station_names eq_refl). cbn [length station_names] in Hl.
  repeat split; auto; lia.
Qed.

Lemma get_sd_stations_twelve_witness :
  exists station_lats station_lons,
    Samples.station_file "stations.mat"
    = Ok (station_lats, station_lons) /\
    length station_lats = 12%nat /\ length station_lons = 12%nat /\
    lats Samples.stations = station_lats /\ lons Samples.stations = station_lons /\
    labels Samples.stations = Some station_names /\
    segments Samples.stations = None /\ track_dist Samples.stations = 500.
Proof.
  apply (get_sd_stations_twelve Reference.scan_tree Reference.scan_build
           Samples.station_file "stations.mat" None Samples.stations).
  reflexivity.
Defined.

(** ** The kernels [TestOOB] and [DeleteOOB] *)

(** X17.  [TestOOB] and [DeleteOOB] apply one test to the velocity [(u, v)]
    sampled at the particle: both components strictly between [-1e-14] and
    [1e-14].  [TestOOB] sets [oob] to 1 when it holds and to 0 otherwise,
    [DeleteOOB] deletes the particle when it holds and leaves it alone
    otherwise; a velocity with a NaN component never passes the test. *)
Theorem oob_test :
  forall (UV : float -> float -> float -> float -> result (float * float))
         (particle : Kernels.ThreddsParticle) (time u v : float),
    UV time (Kernels.depth particle) (Kernels.lat particle) (Kernels.lon particle)
    = Ok (u, v) ->
    let still x := (- Kernels.OOB_THRESH <? x) && (x <? Kernels.OOB_THRESH) in
    Kernels.TestOOB UV particle time
    = Ok (Kernels.set_oob (if still u && still v then 1%Z else 0%Z) particle) /\
    Kernels.DeleteOOB UV particle time
    = Ok (if still u && still v then Kernels.delete particle else particle) /\
    (is_nan u = true \/ is_nan v = true -> still u && still v = false).
Proof.
  intros UV particle time u v HUV still.
  assert (Habs : forall x, (abs x <? Kernels.OOB_THRESH) = still x).
  { intros x. unfold still.
    assert (Ht : exists m e, Prim2SF Kernels.OOB_THRESH = S754_finite false m e)
      by (eexists; eexists; vm_compute; reflexivity).
    destruct Ht as (m & e & Ht).
    rewrite (Arith64.abs_ltb x Kernels.OOB_THRESH m e Ht).
    apply andb_comm. }
  unfold Kernels.TestOOB, Kernels.DeleteOOB. rewrite HUV. cbn [rbind].
  rewrite !Habs. repeat split.
  - destruct (still u && still v); reflexivity.
  - destruct (still u && still v); reflexivity.
  - unfold still. intros [H|H].
    + rewrite (Arith64.ltb_nan_r _ u H). reflexivity.
    + rewrite (Arith64.ltb_nan_r _ v H), andb_false_r. reflexivity.
Qed.

Lemma oob_test_witness :
  let still x := (- Kernels.OOB_THRESH <? x) && (x <? Kernels.OOB_THRESH) in
  Kernels.TestOOB Samples.still_water Samples.drifter 0
  = Ok (Kernels.set_oob (if still 0 && still (-0) then 1%Z else 0%Z)
          Samples.drifter) /\
  Kernels.DeleteOOB Samples.still_water Samples.drifter 0
  = Ok (if still 0 && still (-0) then Kernels.delete Samples.drifter
        else Samples.drifter) /\
  (is_nan 0 = true \/ is_nan (-0) = true -> still 0 && still (-0) = false).
Proof.
  apply (oob_test Samples.still_water Samples.drifter 0 0 (-0)). reflexivity.
Defined.

(** ** Construction, in full *)

(** X18.  [__init__] returns a track exactly when the latitudes and the
    longitudes are equally many, the KD-tree constructor accepts the
    points, the labels, if given, are as many as the waypoints, and, when
    segments are requested, there is a waypoint.  The track then holds the
    latitudes, longitudes, labels and threshold it was given and one point
    [(lat, lon)] per waypoint, in order. *)
Theorem init_succeeds_iff :
  forall (KDTree : Type) (kd_build : list (float * float) -> option KDTree)
         wlats wlons wlabels (segs : bool) td,
    ((exists self, init kd_build wlats wlons wlabels segs td = Ok self) <->
     (length wlats = length wlons /\
      (exists tree, kd_build (combine wlats wlons) = Some tree) /\
      (forall ls, wlabels = Some ls -> length ls = length wlats) /\
      (segs = true -> (1 <= length wlats)%nat))) /\
    (forall self,
        init kd_build wlats wlons wlabels segs td = Ok self ->
        lats self = wlats /\ lons self = wlons /\ labels self = wlabels /\
        track_dist self = td /\ length (points self) = length wlats /\
        forall i, (i < length wlats)%nat ->
                  nth_error (points self) i = Some (nth i wlats 0, nth i wlons 0)).
Proof.
  intros KDTree kd_build wlats wlons wlabels segs td. split; [split|].
  - intros [self Hinit]. apply init_Ok in Hinit.
    destruct Hinit as (Hlen & _ & _ & _ & Hb & _ & _ & Hl & _ & Hon).
    split; [exact Hlen|]. split; [eexists; exact Hb|]. split; [exact Hl|].
    intros Hs. apply (Hon Hs).
  - intros (Hlen & [tree Hb] & Hl & HN).
    unfold init, np_points.
    replace (length wlats =? length wlons)%nat with true
      by (symmetry; apply Nat.eqb_eq; exact Hlen).
    cbn [negb rbind]. rewrite Hb. cbn [library rbind].
    assert (Hchk : match wlabels with
                   | Some ls => if negb (length ls =? length wlats)%nat
                                then Raise (ValueError labels_msg) else Ok tt
                   | None => Ok tt
                   end = Ok tt).
    { destruct wlabels as [ls|]; [|reflexivity].
      rewrite (Hl ls eq_refl), Nat.eqb_refl. reflexivity. }
    rewrite Hchk. cbn [rbind].
    destruct segs; [|eexists; reflexivity].
    specialize (HN eq_refl). unfold np_empty.
    replace (Z.of_nat (length wlats) - 1 <? 0)%Z with false
      by (symmetry; apply Z.ltb_ge; lia).
    cbn [rbind]. unfold py_range.
    rewrite length_combine, <- Hlen, Nat.min_id.
    replace (Z.to_nat (Z.of_nat (length wlats) - 1)) with (length wlats - 1)%nat by lia.
    destruct (fill_segments_spec wlats wlons Hlen (length wlats - 1) 0
                (repeat None (length wlats - 1)))
      as (l & Hrun & _); [lia|rewrite repeat_length; lia|].
    rewrite Hrun. eexists. reflexivity.
  - intros self Hinit. apply init_Ok in Hinit.
    destruct Hinit as (Hlen & Hla & Hlo & Hpts & _ & Hlab & Htd & _).
    repeat split; auto.
    + rewrite Hpts, length_combine, <- Hlen, Nat.min_id. reflexivity.
    + intros i Hi. rewrite Hpts. apply nth_error_points; assumption.
Qed.

Lemma init_succeeds_iff_witness :
  ((exists self, init Reference.scan_build Reference.two_lats Reference.two_lons
                   (Some Reference.two_labels) false 500 = Ok self) <->
   (length Reference.two_lats = length Reference.two_lons /\
    (exists tree, Reference.scan_build
                    (combine Reference.two_lats Reference.two_lons) = Some tree) /\
    (forall ls, Some Reference.two_labels = Some ls ->
                length ls = length Reference.two_lats) /\
    (false = true -> (1 <= length Reference.two_lats)%nat))) /\
  (lats Reference.two_track = Reference.two_lats /\
   lons Reference.two_track = Reference.two_lons /\
   labels Reference.two_track = Some Reference.two_labels /\
   track_dist Reference.two_track = 500 /\
   length (points Reference.two_track) = length Reference.two_lats /\
   forall i, (i < length Reference.two_lats)%nat ->
             nth_error (points Reference.two_track) i
             = Some (nth i Reference.two_lats 0, nth i Reference.two_lons 0)).
Proof.
  split.
  - apply (proj1 (init_succeeds_iff Reference.scan_tree Reference.scan_build
                    Reference.two_lats Reference.two_lons
                    (Some Reference.two_labels) false 500)).
  - apply (proj2 (init_succeeds_iff Reference.scan_tree Reference.scan_build
                    Reference.two_lats Reference.two_lons
                    (Some Reference.two_labels) false 500)).
    reflexivity.
Defined.

(** ** The bounding box and the orientation of a segment *)

Lemma leb_same_l a c x :
  (a <=? c) = true -> (c <=? a) = true -> (a <=? x) = (c <=? x).
Proof.
  intros H1 H2. destruct (c <=? x) eqn:E.
  - eapply F64.leb_trans; eassumption.
  - destruct (a <=? x) eqn:E'; [|reflexivity].
    rewrite (F64.leb_trans c a x H2 E') in E. discriminate.
Qed.

Lemma leb_same_r a c x :
  (a <=? c) = true -> (c <=? a) = true -> (x <=? a) = (x <=? c).
Proof.
  intros H1 H2. destruct (x <=? c) eqn:E.
  - eapply F64.leb_trans; eassumption.
  - destruct (x <=? a) eqn:E'; [|reflexivity].
    rewrite (F64.leb_trans x a c E' H1) in E. discriminate.
Qed.

Lemma box_orientation a c x :
  is_finite a = true -> is_finite c = true ->
  (let p := if a <=? c then (a, c) else (c, a) in (fst p <=? x) && (x <=? snd p))
  = (let q := if c <=? a then (c, a) else (a, c) in (fst q <=? x) && (x <=? snd q)).
Proof.
  intros Fa Fc. apply F64.finite_not_nan in Fa, Fc. cbv zeta.
  destruct (a <=? c) eqn:E1; destruct (c <=? a) eqn:E2; cbn [fst snd];
    try reflexivity.
  - rewrite (leb_same_l a c x E1 E2), (leb_same_r a c x E1 E2). reflexivity.
  - rewrite (F64.leb_false_ge a c Fa Fc E1) in E2. discriminate.
Qed.

(** X19.  The bounding-box test does not depend on the orientation of a
    segment: for finite endpoints, a point passes [valid_point] for the
    segment from the first to the second exactly when it passes for the
    segment from the second to the first; and no point with a NaN
    coordinate passes, whatever the segment. *)
Theorem valid_point_orientation :
  (forall a b c d x y : float,
      is_finite a = true -> is_finite b = true ->
      is_finite c = true -> is_finite d = true ->
      valid_point x y (line_seg a b c d) = valid_point x y (line_seg c d a b)) /\
  (forall (x y : float) (s : segment),
      is_nan x = true \/ is_nan y = true -> valid_point x y s = false).
Proof.
  split.
  - intros a b c d x y Fa Fb Fc Fd. unfold valid_point, line_seg. cbn [dom rng].
    pose proof (box_orientation a c x Fa Fc) as Hx.
    pose proof (box_orientation b d y Fb Fd) as Hy.
    cbv zeta in Hx, Hy. rewrite Hx, Hy. reflexivity.
  - intros x y s [H|H]; unfold valid_point.
    + rewrite (F64.leb_nan_l x _ H), andb_false_r. reflexivity.
    + rewrite (F64.leb_nan_l y _ H), !andb_false_r. reflexivity.
Qed.

Lemma valid_point_orientation_witness :
  valid_point (-116.75) 33 (line_seg (-117.25) 32.5 (-116.25) 33.5)
  = valid_point (-116.75) 33 (line_seg (-116.25) 33.5 (-117.25) 32.5) /\
  valid_point nan 33 (line_seg (-117.25) 32.5 (-116.25) 33.5) = false.
Proof.
  split.
  - apply (proj1 valid_point_orientation); reflexivity.
  - apply (proj2 valid_point_orientation). left. reflexivity.
Defined.

(** ** The deletion kernels *)

Lemma SFltb_leb_trans x y z :
  SFltb x y = true -> SFleb y z = true -> SFltb x z = true.
Proof.
  unfold SFltb, SFleb.
  F64.sf_cases x; F64.sf_cases y; F64.sf_cases z;
    simpl; try reflexivity; try discriminate;
    F64.cmp_cases; simpl; try reflexivity; try discriminate; lia.
Qed.

Lemma ltb_leb_trans x y z :
  (x <? y) = true -> (y <=? z) = true -> (x <? z) = true.
Proof. rewrite !ltb_spec, leb_spec. apply SFltb_leb_trans. Qed.

(** X20.  [DeleteAfter3Days] asks for the removal of a particle exactly when
    its lifetime is above 259200 seconds or its removal was asked for
    already; so a particle that is removed at some lifetime is removed at
    every greater one, and a particle whose lifetime is at most 259200
    seconds, or is NaN, is returned as it came. *)
Theorem delete_after_three_days :
  forall (p : Kernels.ThreddsParticle) (t : float),
    (Kernels.state (Kernels.DeleteAfter3Days p t) = Kernels.Delete <->
     Kernels.state p = Kernels.Delete \/
     (Kernels.LIFETIME <? Kernels.lifetime p) = true) /\
    (forall (q : Kernels.ThreddsParticle) (t' : float),
        (Kernels.LIFETIME <? Kernels.lifetime p) = true ->
        (Kernels.lifetime p <=? Kernels.lifetime q) = true ->
        Kernels.state (Kernels.DeleteAfter3Days q t') = Kernels.Delete) /\
    ((Kernels.lifetime p <=? Kernels.LIFETIME) = true \/
     is_nan (Kernels.lifetime p) = true ->
     Kernels.DeleteAfter3Days p t = p).
Proof.
  intros p t. unfold Kernels.DeleteAfter3Days. split; [|split].
  - destruct (Kernels.LIFETIME <? Kernels.lifetime p) eqn:E; cbn.
    + split; auto.
    + split; [auto|]. intros [H|H]; [exact H|discriminate].
  - intros q t' Hp Hq.
    rewrite (ltb_leb_trans _ _ _ Hp Hq). reflexivity.
  - intros [H|H].
    + rewrite (Arith64.leb_ltb_false _ _ H). reflexivity.
    + rewrite (Arith64.ltb_nan_r _ _ H). reflexivity.
Qed.

Lemma delete_after_three_days_witness :
  let old := Kernels.mk_particle (-117.25) 32.5 0 259500 300 259500 0 0
               Kernels.Evaluate in
  let older := Kernels.mk_particle (-117.25) 32.5 0 259800 300 259800 0 0
                 Kernels.Evaluate in
  let young := Kernels.mk_particle (-117.25) 32.5 0 259200 300 259200 0 0
                 Kernels.Evaluate in
  Kernels.state (Kernels.DeleteAfter3Days older 259800) = Kernels.Delete /\
  Kernels.DeleteAfter3Days young 259200 = young.
Proof.
  cbv zeta. split.
  - apply (proj1 (proj2 (delete_after_three_days
                           (Kernels.mk_particle (-117.25) 32.5 0 259500 300
                              259500 0 0 Kernels.Evaluate) 259500)));
      reflexivity.
  - apply (proj2 (proj2 (delete_after_three_days
                           (Kernels.mk_particle (-117.25) 32.5 0 259200 300
                              259200 0 0 Kernels.Evaluate) 259200))).
    left. reflexivity.
Defined.

(** X21.  None of [TestOOB], [DeleteOOB], [DeleteAfter3Days] and
    [DeleteParticle] moves a particle or changes its time, step, lifetime or
    spawn time, and none takes back a removal that was asked for; the
    sampling kernels raise exactly the error of the velocity field, and only
    [TestOOB] writes the out-of-bounds flag. *)
Theorem kernels_keep_position :
  forall (UV : float -> float -> float -> float -> result (float * float))
         (p : Kernels.ThreddsParticle) (t : float),
    let same (p' : Kernels.ThreddsParticle) :=
      Kernels.lon p' = Kernels.lon p /\ Kernels.lat p' = Kernels.lat p /\
      Kernels.depth p' = Kernels.depth p /\ Kernels.time p' = Kernels.time p /\
      Kernels.dt p' = Kernels.dt p /\
      Kernels.lifetime p' = Kernels.lifetime p /\
      Kernels.spawntime p' = Kernels.spawntime p /\
      (Kernels.state p = Kernels.Delete -> Kernels.state p' = Kernels.Delete) in
    (forall p', Kernels.TestOOB UV p t = Ok p' ->
                same p' /\ Kernels.state p' = Kernels.state p) /\
    (forall p', Kernels.DeleteOOB UV p t = Ok p' ->
                same p' /\ Kernels.oob p' = Kernels.oob p) /\
    (same (Kernels.DeleteAfter3Days p t) /\
     Kernels.oob (Kernels.DeleteAfter3Days p t) = Kernels.oob p) /\
    (same (Kernels.DeleteParticle p t) /\
     Kernels.oob (Kernels.DeleteParticle p t) = Kernels.oob p /\
     Kernels.state (Kernels.DeleteParticle p t) = Kernels.Delete) /\
    (forall e,
        UV t (Kernels.depth p) (Kernels.lat p) (Kernels.lon p) = Raise e ->
        Kernels.TestOOB UV p t = Raise e /\ Kernels.DeleteOOB UV p t = Raise e).
Proof.
  intros UV p t same. subst same. cbv beta.
  unfold Kernels.TestOOB, Kernels.DeleteOOB, Kernels.DeleteAfter3Days,
    Kernels.DeleteParticle.
  destruct (UV t (Kernels.depth p) (Kernels.lat p) (Kernels.lon p))
    as [[u v]|e0]; cbn [rbind].
  - destruct ((abs u <? Kernels.OOB_THRESH) && (abs v <? Kernels.OOB_THRESH));
      destruct (Kernels.LIFETIME <? Kernels.lifetime p);
      (split; [intros p' H; injection H as <-; cbn; auto 10|]);
      (split; [intros p' H; injection H as <-; cbn; auto 10|]);
      (split; [cbn; auto 10|]);
      (split; [cbn; auto 10|]);
      intros e H; discriminate.
  - destruct (Kernels.LIFETIME <? Kernels.lifetime p);
      (split; [intros p' H; discriminate|]);
      (split; [intros p' H; discriminate|]);
      (split; [cbn; auto 10|]);
      (split; [cbn; auto 10|]);
      intros e H; injection H as <-; auto.
Qed.

Lemma kernels_keep_position_witness :
  (forall p', Kernels.TestOOB Samples.still_water Samples.drifter 0 = Ok p' ->
              Kernels.lon p' = Kernels.lon Samples.drifter /\
              Kernels.lat p' = Kernels.lat Samples.drifter) /\
  Kernels.lifetime (Kernels.DeleteParticle Samples.drifter 0)
  = Kernels.lifetime Samples.drifter.
Proof.
  destruct (kernels_keep_position Samples.still_water Samples.drifter 0)
    as (HT & _ & _ & (HP & _) & _).
  split.
  - intros p' H. destruct (HT p' H) as ((Hlon & Hlat & _) & _).
    split; assumption.
  - apply HP.
Defined.

(** ** The features of a result *)

Section FeatureList.
Variable KDTree : Type.
Variable HFRGrid : Type.
Variable Dataset : Type.

Lemma add_plot_feature_run
    (f : ParticlePlotFeature KDTree) (station : bool)
    (self : Result.ParticleResult KDTree HFRGrid Dataset) :
  Result.add_plot_feature f station self
  = (Ok tt, Result.append_feature KDTree HFRGrid Dataset (f, station) self).
Proof. reflexivity. Qed.

(** X22.  [add_plot_feature] never raises and keeps the features in the
    order of the calls: after one call for each item of a list, the object
    holds the features it had, followed by the items in the order they were
    added, each with its station flag; its grid and its arrays are as
    before. *)
Theorem features_in_order_of_addition :
  forall (items : list (ParticlePlotFeature KDTree * bool))
         (self : Result.ParticleResult KDTree HFRGrid Dataset),
    let after :=
      fold_left (fun s item =>
                   snd (Result.add_plot_feature (fst item) (snd item) s))
        items self in
    Result.plot_features after = Result.plot_features self ++ items /\
    Result.grid after = Result.grid self /\
    Result.lats after = Result.lats self /\
    Result.lons after = Result.lons self /\
    Result.times after = Result.times self /\
    Forall (fun item =>
              forall s : Result.ParticleResult KDTree HFRGrid Dataset,
                fst (Result.add_plot_feature (fst item) (snd item) s) = Ok tt)
      items.
Proof.
  induction items as [|[f st] items IH]; intros self; cbv zeta.
  - cbn [fold_left]. rewrite app_nil_r. repeat split. constructor.
  - cbn [fold_left fst snd]. rewrite add_plot_feature_run. cbn [snd].
    specialize (IH (Result.append_feature KDTree HFRGrid Dataset (f, st) self)).
    cbv zeta in IH. destruct IH as (Hp & Hg & Hla & Hlo & Ht & Hall).
    rewrite Hp, Hg, Hla, Hlo, Ht. cbn. rewrite <- app_assoc. cbn [app].
    repeat split. constructor; [intros s; reflexivity|exact Hall].
Qed.

End FeatureList.

(** ** The code against the words of sections 4.2 and 4.4 *)

Lemma ltb_negb_leb a b :
  is_nan a = false -> is_nan b = false -> (b <? a) = negb (a <=? b).
Proof.
  intros Na Nb. destruct (a <=? b) eqn:E; cbn [negb].
  - apply Arith64.leb_ltb_false, E.
  - destruct (b <? a) eqn:E'; [reflexivity|].
    rewrite (F64.leb_total b a Nb Na E') in E. discriminate.
Qed.

(** The interval that [line_seg] stores is the one from the smaller to
    the larger endpoint coordinate. *)
Lemma interval_lower_upper a c x :
  is_finite a = true -> is_finite c = true ->
  (let p := if a <=? c then (a, c) else (c, a) in (fst p <=? x) && (x <=? snd p))
  = (lower a c <=? x) && (x <=? upper a c).
Proof.
  intros Fa Fc. apply F64.finite_not_nan in Fa, Fc. cbv zeta.
  unfold lower, upper. rewrite (ltb_negb_leb a c Fa Fc).
  destruct (a <=? c) eqn:E1; cbn [negb fst snd].
  - destruct (a <? c) eqn:E2; [reflexivity|].
    pose proof (F64.leb_total a c Fa Fc E2) as E3.
    rewrite (leb_same_r a c x E1 E3). reflexivity.
  - rewrite (ltb_negb_leb c a Fc Fa).
    rewrite (F64.leb_false_ge a c Fa Fc E1). reflexivity.
Qed.

Lemma valid_point_containsProjection x y xa ya xb yb :
  is_finite xa = true -> is_finite ya = true ->
  is_finite xb = true -> is_finite yb = true ->
  valid_point x y (line_seg xa ya xb yb) = containsProjection x y xa ya xb yb.
Proof.
  intros Fxa Fya Fxb Fyb. unfold valid_point, containsProjection, line_seg.
  cbn [dom rng].
  pose proof (interval_lower_upper xa xb x Fxa Fxb) as Hx.
  pose proof (interval_lower_upper ya yb y Fya Fyb) as Hy.
  cbv zeta in Hx, Hy. rewrite Hx, Hy. reflexivity.
Qed.

Lemma intersection_info_projectPoint x y xa ya xb yb :
  is_finite xa = true -> is_finite xb = true ->
  ((xa =? xb) = false -> is_nan ((ya - yb) / (xa - xb)) = false) ->
  intersection_info x y (line_seg xa ya xb yb) = projectPoint x y xa ya xb yb.
Proof.
  intros Fxa Fxb Hm. unfold intersection_info, projectPoint.
  rewrite line_seg_slope by assumption. cbn [x1 y1 line_seg].
  destruct (xa =? xb) eqn:E; [reflexivity|].
  rewrite (Hm eq_refl). reflexivity.
Qed.

(** X25.  For finite endpoints, [valid_point] on the segment of [line_seg]
    is [containsProjection], the test against the intervals from the
    smaller to the larger endpoint coordinate; and when the slope
    [(y1 - y2) / (x1 - x2)] of a segment of different endpoint longitudes
    is a number, [intersection_info] is [projectPoint]: [(x1, y)] for
    equal longitudes, [(x, y1)] for a slope that is exactly 0, and the
    two-line intersection of the formula otherwise. *)
Theorem segment_geometry_refines :
  forall x y xa ya xb yb : float,
    is_finite xa = true -> is_finite ya = true ->
    is_finite xb = true -> is_finite yb = true ->
    valid_point x y (line_seg xa ya xb yb) = containsProjection x y xa ya xb yb /\
    (((xa =? xb) = false -> is_nan ((ya - yb) / (xa - xb)) = false) ->
     intersection_info x y (line_seg xa ya xb yb) = projectPoint x y xa ya xb yb).
Proof.
  intros x y xa ya xb yb Fxa Fya Fxb Fyb. split.
  - apply valid_point_containsProjection; assumption.
  - intros Hm. apply intersection_info_projectPoint; assumption.
Qed.

Lemma segment_geometry_refines_witness :
  valid_point (-116.75) 33 (line_seg (-117.25) 32.5 (-116.25) 33.5)
  = containsProjection (-116.75) 33 (-117.25) 32.5 (-116.25) 33.5 /\
  intersection_info (-116.5) 32.75 (line_seg (-117.25) 32.5 (-116.25) 33.5)
  = projectPoint (-116.5) 32.75 (-117.25) 32.5 (-116.25) 33.5.
Proof.
  split.
  - apply (segment_geometry_refines (-116.75) 33 (-117.25) 32.5 (-116.25) 33.5);
      reflexivity.
  - apply (segment_geometry_refines (-116.5) 32.75 (-117.25) 32.5 (-116.25) 33.5);
      reflexivity.
Defined.

Section ClosestDistance.
Variable haversine : float -> float -> float -> float -> float.
Variable KDTree : Type.
Variable kd_build : list (float * float) -> option KDTree.
Variable kd_query : KDTree -> float -> float -> option nat.

Lemma projection_dist_projected wlats wlons lat lon i :
  Forall (fun v => is_finite v = true) wlats ->
  Forall (fun v => is_finite v = true) wlons ->
  slopes_are_numbers wlats wlons ->
  (i + 1 < length wlats)%nat ->
  projection_dist haversine lat lon (segment_at wlats wlons i)
  = projected_dist haversine wlats wlons lat lon i.
Proof.
  intros Hla Hlo Hm Hi. unfold projection_dist, projected_dist, segment_at.
  cbv zeta.
  rewrite intersection_info_projectPoint by (auto using nth_finite).
  rewrite valid_point_containsProjection by (auto using nth_finite).
  reflexivity.
Qed.

Lemma candidates_closest wlats wlons segs lat lon idx :
  Forall (fun v => is_finite v = true) wlats ->
  Forall (fun v => is_finite v = true) wlons ->
  slopes_are_numbers wlats wlons ->
  (idx < length wlats)%nat ->
  candidates haversine wlats wlons segs lat lon idx
  = closest_candidates haversine wlats wlons segs lat lon idx /\
  flat_map (projection_dist haversine lat lon) (candidate_segments wlats wlons idx)
  = flat_map (projected_dist haversine wlats wlons lat lon)
      (adjacent_segments (length wlats) idx).
Proof.
  intros Hla Hlo Hm Hidx.
  assert (Hflat :
    flat_map (projection_dist haversine lat lon) (candidate_segments wlats wlons idx)
    = flat_map (projected_dist haversine wlats wlons lat lon)
        (adjacent_segments (length wlats) idx)).
  { unfold candidate_segments, adjacent_segments.
    rewrite !flat_map_app. f_equal.
    - destruct (Nat.ltb_spec 0 idx) as [H|H]; [|reflexivity].
      cbn [flat_map]. rewrite projection_dist_projected by (auto; lia).
      reflexivity.
    - destruct (Nat.ltb_spec (idx + 1) (length wlats)) as [H|H]; [|reflexivity].
      cbn [flat_map]. rewrite projection_dist_projected by (auto; lia).
      reflexivity. }
  split; [|exact Hflat].
  unfold candidates, closest_candidates, waypoint_dist.
  destruct segs; [rewrite Hflat|]; reflexivity.
Qed.

(** X23.  On a track of finite waypoints built by [__init__] on which no
    slope is lost to an overflow, for a finite query point for which the
    lookup answers with the index of a waypoint, and a distance function
    that yields numbers on finite coordinates, [get_closest_dist] returns a
    minimum of the distance to that waypoint and the distances to the
    projected points, by [projectPoint], that [containsProjection] accepts
    on the segment that ends at the waypoint and on the one that starts
    there; so the result is at most the distance to the waypoint, and
    equals it when the track has no segments or no projection is
    contained.  The track is unchanged. *)
Theorem closest_dist_minimum_of_projections :
  forall wlats wlons wlabels segs td self lat lon idx,
    distance_contract haversine ->
    Forall (fun v => is_finite v = true) wlats ->
    Forall (fun v => is_finite v = true) wlons ->
    slopes_are_numbers wlats wlons ->
    is_finite lat = true -> is_finite lon = true ->
    init kd_build wlats wlons wlabels segs td = Ok self ->
    kd_query (kdtree self) lat lon = Some idx -> (idx < length wlats)%nat ->
    exists r,
      get_closest_dist haversine kd_query lat lon self = (Ok r, self) /\
      is_minimum r (closest_candidates haversine wlats wlons segs lat lon idx) /\
      (r <=? haversine lat (nth idx wlats 0) lon (nth idx wlons 0)) = true /\
      (segs = false \/
       flat_map (projected_dist haversine wlats wlons lat lon)
                (adjacent_segments (length wlats) idx) = [] ->
       r = haversine lat (nth idx wlats 0) lon (nth idx wlons 0)).
Proof.
  intros wlats wlons wlabels segs td self lat lon idx
         Hc Hla Hlo Hm Flat Flon Hinit Hq Hidx.
  destruct (closest_dist_is_minimum haversine KDTree kd_build kd_query
              wlats wlons wlabels segs td self lat lon idx
              Hc Hla Hlo Flat Flon Hinit Hq Hidx)
    as (r & Hrun & Hmin & Hle & Heq).
  destruct (candidates_closest wlats wlons segs lat lon idx Hla Hlo Hm Hidx)
    as [Hcand Hflat].
  rewrite Hcand in Hmin. rewrite Hflat in Heq.
  exists r. repeat split; try assumption; apply Hmin.
Qed.

End ClosestDistance.

Lemma three_slopes_are_numbers :
  slopes_are_numbers Reference.three_lats Reference.three_lons.
Proof.
  intros [|[|i]] Hi Hne.
  - reflexivity.
  - discriminate Hne.
  - cbn in Hi. lia.
Qed.

Lemma closest_dist_minimum_of_projections_witness :
  exists r,
    get_closest_dist Reference.flat_distance Reference.scan_query 32.75 (-116.5)
      Reference.three_track = (Ok r, Reference.three_track) /\
    is_minimum r (closest_candidates Reference.flat_distance Reference.three_lats
                    Reference.three_lons true 32.75 (-116.5) 1) /\
    (r <=? Reference.flat_distance 32.75 (nth 1 Reference.three_lats 0)
             (-116.5) (nth 1 Reference.three_lons 0)) = true /\
    (true = false \/
     flat_map (projected_dist Reference.flat_distance Reference.three_lats
                 Reference.three_lons 32.75 (-116.5))
              (adjacent_segments (length Reference.three_lats) 1) = [] ->
     r = Reference.flat_distance 32.75 (nth 1 Reference.three_lats 0)
           (-116.5) (nth 1 Reference.three_lons 0)).
Proof.
  apply (closest_dist_minimum_of_projections Reference.flat_distance
           Reference.scan_tree Reference.scan_build Reference.scan_query
           Reference.three_lats Reference.three_lons None true 500
           Reference.three_track 32.75 (-116.5) 1).
  - exact flat_distance_contract.
  - repeat constructor.
  - repeat constructor.
  - exact three_slopes_are_numbers.
  - reflexivity.
  - reflexivity.
  - reflexivity.
  - reflexivity.
  - cbn. lia.
Defined.
